(** * Connective alignment pipeline: a shallow embedding of the Python sources

    The development follows the three core modules of the repository:
    [processing_filtering.py] (counting, probability estimation, the filter
    chain and the token normalisation helpers), [parse_all_alignments.py]
    (the alignment indexer and the corpus scans) and [conn_search.py] (the
    bootstrap controller [FindAlignments.find_conns]).

    Conventions.
    - A Python [str] is a [string]; the text is taken as UTF-8, and the only
      whitespace is the ASCII whitespace that [str.split()] honours.
    - A Python [dict] is an association list in insertion order with unique
      keys ([dict_set] overwrites in place or appends, as Python does).
    - Exceptions are values of [exn]; a computation that can raise returns an
      [outcome].
    - Probabilities are kept abstract behind the class [Number]; it is
      instantiated with exact rationals ([Qc]) and with binary64 floats. *)

From Stdlib Require Import PrimFloat.
From Stdlib Require Uint63.
From Stdlib Require Import List String Ascii ZArith Bool Arith Lia.
From Stdlib Require Import QArith Qcanon.
From Stdlib Require Import Permutation.
Import ListNotations.

Local Open Scope string_scope.
Local Open Scope list_scope.
Local Open Scope Z_scope.

(* ================================================================== *)
(** ** Exceptions *)

Inductive exn : Type :=
| KeyError | ValueError | IndexError | ZeroDivisionError | UnboundLocalError.

Inductive outcome (A : Type) : Type :=
| Ok (a : A)
| Raise (e : exn).
Arguments Ok {A} a.
Arguments Raise {A} e.

Definition obind {A B} (o : outcome A) (f : A -> outcome B) : outcome B :=
  match o with Ok a => f a | Raise e => Raise e end.

Declare Scope outcome_scope.
Delimit Scope outcome_scope with outcome.
Notation "'let?' x := c 'in' k" := (obind c (fun x => k))
  (at level 10, x pattern, c at level 100, k at level 200) : outcome_scope.
Local Open Scope outcome_scope.

(** [for x in xs: acc = step(acc, x)], stopping at the first exception. *)
Fixpoint ofold {A B} (step : A -> B -> outcome A) (xs : list B) (acc : A)
  : outcome A :=
  match xs with
  | [] => Ok acc
  | x :: xs' => let? acc' := step acc x in ofold step xs' acc'
  end.

Fixpoint omap {A B} (f : A -> outcome B) (xs : list A) : outcome (list B) :=
  match xs with
  | [] => Ok []
  | x :: xs' => let? y := f x in let? ys := omap f xs' in Ok (y :: ys)
  end.

(* ================================================================== *)
(** ** Python string primitives *)

Module Py.

(** Characters for which [str.isspace] holds among the first 128. *)
Definition is_space (c : ascii) : bool :=
  let n := nat_of_ascii c in
  ((9 <=? n) && (n <=? 13) || (28 <=? n) && (n <=? 32))%nat.

Definition snoc (s : string) (c : ascii) : string := s ++ String c "".

Definition is_empty (s : string) : bool :=
  match s with EmptyString => true | _ => false end.

(** [s.split()] : maximal runs of non-whitespace. *)
Fixpoint split_aux (s cur : string) : list string :=
  match s with
  | EmptyString => if is_empty cur then [] else [cur]
  | String c s' =>
      if is_space c
      then (if is_empty cur then split_aux s' "" else cur :: split_aux s' "")
      else split_aux s' (snoc cur c)
  end.
Definition split (s : string) : list string := split_aux s "".

(** [s.split(sep)] for a non-empty separator. *)
Fixpoint split_sep_aux (sep s : string) (skip : nat) (cur : string)
  : list string :=
  match s with
  | EmptyString => [cur]
  | String c s' =>
      match skip with
      | S k => split_sep_aux sep s' k cur
      | O => if prefix sep s
             then cur :: split_sep_aux sep s' (String.length sep - 1) ""
             else split_sep_aux sep s' 0 (snoc cur c)
      end
  end.
Definition split_sep (sep s : string) : list string := split_sep_aux sep s 0 "".

(** [sub in s]. *)
Fixpoint contains (sub s : string) : bool :=
  prefix sub s ||
  match s with EmptyString => false | String _ s' => contains sub s' end.

(** [s.index(sub)]; [None] stands for the ValueError. *)
Fixpoint index (sub s : string) : option nat :=
  if prefix sub s then Some O
  else match s with
       | EmptyString => None
       | String _ s' => option_map S (index sub s')
       end.

(** [s.replace(old, new)] for a non-empty [old]. *)
Fixpoint replace_aux (old new s : string) (skip : nat) : string :=
  match s with
  | EmptyString => ""
  | String c s' =>
      match skip with
      | S k => replace_aux old new s' k
      | O => if prefix old s
             then new ++ replace_aux old new s' (String.length old - 1)
             else String c (replace_aux old new s' 0)
      end
  end.
Definition replace (old new s : string) : string := replace_aux old new s 0.

(** [sep.join(xs)]. *)
Definition join (sep : string) (xs : list string) : string := concat sep xs.

(** Iterating a [str] yields its characters; in UTF-8 a character is a lead
    byte with its continuation bytes (10xxxxxx). *)
Definition is_cont (c : ascii) : bool :=
  let n := nat_of_ascii c in ((128 <=? n) && (n <=? 191))%nat.

Fixpoint chars_aux (s : string) (cur : string) : list string :=
  match s with
  | EmptyString => if is_empty cur then [] else [cur]
  | String c s' =>
      if is_cont c then chars_aux s' (snoc cur c)
      else (if is_empty cur then chars_aux s' (String c "")
            else cur :: chars_aux s' (String c ""))
  end.
Definition chars (s : string) : list string := chars_aux s "".

(** [string.punctuation]. *)
Definition punctuation : string :=
  "!" ++ String (ascii_of_nat 34) "#$%&'()*+,-./:;<=>?@[\]^_`{|}~".

Definition is_digit (c : ascii) : bool :=
  let n := nat_of_ascii c in ((48 <=? n) && (n <=? 57))%nat.

Fixpoint all_chars (p : ascii -> bool) (s : string) : bool :=
  match s with
  | EmptyString => true
  | String c s' => p c && all_chars p s'
  end.

(** [s.isnumeric()] on decimal digits. *)
Definition isnumeric (s : string) : bool :=
  negb (is_empty s) && all_chars is_digit s.

Definition digit_val (c : ascii) : Z := Z.of_nat (nat_of_ascii c) - 48.

(** Digits of an [int] literal: single underscores are allowed between
    digits. [prev] tells whether the previous character was a digit. *)
Fixpoint int_digits (s : string) (acc : Z) (prev : bool) : option Z :=
  match s with
  | EmptyString => if prev then Some acc else None
  | String c s' =>
      if is_digit c then int_digits s' (10 * acc + digit_val c) true
      else if (Ascii.eqb c "_" && prev)%bool then
             match s' with
             | String d _ => if is_digit d then int_digits s' acc false else None
             | EmptyString => None
             end
      else None
  end.

(** [int(s)] on a token without whitespace; [None] is the ValueError. *)
Definition int (s : string) : option Z :=
  match s with
  | String "+" s' => int_digits s' 0 false
  | String "-" s' => option_map Z.opp (int_digits s' 0 false)
  | _ => int_digits s 0 false
  end.

(** [x in xs] for a list of strings. *)
Definition in_list (x : string) (xs : list string) : bool :=
  existsb (String.eqb x) xs.

(** [xs[-1]]. *)
Definition last_opt {A} (xs : list A) : option A :=
  match xs with [] => None | _ => nth_error xs (List.length xs - 1) end.

(** [xs.remove(x)]: drops the first occurrence ([None]: ValueError). *)
Fixpoint list_remove (x : string) (xs : list string) : option (list string) :=
  match xs with
  | [] => None
  | y :: ys => if String.eqb x y then Some ys
               else option_map (cons y) (list_remove x ys)
  end.

(** [xs.insert(i, x)]. *)
Definition list_insert {A} (i : nat) (x : A) (xs : list A) : list A :=
  firstn i xs ++ x :: skipn i xs.

(** [pd.unique(xs).tolist()]: first occurrences, in order. *)
Fixpoint unique_aux {A} (eqb : A -> A -> bool) (xs seen : list A) : list A :=
  match xs with
  | [] => []
  | x :: xs' => if existsb (eqb x) seen then unique_aux eqb xs' seen
                else x :: unique_aux eqb xs' (x :: seen)
  end.
Definition unique {A} (eqb : A -> A -> bool) (xs : list A) : list A :=
  unique_aux eqb xs [].

End Py.

(* ================================================================== *)
(** ** Python dictionaries *)

(** Keys of a dictionary come with a boolean equality. *)
Class Key (K : Type) := { keqb : K -> K -> bool }.

Fixpoint list_eqb {A} (eqb : A -> A -> bool) (xs ys : list A) : bool :=
  match xs, ys with
  | [], [] => true
  | x :: xs', y :: ys' => eqb x y && list_eqb eqb xs' ys'
  | _, _ => false
  end.

#[export] Instance string_key : Key string := {| keqb := String.eqb |}.

(** Tuples of strings, the keys of the phrase maps of the indexer. *)
#[export] Instance tuple_key : Key (list string) :=
  {| keqb := list_eqb String.eqb |}.

Section Dict.
Context {K : Type} `{Key K} {V : Type}.

  (** Items in insertion order. *)
Definition dict := list (K * V).

Definition keys (d : dict) : list K := map fst d.
Definition values (d : dict) : list V := map snd d.

  (** [d.get(k)]; [d[k]] raises KeyError where this gives [None]. *)
Fixpoint dict_get (k : K) (d : dict) : option V :=
    match d with
    | [] => None
    | (k', v) :: d' => if keqb k k' then Some v else dict_get k d'
    end.

  (** [k in d]. *)
Definition dict_mem (k : K) (d : dict) : bool :=
    match dict_get k d with Some _ => true | None => false end.

  (** [d[k] = v]: an existing key keeps its place, a new one goes last. *)
Fixpoint dict_set (k : K) (v : V) (d : dict) : dict :=
    match d with
    | [] => [(k, v)]
    | (k', v') :: d' =>
        if keqb k k' then (k', v) :: d' else (k', v') :: dict_set k v d'
    end.

  (** [del d[k]] once the key is known to be there (no-op otherwise). *)
Fixpoint dict_remove (k : K) (d : dict) : dict :=
    match d with
    | [] => []
    | (k', v') :: d' =>
        if keqb k k' then d' else (k', v') :: dict_remove k d'
    end.

  (** [del d[k]] / the dictionary part of [d.pop(k)]. *)
Definition dict_del (k : K) (d : dict) : outcome dict :=
    if dict_mem k d then Ok (dict_remove k d) else Raise KeyError.

  (** [d[k]]. *)
Definition dict_index (k : K) (d : dict) : outcome V :=
    match dict_get k d with Some v => Ok v | None => Raise KeyError end.

  (** [d.update(e)], also [{**d, **e}] on a fresh copy of [d]. *)
Definition dict_update (d e : dict) : dict :=
    fold_left (fun acc kv => dict_set (fst kv) (snd kv) acc) e d.

End Dict.
Arguments dict K V : clear implicits.

(* ================================================================== *)
(** ** Numbers and text classes *)

(** What the pipeline asks of its probabilities: the true division of two
    [int]s, [<], the division of two probabilities (raising on a zero
    divisor) and the literals [0.18] and [3]. *)
Class Number (P : Type) := {
  div_count : Z -> Z -> P;
  num_ltb : P -> P -> bool;
  num_div : P -> P -> option P;
  lit_018 : P;
  lit_3 : P
}.

(** [str.isalpha], which depends on the Unicode character database. *)
Class Text := { str_isalpha : string -> bool }.

(** Exact rationals. *)
Definition Qc_of_Z (z : Z) : Qc := Q2Qc (inject_Z z).

#[export] Instance Qc_number : Number Qc := {|
  div_count a b := (Qc_of_Z a / Qc_of_Z b)%Qc;
  num_ltb x y := match (x ?= y)%Qc with Lt => true | _ => false end;
  num_div x y := if Qc_eq_dec y 0%Qc then None else Some (x / y)%Qc;
  lit_018 := Q2Qc (18 # 100);
  lit_3 := Qc_of_Z 3
|}.

(** IEEE 754 binary64, the [float] of CPython; the conversion of a count is
    exact below 2^53. *)
Definition float_of_Z (z : Z) : PrimFloat.float :=
  PrimFloat.of_uint63 (Uint63.of_Z z).

#[export] Instance float_number : Number PrimFloat.float := {|
  div_count a b := PrimFloat.div (float_of_Z a) (float_of_Z b);
  num_ltb := PrimFloat.ltb;
  num_div x y := if PrimFloat.eqb y PrimFloat.zero then None
                 else Some (PrimFloat.div x y);
  lit_018 := 0x1.70a3d70a3d70ap-3%float;
  lit_3 := float_of_Z 3
|}.

(** Letters of the first 128 characters; every character beyond them counts
    as a letter. Used for the executable examples only. *)
Definition ascii_isalpha (s : string) : bool :=
  negb (Py.is_empty s) &&
  Py.all_chars (fun c => let n := nat_of_ascii c in
     ((65 <=? n) && (n <=? 90) || (97 <=? n) && (n <=? 122) || (128 <=? n))%nat) s.

Definition ascii_text : Text := {| str_isalpha := ascii_isalpha |}.

(* ================================================================== *)
(** ** Tables *)

(** Alignment Candidate List: source key to its target observations. *)
Definition candidates := dict string (list string).

(** A [collections.Counter] over target strings. *)
Definition tally := dict string Z.

(** Count Table. *)
Definition count_table := dict string tally.

(** Probability Table. *)
Definition table (P : Type) := dict string (dict string P).

(** [c[w]] on a Counter: a missing key counts 0. *)
Definition counter_get (w : string) (c : tally) : Z :=
  match dict_get w c with Some n => n | None => 0 end.

(** [Counter(xs)]. *)
Definition Counter (xs : list string) : tally :=
  fold_left (fun c w => dict_set w (counter_get w c + 1) c) xs [].

Definition sum_Z (xs : list Z) : Z := fold_left Z.add xs 0.

(** A mapping that is either a plain [dict] or a [defaultdict(list)]. *)
Record cand_obj := mkCand {
  is_defaultdict : bool;
  entries : candidates
}.

(** [alignments[key]] on such an object: value read and object afterwards. *)
Definition cand_index (key : string) (a : cand_obj)
  : outcome (list string) * cand_obj :=
  match dict_get key (entries a) with
  | Some v => (Ok v, a)
  | None =>
      if is_defaultdict a
      then (Ok [], mkCand true (dict_set key [] (entries a)))
      else (Raise KeyError, a)
  end.

Section Estimator.
Context {P : Type} `{Number P}.

(** First loop of [alignment_probabilities]: a Counter for each key. *)
Definition count_keys (alignments : candidates) (ks : list string)
    (acc : count_table) : count_table :=
  fold_left (fun acc key =>
               match dict_index key alignments with
               | Ok obs => dict_set key (Counter obs) acc
               | Raise _ => acc
               end) ks acc.

(** The body of the second loop: [exp] for one Counter [v]. *)
Definition expected (v : tally) : dict string P :=
  fold_left (fun exp wc =>
               dict_set (fst wc) (div_count (snd wc) (sum_Z (values v))) exp)
            v [].

(** processing_filtering.py, [alignment_probabilities]. The second loop
    overwrites each Counter by its dictionary of probabilities, key by
    key and in the same order; the typed version collects them in a
    dictionary of their own. *)
Definition alignment_probabilities (alignments : candidates) : table P :=
  let conn_alignments := count_keys alignments (keys alignments) [] in
  fold_left (fun acc kv => dict_set (fst kv) (expected (snd kv)) acc)
            conn_alignments [].
End Estimator.

(** processing_filtering.py, [conn_count]: the count dictionary, and the
    first argument as the call leaves it. *)
Definition conn_count (alignments : cand_obj) (lex : list string)
  : count_table * cand_obj :=
  fold_left (fun st key =>
               let '(count, a) := st in
               match cand_index key a with
               | (Ok obs, a') => (dict_set key (Counter obs) count, a')
               | (Raise _, a') => (count, a')
               end) lex ([], alignments).

(** processing_filtering.py, [remove_punct_values]; the result is a
    [defaultdict(list)], touched only when a target is appended. *)
Definition dd_append {K} `{Key K} (k : K) (x : string) (d : dict K (list string))
  : dict K (list string) :=
  match dict_get k d with
  | Some xs => dict_set k (xs ++ [x]) d
  | None => dict_set k [x] d
  end.

Definition remove_punct_values (dictionary : candidates) : candidates :=
  fold_left (fun no_punct st =>
               let '(source, target) := st in
               fold_left (fun np word =>
                            if negb (Py.is_empty word) && Py.contains word Py.punctuation
                            then dd_append source "" np
                            else dd_append source word np)
                         target no_punct)
            dictionary [].

(* ================================================================== *)
(** ** A store of probability tables

    The filters receive a table object, may copy it ([deepcopy]) and delete
    entries of a table in place. Tables live in a store addressed by
    locations, so that a filter working on its argument and a filter
    working on a copy are told apart. *)

Definition loc := nat.

Section Store.
Context {P : Type}.

Definition heap := list (table P).

  (** State and exception monad over the store. *)
Definition M (A : Type) := heap -> heap * outcome A.

Definition ret {A} (a : A) : M A := fun h => (h, Ok a).
Definition raise {A} (e : exn) : M A := fun h => (h, Raise e).
Definition bind {A B} (m : M A) (f : A -> M B) : M B :=
    fun h => match m h with
             | (h', Ok a) => f a h'
             | (h', Raise e) => (h', Raise e)
             end.
Definition lift {A} (o : outcome A) : M A := fun h => (h, o).
Definition lift_opt {A} (e : exn) (o : option A) : M A :=
    match o with Some a => ret a | None => raise e end.

Definition load (l : loc) (h : heap) : table P := nth l h [].

Fixpoint store (l : loc) (t : table P) (h : heap) : heap :=
    match h, l with
    | [], _ => []
    | _ :: h', O => t :: h'
    | x :: h', S l' => x :: store l' t h'
    end.

  (** The table an object holds now. *)
Definition read (l : loc) : M (table P) := fun h => (h, Ok (load l h)).

  (** [copy.deepcopy(obj)]: a new object with the same contents. *)
Definition deepcopy (l : loc) : M loc :=
    fun h => (h ++ [load l h], Ok (List.length h)).

  (** [obj[source]] as a value. *)
Definition inner (l : loc) (source : string) : M (dict string P) :=
    fun h => (h, dict_index source (load l h)).

  (** [k in obj[source]]. *)
Definition mem2 (l : loc) (source k : string) : M bool :=
    fun h => (h, let? d := dict_index source (load l h) in Ok (dict_mem k d)).

  (** [obj[source][k]]. *)
Definition get2 (l : loc) (source k : string) : M P :=
    fun h => (h, let? d := dict_index source (load l h) in dict_index k d).

  (** [obj[source].pop(k)], the value popped. *)
Definition pop2 (l : loc) (source k : string) : M P :=
    fun h =>
      match dict_index source (load l h) with
      | Ok d =>
          match dict_get k d with
          | Some v => (store l (dict_set source (dict_remove k d) (load l h)) h, Ok v)
          | None => (h, Raise KeyError)
          end
      | Raise e => (h, Raise e)
      end.

  (** [del obj[source][k]]. *)
Definition del2 (l : loc) (source k : string) : M unit :=
    bind (pop2 l source k) (fun _ => ret tt).

  (** [obj[source][k] = v]. *)
Definition set2 (l : loc) (source k : string) (v : P) : M unit :=
    fun h =>
      match dict_index source (load l h) with
      | Ok d => (store l (dict_set source (dict_set k v d) (load l h)) h, Ok tt)
      | Raise e => (h, Raise e)
      end.

  (** [try: m  except KeyError: pass]. *)
Definition try_KeyError (m : M unit) : M unit :=
    fun h => match m h with
             | (h', Raise KeyError) => (h', Ok tt)
             | r => r
             end.

  (** A loop that carries the local variables it reassigns. *)
Fixpoint foldM {A B} (step : A -> B -> M A) (xs : list B) (acc : A) : M A :=
    match xs with
    | [] => ret acc
    | x :: xs' => bind (step acc x) (foldM step xs')
    end.

Definition for_ {B} (xs : list B) (body : B -> M unit) : M unit :=
    foldM (fun _ x => body x) xs tt.

  (** [a and b], short-circuit. *)
Definition andM (a b : M bool) : M bool :=
    bind a (fun x => if x then b else ret false).

  (** A name that may not have been bound on the path taken. *)
Definition use_var {A} (v : option A) : M A := lift_opt UnboundLocalError v.

End Store.
Arguments heap P : clear implicits.
Arguments M P A : clear implicits.

Declare Scope store_scope.
Delimit Scope store_scope with store.
Notation "x <- m ;; k" := (bind m (fun x => k))
  (at level 61, m at next level, right associativity) : store_scope.
Notation "m ;; k" := (bind m (fun _ => k))
  (at level 61, right associativity) : store_scope.
Notation "'when' c 'then' m" := (if c then m else ret tt)
  (at level 10, c at level 200, m at level 200) : store_scope.
Infix "&&&" := andM (at level 40, left associativity) : store_scope.

(* ================================================================== *)
(** ** The filter chain (processing_filtering.py) *)

Definition n_tokens (s : string) : nat := List.length (Py.split s).

Definition opt_eqb (a b : option string) : bool :=
  match a, b with
  | Some x, Some y => String.eqb x y
  | None, None => true
  | _, _ => false
  end.

(** [count_dict[source][target]]: a plain dictionary of Counters. *)
Definition count_lookup (count_dict : count_table) (source target : string)
  : outcome Z :=
  let? c := dict_index source count_dict in Ok (counter_get target c).

Definition unlikely_del_words (lang : string) : option (list string) :=
  if String.eqb lang "french" then
    Some ["ich"; "du"; "er"; "sie"; "es"; "wir"; "ihr"; "sie";
          "das"; "des"; "die"; "der"; "einer"; "eines"; "eine";
          "ist"; "dem"; "sich"; "unseres"; "ein"]
  else if String.eqb lang "german" then Some ["l'"; "ce"]
  else None.

Definition single_del_words (lang : string) : option (list string) :=
  if String.eqb lang "french" then Some ["dass"; "wenn"; "auf"; "vor"; "in"; "mit"]
  else if String.eqb lang "german" then
    Some ["avec"; "dans"; "devant"; "par"; "bien"; "de";
          "quoi"; "même"; "tout"; "que"; "qu'"; "en"; "est"; "ce";
          "sous"; "qui"; "s'"; "si"; "lors"; "pendant"; "durant"]
  else None.

(** The two [if]s of [remove_pronouns] are independent; the second wins. *)
Definition pronoun_list (lang : string) : option (list string) :=
  let p := if String.eqb lang "german"
           then Some ["ich"; "du"; "er"; "sie"; "es"; "wir"; "ihr"; "sie"]
           else None in
  if String.eqb lang "french"
  then Some ["j'"; "je"; "tu"; "il"; "elle"; "on"; "nous"; "vous"; "ils"; "elles"]
  else p.

Section Filters.
Context {P : Type} `{Number P} `{Text}.
Local Open Scope store_scope.

Definition filter_most_common_conns (dictionary : loc)
      (word_threshold phrase_threshold : P) : M P loc :=
    filtered <- deepcopy dictionary ;;
    d <- read dictionary ;;
    for_ d (fun st => let '(source, target) := st in
      for_ target (fun cc => let '(conn, count) := cc in
        (when (n_tokens conn =? 1)%nat then
           when (num_ltb count word_threshold) then
             del2 filtered source conn) ;;
        (when (1 <? n_tokens conn)%nat then
           when (num_ltb count phrase_threshold) then
             del2 filtered source conn))) ;;
    ret filtered.

(** The body of the inner loop of [remove_low_counts]. *)
Definition low_count_target (filtered_prob_dict : loc) (count_dict : count_table)
    (word_count phrase_count : Z) (source target : string) : M P unit :=
  if (n_tokens target =? 1)%nat then
    c <- lift (count_lookup count_dict source target) ;;
    when (c <? word_count)%Z then
      (pop2 filtered_prob_dict source target ;; ret tt)
  else
    c <- lift (count_lookup count_dict source target) ;;
    when (c <? phrase_count)%Z then
      (pop2 filtered_prob_dict source target ;; ret tt).

Definition remove_low_counts (prob_dict : loc) (count_dict : count_table)
    (word_count phrase_count : Z) : M P loc :=
  filtered_prob_dict <- deepcopy prob_dict ;;
  d <- read prob_dict ;;
  for_ d (fun sa =>
    for_ (keys (snd sa))
         (low_count_target filtered_prob_dict count_dict word_count phrase_count
                           (fst sa))) ;;
  ret filtered_prob_dict.

(** First loop of [filter_unlikely_alignments] over the phrases of one
      source; carries [filtered_phrases]. *)
Definition unlikely_phrases (alignments : loc) (del_words : option (list string))
      (source : string) (phrases : list string) : M P (list string) :=
    foldM (fun filtered_phrases phrase =>
             w <- lift_opt IndexError (Py.last_opt (Py.split phrase)) ;;
             dw <- use_var del_words ;;
             if Py.in_list w dw then
               del2 alignments source phrase ;;
               lift_opt ValueError (Py.list_remove phrase filtered_phrases)
             else ret filtered_phrases)
          phrases phrases.

  (** Second loop: the single words of one source. *)
Definition unlikely_singles (alignments : loc) (del_words : option (list string))
      (source : string) (singles filtered_phrases : list string) : M P unit :=
    for_ singles (fun single =>
      c <- ((dw <- use_var del_words ;; ret (Py.in_list single dw))
            &&& mem2 alignments source single) ;;
      (when c then del2 alignments source single) ;;
      for_ filtered_phrases (fun phrase =>
        c <- (ret (Py.in_list single (Py.split phrase))
              &&& mem2 alignments source single
              &&& (p <- get2 alignments source single ;;
                   ret (num_ltb p lit_018))) ;;
        when c then del2 alignments source single)).

  (** Third loop: a phrase inside a longer phrase. *)
Definition unlikely_subphrases (alignments : loc) (source : string)
      (filtered_phrases : list string) : M P (list string) :=
    let filtered_phr := filtered_phrases in
    foldM (fun fp in_phrase =>
      foldM (fun fp out_phrase =>
        c <- (ret (negb (in_phrase =? out_phrase)%string
                   && Py.in_list out_phrase fp
                   && Py.contains in_phrase out_phrase
                   && negb (n_tokens in_phrase =? n_tokens out_phrase)%nat)
              &&& mem2 alignments source in_phrase
              &&& (p <- get2 alignments source in_phrase ;;
                   ret (num_ltb p lit_018))
              &&& (p <- get2 alignments source in_phrase ;;
                   q <- get2 alignments source out_phrase ;;
                   r <- lift_opt ZeroDivisionError (num_div p q) ;;
                   ret (num_ltb r lit_3))) ;;
        if c then
          del2 alignments source in_phrase ;;
          lift_opt ValueError (Py.list_remove in_phrase fp)
        else ret fp)
      filtered_phr fp)
    filtered_phr filtered_phrases.

Definition filter_unlikely_alignments (alignments : loc) (lang : string)
      : M P loc :=
    let del_words := unlikely_del_words lang in
    t <- read alignments ;;
    for_ (keys t) (fun source =>
      targets <- inner alignments source ;;
      let singles := filter (fun s => (n_tokens s =? 1)%nat) (keys targets) in
      let phrases := filter (fun p => (1 <? n_tokens p)%nat) (keys targets) in
      filtered_phrases <- unlikely_phrases alignments del_words source phrases ;;
      unlikely_singles alignments del_words source singles filtered_phrases ;;
      unlikely_subphrases alignments source filtered_phrases ;;
      ret tt) ;;
    ret alignments.

  (** The test shared by [remove_incomplete_phrases] and [complete_phrases]:
      does [compare] complete the gapped [target_tokens]? *)
Definition completes (target_tokens clean_target : list string)
      (compare : string) : bool :=
    let target_complete := Py.split compare in
    (3 <=? List.length target_complete)%nat
    && negb (Py.contains "..." compare)
    && opt_eqb (hd_error target_tokens) (hd_error target_complete)
    && opt_eqb (Py.last_opt target_tokens) (Py.last_opt target_complete)
    && forallb str_isalpha target_complete
    && negb (list_eqb String.eqb clean_target target_complete).

Definition remove_incomplete_phrases (alignments : loc) : M P loc :=
    filtered_alignments <- deepcopy alignments ;;
    d <- read alignments ;;
    for_ d (fun st => let '(source, targets) := st in
      for_ (keys targets) (fun target =>
        let target_tokens := Py.split target in
        when ((3 <=? List.length target_tokens)%nat && Py.contains "..." target) then
          for_ (keys targets) (fun compare_target =>
            clean_target <- lift_opt ValueError (Py.list_remove "..." target_tokens) ;;
            when (completes target_tokens clean_target compare_target) then
              try_KeyError (del2 filtered_alignments source target)))) ;;
    ret filtered_alignments.

Definition filter_single_words (alignments : loc) (lang : string) : M P loc :=
    let del_words := single_del_words lang in
    t <- read alignments ;;
    for_ (keys t) (fun source =>
      targets <- inner alignments source ;;
      let single_words :=
        Py.unique String.eqb
          (filter (fun s => (n_tokens s =? 1)%nat) (keys targets)) in
      for_ single_words (fun single =>
        dw <- use_var del_words ;;
        when (Py.in_list single dw) then del2 alignments source single)) ;;
    ret alignments.

Definition remove_pronouns (alignments : loc) (lang : string) : M P loc :=
    let pronouns := pronoun_list lang in
    filtered_alignments <- deepcopy alignments ;;
    d <- read alignments ;;
    for_ d (fun st => let '(source, targets) := st in
      for_ (keys targets) (fun target =>
        let target_tokens := Py.split target in
        pr <- use_var pronouns ;;
        when (existsb (fun p => Py.in_list p target_tokens) pr) then
          del2 filtered_alignments source target)) ;;
    ret filtered_alignments.

Definition complete_phrases (alignments : loc) (lex : list string) : M P loc :=
    filtered <- deepcopy alignments ;;
    d <- read alignments ;;
    for_ d (fun st => let '(source, targets) := st in
      for_ (keys targets) (fun target =>
        let target_tokens := Py.split target in
        when ((3 <=? List.length target_tokens)%nat && Py.contains "..." target) then
          for_ lex (fun compare_conn =>
            clean_target <- lift_opt ValueError (Py.list_remove "..." target_tokens) ;;
            when (completes target_tokens clean_target compare_conn) then
              try_KeyError (probability <- pop2 filtered source target ;;
                            set2 filtered source compare_conn probability)))) ;;
    ret filtered.

  (** The chain in the order of [find_conns]. *)
Definition filter_chain (lang other_lang : string)
      (word_threshold phrase_threshold : P) (word_min_count phrase_min_count : Z)
      (count_dict : count_table) (complete_lex : list string)
      (new_alignments : loc) : M P loc :=
    a1 <- filter_most_common_conns new_alignments word_threshold phrase_threshold ;;
    a2 <- remove_low_counts a1 count_dict word_min_count phrase_min_count ;;
    a3 <- filter_unlikely_alignments a2 lang ;;
    a4 <- remove_incomplete_phrases a3 ;;
    a5 <- filter_single_words a4 lang ;;
    a6 <- remove_pronouns a5 other_lang ;;
    complete_phrases a6 complete_lex.

End Filters.

(* ================================================================== *)
(** ** Token normalisation (processing_filtering.py) *)

Definition set_last (x : string) (xs : list string) : list string :=
  removelast xs ++ [x].

Definition is_punct (tok : string) : bool := Py.contains tok Py.punctuation.

Definition remove_punct_phrases (tokens : list string) : list string :=
  if (1 <? List.length tokens)%nat then
    let np := match tokens with
              | t0 :: rest => if is_punct t0 then rest else tokens
              | [] => tokens
              end in
    let np := match Py.last_opt tokens with
              | Some tl => if is_punct tl then removelast np else np
              | None => np
              end in
    match np with
    | [] => np
    | _ :: _ =>
        if opt_eqb (hd_error np) (Some "...") || opt_eqb (Py.last_opt np) (Some "...")
        then match Py.list_remove "..." np with Some r => r | None => np end
        else np
    end
  else tokens.

(** [remove_contractions]; [phrase[-1]] raises on an empty phrase. *)
Definition remove_contractions (phrase : list string) (lang : string)
  : outcome string :=
  let de := ["d'"; "du"; "des"] in
  let a := ["aux"; "au"] in
  let zu := ["zur"; "zum"] in
  let von := ["vom"] in
  let rewrite (words : list string) (by_ : string) (p : list string)
    : outcome (list string) :=
    match Py.last_opt p with
    | Some w => Ok (if Py.in_list w words then set_last by_ p else p)
    | None => Raise IndexError
    end in
  let? p1 := if String.eqb lang "french"
             then (let? q := rewrite de "de" phrase in rewrite a "à" q)
             else Ok phrase in
  let? p2 := if String.eqb lang "german"
             then (let? q := rewrite zu "zu" p1 in rewrite von "von" q)
             else Ok p1 in
  Ok (Py.join " " p2).

(* ================================================================== *)
(** ** The alignment indexer (parse_all_alignments.py) *)

(** The three line-synchronised files, as the lists of their lines. *)
Record corpus := mkCorpus {
  alignment_file : list string;
  german_file : list string;
  french_file : list string
}.

Fixpoint zip3 {A B C} (xs : list A) (ys : list B) (zs : list C)
  : list (A * B * C) :=
  match xs, ys, zs with
  | x :: xs', y :: ys', z :: zs' => (x, y, z) :: zip3 xs' ys' zs'
  | _, _, _ => []
  end.

(** [xs[i]] for a Python [int] index. *)
Definition py_nth {A} (xs : list A) (i : Z) : outcome A :=
  let n := Z.of_nat (List.length xs) in
  let j := if (i <? 0)%Z then (n + i)%Z else i in
  if (j <? 0)%Z then Raise IndexError
  else match nth_error xs (Z.to_nat j) with
       | Some x => Ok x
       | None => Raise IndexError
       end.

(** [xs.remove(z)] inside [try ... except ValueError: pass]. *)
Fixpoint discard_Z (z : Z) (xs : list Z) : list Z :=
  match xs with
  | [] => []
  | y :: ys => if (z =? y)%Z then ys else y :: discard_Z z ys
  end.

Definition range (n : nat) : list Z := map Z.of_nat (seq 0 n).

(** Positions of a side that no index pair mentions. *)
Definition missing (n : nat) (mentioned : list string) : list Z :=
  fold_left (fun m w => match Py.int w with
                        | Some z => discard_Z z m
                        | None => m
                        end) mentioned (range n).

Definition int_of (s : string) : outcome Z :=
  match Py.int s with Some z => Ok z | None => Raise ValueError end.

Definition nth_str (xs : list string) (i : nat) : outcome string :=
  match nth_error xs i with Some x => Ok x | None => Raise IndexError end.

(** Gap marking of the German-keyed map: [for pos in range(len(v)-1)], the
    bound being taken once, before the insertions. *)
Definition mark_gaps_de (v : list string) : outcome (list string) :=
  if (1 <? List.length v)%nat then
    ofold (fun v pos =>
             let? a := nth_str v pos in
             let? b := nth_str v (pos + 1) in
             if Py.isnumeric a && Py.isnumeric b then
               let? x := int_of a in
               let? y := int_of b in
               if (1 <? Z.abs (x - y))%Z
               then Ok (Py.list_insert (pos + 1) "..." v)
               else Ok v
             else Ok v)
          (seq 0 (List.length v - 1)) v
  else Ok v.

(** Gap marking of the French-keyed map, with the comma check. *)
Definition mark_gaps_fr (german : list string) (v : list string)
  : outcome (list string) :=
  if (1 <? List.length v)%nat then
    ofold (fun v pos =>
             let? a := nth_str v pos in
             let? b := nth_str v (pos + 1) in
             if Py.isnumeric a && Py.isnumeric b then
               let? x := int_of a in
               let? y := int_of b in
               if (Z.abs (x - y) =? 2)%Z then
                 let? x' := int_of a in
                 let? tok := py_nth german (x' + 1) in
                 if String.eqb tok ","
                 then Ok (Py.list_insert (pos + 1) "," v)
                 else Ok (Py.list_insert (pos + 1) "..." v)
               else if (2 <? Z.abs (x - y))%Z
               then Ok (Py.list_insert (pos + 1) "..." v)
               else Ok v
             else Ok v)
          (seq 0 (List.length v - 1)) v
  else Ok v.

(** [[toks[int(i)] if i.isnumeric() else i for i in idx]]. *)
Definition resolve (toks : list string) (idx : list string)
  : outcome (list string) :=
  omap (fun i => if Py.isnumeric i
                 then (let? z := int_of i in py_nth toks z)
                 else Ok i) idx.

(** One entry of the last two loops: key and value of the new observation.
    After [remove_contractions] the value is a [str], and [" ".join] then
    runs over its characters. *)
Definition observation (key_toks val_toks : list string)
    (contractions : list string) (lang : string)
    (k_idx v_idx : list string) : outcome (string * string) :=
  let? k := resolve key_toks k_idx in
  let? v := resolve val_toks v_idx in
  let k := remove_punct_phrases k in
  let v := remove_punct_phrases v in
  let? joined :=
    match Py.last_opt v with
    | Some w =>
        if Py.in_list w contractions
        then (let? s := remove_contractions v lang in Ok (Py.join " " (Py.chars s)))
        else Ok (Py.join " " v)
    | None => Ok (Py.join " " v)
    end in
  Ok (Py.join " " k, joined).

(** The body of the loop of [parse_alignments] for one line. *)
Definition parse_line (st : candidates * candidates)
    (line : string * string * string) : outcome (candidates * candidates) :=
  let '(de_fr_alignments, fr_de_alignments) := st in
  let '(index, de, fr) := line in
  let german := Py.split de in
  let french := Py.split fr in
  let alignment := Py.split index in
  let? pairs := omap (fun a =>
                       let? x := nth_str (Py.split_sep "-" a) 0 in
                       let? y := nth_str (Py.split_sep "-" a) 1 in
                       Ok (x, y)) alignment in
  let de_missing := missing (List.length german) (map fst pairs) in
  let fr_missing := missing (List.length french) (map snd pairs) in
  let? de_fr_alignments :=
    ofold (fun acc m => let? w := py_nth german m in Ok (dd_append w "" acc))
          de_missing de_fr_alignments in
  let? fr_de_alignments :=
    ofold (fun acc m => let? w := py_nth french m in Ok (dd_append w "" acc))
          fr_missing fr_de_alignments in
  let phrase_align_fr_r : dict string (list string) :=
    fold_left (fun acc p => dd_append (snd p) (fst p) acc) pairs [] in
  let phrase_align_de_r : dict string (list string) :=
    fold_left (fun acc p => dd_append (fst p) (snd p) acc) pairs [] in
  let phrase_align_de : dict (list string) (list string) :=
    fold_left (fun acc kv => dd_append (snd kv) (fst kv) acc) phrase_align_fr_r [] in
  let phrase_align_fr : dict (list string) (list string) :=
    fold_left (fun acc kv => dd_append (snd kv) (fst kv) acc) phrase_align_de_r [] in
  let? phrase_align_de :=
    omap (fun kv => let? v := mark_gaps_de (snd kv) in Ok (fst kv, v))
         phrase_align_de in
  let? phrase_align_fr :=
    omap (fun kv => let? v := mark_gaps_fr german (snd kv) in Ok (fst kv, v))
         phrase_align_fr in
  let? de_fr_alignments :=
    ofold (fun acc kv =>
             let? o := observation german french
                         ["d'"; "du"; "des"; "aux"; "au"] "french"
                         (fst kv) (snd kv) in
             Ok (dd_append (fst o) (snd o) acc))
          phrase_align_de de_fr_alignments in
  let? fr_de_alignments :=
    ofold (fun acc kv =>
             let? o := observation french german
                         ["zur"; "zum"; "vom"] "german"
                         (fst kv) (snd kv) in
             Ok (dd_append (fst o) (snd o) acc))
          phrase_align_fr fr_de_alignments in
  Ok (de_fr_alignments, fr_de_alignments).

(** parse_all_alignments.py, [parse_alignments]. *)
Definition parse_alignments (c : corpus) : outcome (candidates * candidates) :=
  ofold parse_line
        (zip3 (alignment_file c) (german_file c) (french_file c)) ([], []).

(** *** Corpus scans for phrases *)

(** An element of [new_phrase]: a target position or an inserted token. *)
Inductive item : Type :=
| Pos (z : Z)
| Tok (s : string).

Fixpoint insert_sorted (z : Z) (xs : list Z) : list Z :=
  match xs with
  | [] => [z]
  | y :: ys => if (z <=? y)%Z then z :: xs else y :: insert_sorted z ys
  end.

(** [xs.sort()] on integers. *)
Definition sort_Z (xs : list Z) : list Z := fold_right insert_sorted [] xs.

(** The [while pos < len(new_phrase) - 1] loop. [wide] is the test of the
    [elif]: [> 2] in [parse_phrase_alignments], [> 1] in
    [parse_discontinuous]. The list grows by one at an insertion, so the
    loop is run on fuel. *)
Fixpoint gap_loop (fuel : nat) (wide : Z) (target_tok : list string)
    (pos : nat) (new_phrase : list item) : option (outcome (list item)) :=
  match fuel with
  | O => None
  | S fuel' =>
      if (pos + 1 <? List.length new_phrase)%nat then
        match nth_error new_phrase pos, nth_error new_phrase (pos + 1) with
        | Some (Pos a), Some (Pos b) =>
            if (Z.abs (a - b) =? 2)%Z then
              match py_nth target_tok (a + 1) with
              | Ok tok =>
                  gap_loop fuel' wide target_tok (pos + 1)
                    (Py.list_insert (pos + 1)
                       (Tok (if String.eqb tok "," then "," else "...")) new_phrase)
              | Raise e => Some (Raise e)
              end
            else if (wide <? Z.abs (a - b))%Z then
              gap_loop fuel' wide target_tok (pos + 1)
                (Py.list_insert (pos + 1) (Tok "...") new_phrase)
            else gap_loop fuel' wide target_tok (pos + 1) new_phrase
        | _, _ => gap_loop fuel' wide target_tok (pos + 1) new_phrase
        end
      else Some (Ok new_phrase)
  end.

(** The loop started at position 0 with fuel for twice the length; the
    fuel always suffices ([gap_loop_fuel] below), so the fallback of the
    last branch is never taken. *)
Definition gap_while (wide : Z) (target_tok : list string)
    (new_phrase : list item) : outcome (list item) :=
  match gap_loop (2 * List.length new_phrase) wide target_tok 0 new_phrase with
  | Some r => r
  | None => Ok new_phrase
  end.

(** From the target positions collected for one occurrence to the
    observation string: dedupe, sort, mark gaps, resolve, normalise. *)
Definition target_phrase (wide : Z) (lang : Z) (target_tok : list string)
    (positions : list Z) : outcome string :=
  let new_phrase := Py.unique Z.eqb positions in
  let? new_phrase :=
    if (1 <? List.length new_phrase)%nat
    then gap_while wide target_tok (map Pos (sort_Z new_phrase))
    else Ok (map Pos new_phrase) in
  let? new_phrase :=
    omap (fun p => match p with
                   | Pos z => py_nth target_tok z
                   | Tok s => Ok s
                   end) new_phrase in
  let new_phrase := remove_punct_phrases new_phrase in
  let contractions :=
    ["d'"; "du"; "des"; "aux"; "au"; "zur"; "zum"; "vom"] in
  let? joined :=
    match Py.last_opt new_phrase with
    | Some w =>
        if Py.in_list w contractions
        then (if (lang =? 1)%Z
              then remove_contractions new_phrase "french"
              else remove_contractions new_phrase "german")
        else Ok (Py.join " " new_phrase)
    | None => Ok (Py.join " " new_phrase)
    end in
  Ok (if Py.contains ", ..." joined
      then Py.replace ", ..." "..." joined
      else joined).

(** [[int(a.split("-")[0]), int(a.split("-")[1])] for a in alignment]. *)
Definition int_pairs (alignment : list string) : outcome (list (Z * Z)) :=
  omap (fun a =>
          let? x := nth_str (Py.split_sep "-" a) 0 in
          let? i := int_of x in
          let? y := nth_str (Py.split_sep "-" a) 1 in
          let? j := int_of y in
          Ok (i, j)) alignment.

(** Target positions aligned to one source position. The source is on the
    left of a pair when [lang] is 1 and on the right when it is 2; with
    another [lang] the name [alignment_index] is unbound. *)
Definition alignment_index (lang : Z) (pairs : list (Z * Z)) (word_pos : Z)
  : outcome (list Z) :=
  if (lang =? 1)%Z
  then Ok (map snd (filter (fun p => (fst p =? word_pos)%Z) pairs))
  else if (lang =? 2)%Z
  then Ok (map fst (filter (fun p => (snd p =? word_pos)%Z) pairs))
  else Raise UnboundLocalError.

Definition slice_eqb (source_tok : list string) (pos : nat) (phrase : list string)
  : bool :=
  list_eqb String.eqb (firstn (List.length phrase) (skipn pos source_tok)) phrase.

(** [range(0, len(source_tok) - len(phrase) + 1)]. *)
Definition starts (source_tok phrase : list string) : list nat :=
  seq 0 (List.length source_tok + 1 - List.length phrase).

Definition span (pos len : nat) : list Z := map Z.of_nat (seq pos len).

(** The per-line choice of source and target side. *)
Definition sides (lang : Z) (l1 l2 : string)
  : outcome (string * list string * list string) :=
  if (lang =? 1)%Z then Ok (l1, Py.split l1, Py.split l2)
  else if (lang =? 2)%Z then Ok (l2, Py.split l2, Py.split l1)
  else Raise UnboundLocalError.

(** parse_all_alignments.py, [parse_phrase_alignments]: one line. *)
Definition phrase_line (phrases : list string) (lang : Z)
    (acc : candidates) (line : string * string * string)
  : outcome candidates :=
  let '(index, l1, l2) := line in
  let alignment := Py.split index in
  let? pairs := int_pairs alignment in
  ofold (fun acc phrase_ =>
    let? sd := sides lang l1 l2 in
    let '(sentence, source_tok, target_tok) := sd in
    if Py.contains phrase_ sentence then
      let phrase := Py.split phrase_ in
      let phrase_index :=
        map (fun pos => span pos (List.length phrase))
            (filter (fun pos => slice_eqb source_tok pos phrase)
                    (starts source_tok phrase)) in
      ofold (fun acc pos_range =>
        let? new_phrase :=
          ofold (fun np word_pos =>
                   let? ai := alignment_index lang pairs word_pos in
                   Ok (np ++ ai)) pos_range [] in
        let? obs := target_phrase 2 lang target_tok new_phrase in
        Ok (dd_append phrase_ obs acc)) phrase_index acc
    else Ok acc) phrases acc.

Definition parse_phrase_alignments (c : corpus) (phrases : list string)
    (lang : Z) : outcome candidates :=
  ofold (phrase_line phrases lang)
        (zip3 (alignment_file c) (german_file c) (french_file c)) [].

(** The first position where [part] stands in [source_tok] whose span is not
    yet in [phrase_index] (the [break] leaves the scan there). *)
Fixpoint first_new_span (source_tok part : list string) (ps : list nat)
    (phrase_index : list (list Z)) : list (list Z) :=
  match ps with
  | [] => phrase_index
  | pos :: ps' =>
      if slice_eqb source_tok pos part then
        let source_pos := span pos (List.length part) in
        if existsb (list_eqb Z.eqb source_pos) phrase_index
        then first_new_span source_tok part ps' phrase_index
        else phrase_index ++ [source_pos]
      else first_new_span source_tok part ps' phrase_index
  end.

Definition opt_lt (a b : option nat) : outcome bool :=
  match a, b with
  | Some x, Some y => Ok (x <? y)%nat
  | _, _ => Raise ValueError
  end.

(** parse_all_alignments.py, [parse_discontinuous]: one line. *)
Definition discontinuous_line (phrases : list string) (lang : Z)
    (acc : candidates) (line : string * string * string)
  : outcome candidates :=
  let '(index, l1, l2) := line in
  let alignment := Py.split index in
  let? pairs := int_pairs alignment in
  ofold (fun acc phrase_ =>
    let? sd := sides lang l1 l2 in
    let '(sentence, source_tok, target_tok) := sd in
    let phrase := Py.split_sep " ... " phrase_ in
    let? p0 := nth_str phrase 0 in
    let? found :=
      if Py.contains p0 sentence then
        let? p1 := nth_str phrase 1 in
        if Py.contains p1 sentence
        then opt_lt (Py.index p0 sentence) (Py.index p1 sentence)
        else Ok false
      else Ok false in
    if found then
      let phrase_index :=
        fold_left (fun pi part =>
                     let part := Py.split part in
                     first_new_span source_tok part (starts source_tok part) pi)
                  phrase [] in
      let? new_phrase :=
        ofold (fun np pos_range =>
                 ofold (fun np word_pos =>
                          let? ai := alignment_index lang pairs word_pos in
                          Ok (np ++ ai)) pos_range np)
              phrase_index [] in
      let? obs := target_phrase 1 lang target_tok new_phrase in
      Ok (dd_append phrase_ obs acc)
    else Ok acc) phrases acc.

Definition parse_discontinuous (c : corpus) (phrases : list string)
    (lang : Z) : outcome candidates :=
  ofold (discontinuous_line phrases lang)
        (zip3 (alignment_file c) (german_file c) (french_file c)) [].

(* ================================================================== *)
(** ** The bootstrap controller (conn_search.py) *)

Definition fr_del : list string :=
  ["dire que"; "dire qu'"; "et dire que"; "et dire qu'";
   "encore que"; "cependant que"; "cependant qu'";
   "encore qu'"; "si"; "s'";
   "en même temps que"; "en même temps qu'"].

Definition de_del : list string :=
  ["bloß"; "dabei"; "mangels"; "mithin"; "obschon";
   "wenn ... auch"; "wiederum"; "wobei"; "wohingegen";
   "als ob"].

(** The exact-key retrieval of the single words: [new_alignments] after the
    loop, and the precomputed mapping as the lookups leave it. *)
Definition retrieve_singles (alignments : cand_obj) (single_words : list string)
  : candidates * cand_obj :=
  fold_left (fun st key =>
               let '(new_alignments, al) := st in
               match cand_index key al with
               | (Ok v, al') => (dict_set key v new_alignments, al')
               | (Raise _, al') => (new_alignments, al')
               end) single_words ([], alignments).

(** [for conns in new_alignments.values(): ...] then [list(set(new_conns))];
    the order of a set is not specified, first occurrences are kept here. *)
Definition find_new_conns {P} (new_alignments : table P) (other_lex : list string)
  : list string :=
  Py.unique String.eqb
    (flat_map (fun conns =>
                 filter (fun word => negb (Py.is_empty word)
                                     && negb (Py.in_list word other_lex))
                        (keys conns))
              (values new_alignments)).

Section Controller.
Context {P : Type} `{Number P} `{Text}.

  (** The attributes of a [FindAlignments] object. *)
Record FindAlignments := mkFA {
    de_fr : cand_obj;
    fr_de : cand_obj;
    files : corpus;
    fr_lex : list string;
    de_lex : list string;
    all_de_conns : list string;
    all_fr_conns : list string;
    counter : Z;
    de_conn_alignments : table P;
    fr_conn_alignments : table P;
    de_count : count_table;
    fr_count : count_table
  }.

  (** [__init__]. *)
Definition init (de_alignment_file fr_alignment_file : cand_obj)
      (c : corpus) (de_lex fr_lex all_de_conns all_fr_conns : list string)
    : FindAlignments :=
    mkFA de_alignment_file fr_alignment_file c fr_lex de_lex
         all_de_conns all_fr_conns 0 [] [] [] [].

Definition is_french (lang : string) : bool := String.eqb lang "french".

Definition set_counter (s : FindAlignments) (n : Z) :=
    mkFA (de_fr s) (fr_de s) (files s) (fr_lex s) (de_lex s) (all_de_conns s)
         (all_fr_conns s) n (de_conn_alignments s) (fr_conn_alignments s)
         (de_count s) (fr_count s).

  (** The precomputed mapping of the active language, after lookups. *)
Definition set_alignments (lang : string) (s : FindAlignments) (a : cand_obj) :=
    if is_french lang then
      mkFA (de_fr s) a (files s) (fr_lex s) (de_lex s) (all_de_conns s)
           (all_fr_conns s) (counter s) (de_conn_alignments s)
           (fr_conn_alignments s) (de_count s) (fr_count s)
    else
      mkFA a (fr_de s) (files s) (fr_lex s) (de_lex s) (all_de_conns s)
           (all_fr_conns s) (counter s) (de_conn_alignments s)
           (fr_conn_alignments s) (de_count s) (fr_count s).

Definition active_count (lang : string) (s : FindAlignments) : count_table :=
    if is_french lang then fr_count s else de_count s.

  (** [self.fr_count.update(c)] or [self.de_count.update(c)]. *)
Definition update_count (lang : string) (s : FindAlignments) (c : count_table) :=
    if is_french lang then
      mkFA (de_fr s) (fr_de s) (files s) (fr_lex s) (de_lex s) (all_de_conns s)
           (all_fr_conns s) (counter s) (de_conn_alignments s)
           (fr_conn_alignments s) (de_count s) (dict_update (fr_count s) c)
    else
      mkFA (de_fr s) (fr_de s) (files s) (fr_lex s) (de_lex s) (all_de_conns s)
           (all_fr_conns s) (counter s) (de_conn_alignments s)
           (fr_conn_alignments s) (dict_update (de_count s) c) (fr_count s).

  (** The end of a round: the result is merged into the result map of the
      active language and the new connectives extend the other lexicon. *)
Definition commit (lang : string) (s : FindAlignments)
      (new_alignments : table P) (new_conns : list string) :=
    if is_french lang then
      mkFA (de_fr s) (fr_de s) (files s) (fr_lex s) (de_lex s ++ new_conns)
           (all_de_conns s) (all_fr_conns s) (counter s) (de_conn_alignments s)
           (dict_update (fr_conn_alignments s) new_alignments)
           (de_count s) (fr_count s)
    else
      mkFA (de_fr s) (fr_de s) (files s) (fr_lex s ++ new_conns) (de_lex s)
           (all_de_conns s) (all_fr_conns s) (counter s)
           (dict_update (de_conn_alignments s) new_alignments)
           (fr_conn_alignments s) (de_count s) (fr_count s).

  (** The lexicon a round works on: [if not lex: lex = self.fr_lex] (or
    [self.de_lex]), then the entries of the deletion list are dropped. *)
Definition working_lex (self : FindAlignments) (lex : list string)
    (lang : string) : list string :=
  let lex0 := match lex with
              | [] => if is_french lang then fr_lex self else de_lex self
              | _ :: _ => lex
              end in
  filter (fun conn =>
            negb (Py.in_list conn (if is_french lang then fr_del else de_del)))
         lex0.

(** Locals of one round, kept for the statements below; [r_seed] is the
    [lex] argument, [r_lex] the lexicon the round works on and [r_next_lex]
    the value of [lex] at the end of the round. *)
Record round_info := mkRound {
    r_lang : string;
    r_seed : list string;
    r_lex : list string;
    r_single_count : count_table;
    r_phrase_count : count_table;
    r_discont_count : count_table;
    r_merged : candidates;
    r_probabilities : table P;
    r_result : table P;
    r_new_conns : list string;
    r_next_lex : list string
  }.

  (** The filter chain on the table of the round, an object of its own. *)
Definition run_chain (lang other_lang : string)
      (word_threshold phrase_threshold : P) (word_min_count phrase_min_count : Z)
      (count_dict : count_table) (complete_lex : list string)
      (new_alignments : table P) : outcome (table P) :=
    match filter_chain lang other_lang word_threshold phrase_threshold
            word_min_count phrase_min_count count_dict complete_lex
            0%nat [new_alignments] with
    | (h, Ok l) => Ok (load l h)
    | (_, Raise e) => Raise e
    end.

  (** The body of [find_conns] up to the test of the round counter: the
      object as the round leaves it, and the locals of the round or the
      exception that ended it. *)
Definition find_conns_round (self : FindAlignments) (lex : list string)
      (lang : string) (word_threshold phrase_threshold : P)
      (word_min_count phrase_min_count : Z)
    : FindAlignments * outcome round_info :=
    let self := set_counter self (counter self + 1) in
    if negb (is_french lang || String.eqb lang "german") then
      (self, Raise UnboundLocalError)
    else
      let alignments := if is_french lang then fr_de self else de_fr self in
      let lang_pos := if is_french lang then 2%Z else 1%Z in
      let other_lang := if is_french lang then "german" else "french" in
      let lex1 := working_lex self lex lang in
      let other_lex := if is_french lang then de_lex self else fr_lex self in
      let complete_lex :=
        if is_french lang then all_de_conns self else all_fr_conns self in
      let single_words := filter (fun w => (n_tokens w =? 1)%nat) lex1 in
      let phrases :=
        filter (fun p => (1 <? n_tokens p)%nat && negb (Py.contains "..." p)) lex1 in
      let discontinuous := filter (fun p => Py.contains "..." p) lex1 in
      let '(new_alignments, alignments') := retrieve_singles alignments single_words in
      let self := set_alignments lang self alignments' in
      match parse_phrase_alignments (files self) phrases lang_pos with
      | Raise e => (self, Raise e)
      | Ok new_phrase_alignments =>
      match parse_discontinuous (files self) discontinuous lang_pos with
      | Raise e => (self, Raise e)
      | Ok new_discontinuous =>
        let '(single_count, new_alignments) :=
          conn_count (mkCand true new_alignments) lex1 in
        let '(phrase_count, new_phrase_alignments) :=
          conn_count (mkCand true new_phrase_alignments) phrases in
        let '(discont_count, new_discontinuous) :=
          conn_count (mkCand true new_discontinuous) discontinuous in
        let self := update_count lang self single_count in
        let self := update_count lang self phrase_count in
        let self := update_count lang self discont_count in
        let count_dict := active_count lang self in
        let merged :=
          dict_update (dict_update (dict_update [] (entries new_alignments))
                                   (entries new_phrase_alignments))
                      (entries new_discontinuous) in
        let no_punct := remove_punct_values merged in
        let probabilities := alignment_probabilities no_punct in
        match run_chain lang other_lang word_threshold phrase_threshold
                word_min_count phrase_min_count count_dict complete_lex
                probabilities with
        | Raise e => (self, Raise e)
        | Ok result =>
            let new_conns := find_new_conns result other_lex in
            let self := commit lang self result new_conns in
            (self,
             Ok (mkRound lang lex lex1 single_count phrase_count discont_count
                         merged probabilities result new_conns
                         (if is_french lang then de_lex self else fr_lex self)))
        end
      end
      end.

  (** How a call of [find_conns] ends. *)
Inductive status : Type :=
  | Returned
  | Raised (e : exn)
  | OutOfFuel.

  (** conn_search.py, [FindAlignments.find_conns]. The recursion is on
      fuel; the result is the object, the rounds that completed and how the
      call ended. *)
Fixpoint find_conns (fuel : nat) (self : FindAlignments) (lex : list string)
      (lang : string) (word_threshold phrase_threshold : P)
      (word_min_count phrase_min_count : Z) (limit : Z)
    : FindAlignments * list round_info * status :=
    match fuel with
    | O => (self, [], OutOfFuel)
    | S fuel' =>
        match find_conns_round self lex lang word_threshold phrase_threshold
                word_min_count phrase_min_count with
        | (self', Raise e) => (self', [], Raised e)
        | (self', Ok info) =>
            let lex' := if is_french lang then de_lex self' else fr_lex self' in
            let lang' := if is_french lang then "german" else "french" in
            if (counter self' =? limit)%Z then (self', [info], Returned)
            else
              let '(s, log, st) :=
                if (counter self' =? 1)%Z
                then find_conns fuel' self' lex' lang' word_threshold
                       phrase_threshold word_min_count phrase_min_count limit
                else find_conns fuel' self' (r_new_conns info) lang'
                       word_threshold phrase_threshold word_min_count
                       phrase_min_count limit in
              (s, info :: log, st)
        end
    end.

(** The language of the round after a round in [lang]. *)
Definition other_language (lang : string) : string :=
  if is_french lang then "german" else "french".

(** The language of the [i]-th round of a call started in [lang]. *)
Definition lang_at (lang : string) (i : nat) : string :=
  if Nat.even i then lang else other_language lang.

(** A log of consecutive rounds, the first of which was called with [lex]
    and [lang] when the counter stood at [c]: each round records its
    arguments, and is followed by a round in the other language, called with
    [r_next_lex] after the first round of the object and with [r_new_conns]
    after any other. *)
Fixpoint log_chain (c : Z) (lex : list string) (lang : string)
    (log : list round_info) : Prop :=
  match log with
  | [] => True
  | info :: rest =>
      r_lang info = lang
      /\ r_seed info = lex
      /\ log_chain (c + 1)
                   (if (c + 1 =? 1)%Z then r_next_lex info else r_new_conns info)
                   (other_language lang) rest
  end.

End Controller.
Arguments FindAlignments P : clear implicits.
Arguments round_info P : clear implicits.

(* ================================================================== *)
(** ** Discourse relations (discourse_relations.py) *)

(** [set(xs) & set(ys)] is not empty. *)
Definition shares (xs ys : list string) : bool :=
  existsb (fun x => Py.in_list x ys) xs.

(** discourse_relations.py, [filter_for_discourse_relation]; the mappings
    are those read from the JSON files, a connective or a relation group to
    its list of relations. The lookup of [relation] stands before the loop,
    outside its [try]. *)
Definition filter_for_discourse_relation (conn_lex : list string)
    (conn_rel : dict string (list string)) (relation : string)
    (rel_mapping : dict string (list string)) : outcome (list string) :=
  let? relations := dict_index relation rel_mapping in
  Ok (fold_left (fun filtered_conns conn =>
                   match dict_index conn conn_rel with
                   | Ok rels => if shares rels relations
                                then filtered_conns ++ [conn]
                                else filtered_conns
                   | Raise _ => filtered_conns
                   end) conn_lex []).

(** [word + " " + "(" + ", ".join(rels) + ")"]. *)
Definition with_relation (word : string) (rels : list string) : string :=
  word ++ " " ++ ("(" ++ Py.join ", " rels ++ ")").

Section Annotation.
Context {P : Type}.
Local Open Scope store_scope.

(** [obj.pop(source)], the target map popped. *)
Definition pop1 (l : loc) (source : string) : M P (dict string P) :=
  fun h => match dict_get source (load l h) with
           | Some d => (store l (dict_remove source (load l h)) h, Ok d)
           | None => (h, Raise KeyError)
           end.

(** [obj[source] = d]. *)
Definition set1 (l : loc) (source : string) (d : dict string P) : M P unit :=
  fun h => (store l (dict_set source d (load l h)) h, Ok tt).

(** discourse_relations.py, [add_discourse_relation]: the targets are
    relabelled in a deep copy, then the sources, whose [pop] stands inside a
    [try]. *)
Definition add_discourse_relation (alignment : loc)
    (source_mapping target_mapping : dict string (list string)) : M P loc :=
  rel_alignment <- deepcopy alignment ;;
  d <- read alignment ;;
  for_ d (fun st => let '(source, targets) := st in
    for_ (keys targets) (fun target =>
      match dict_get target target_mapping with
      | Some rels =>
          probability <- pop2 rel_alignment source target ;;
          set2 rel_alignment source (with_relation target rels) probability
      | None => ret tt
      end)) ;;
  for_ source_mapping (fun sr => let '(source, relation) := sr in
    try_KeyError (targets <- pop1 rel_alignment source ;;
                  set1 rel_alignment (with_relation source relation) targets)) ;;
  ret rel_alignment.

End Annotation.

(* ================================================================== *)
(** ** Vocabulary of the statements *)

(** The boolean equality of the keys decides equality. *)
Class KeyOk (K : Type) `{Key K} :=
  keqb_eq : forall a b : K, keqb a b = true <-> a = b.

(** Gap marking as the specification words it: between every two adjacent
    positions goes a comma or a gap marker when they are 2 apart (a comma if
    the token after the first position is one), a gap marker when they are
    more than [wide] apart, and nothing otherwise. *)
Definition gap_between (wide : Z) (target_tok : list string) (a b : Z)
  : outcome (list item) :=
  if (Z.abs (a - b) =? 2)%Z then
    let? tok := py_nth target_tok (a + 1) in
    Ok [Tok (if String.eqb tok "," then "," else "...")]
  else if (wide <? Z.abs (a - b))%Z then Ok [Tok "..."]
  else Ok [].

Fixpoint every_pair_marked (wide : Z) (target_tok : list string)
    (positions : list Z) : outcome (list item) :=
  match positions with
  | [] => Ok []
  | a :: rest =>
      match rest with
      | [] => Ok [Pos a]
      | b :: _ =>
          let? gap := gap_between wide target_tok a b in
          let? marked := every_pair_marked wide target_tok rest in
          Ok (Pos a :: gap ++ marked)
      end
  end.

Section StoreRelations.
Context {P : Type}.

(** A computation all of whose runs relate the store before to the store
    after by [R]. *)
Definition respects (R : heap P -> heap P -> Prop) {A} (m : M P A) : Prop :=
  forall h h' r, m h = (h', r) -> R h h'.

(** The relations used below are preorders. *)
Class StoreRel (R : heap P -> heap P -> Prop) : Prop := {
  R_refl : forall h, R h h;
  R_trans : forall h1 h2 h3, R h1 h2 -> R h2 h3 -> R h1 h3
}.

(** Existing objects keep their source keys (and stay allocated). *)
Definition keys_kept (h h' : heap P) : Prop :=
  (List.length h <= List.length h')%nat
  /\ forall l, (l < List.length h)%nat -> keys (load l h') = keys (load l h).

(** Objects other than [l0] are left as they are, and none is allocated. *)
Definition only_at (l0 : loc) (h h' : heap P) : Prop :=
  List.length h' = List.length h
  /\ forall l, l <> l0 -> load l h' = load l h.

(** Objects below [n] are left as they are. *)
Definition frame (n : nat) (h h' : heap P) : Prop :=
  (n <= List.length h)%nat ->
  (List.length h <= List.length h')%nat
  /\ forall l, (l < n)%nat -> load l h' = load l h.

(** The value of every normal return satisfies [Q]. *)
Definition returns {A} (Q : A -> Prop) (m : M P A) : Prop :=
  forall h h' a, m h = (h', Ok a) -> Q a.

(** What the loops of [remove_low_counts] leave of the store. *)
Definition low_counts_step (f : loc) (source : string) (h h1 : heap P) : Prop :=
  List.length h1 = List.length h
  /\ (forall s', s' <> source -> dict_get s' (load f h1) = dict_get s' (load f h)).

End StoreRelations.
Arguments StoreRel {P} R.
Arguments respects {P} R {A} m.
Arguments returns {P A} Q m.
Arguments keys_kept {P} h h'.
Arguments only_at {P} l0 h h'.
Arguments frame {P} n h h'.
Arguments low_counts_step {P} f source h h1.

(** *** Readings of the code used in the later statements *)

(** Some index of [mentioned] reads as the position [z]. *)
Definition mentions (mentioned : list string) (z : Z) : bool :=
  existsb (fun w => match Py.int w with
                    | Some z' => (z' =? z)%Z
                    | None => false
                    end) mentioned.

(** What [remove_punct_values] appends for an observation. *)
Definition blank_punct (word : string) : string :=
  if negb (Py.is_empty word) && Py.contains word Py.punctuation then "" else word.

Definition is_nil {A} (xs : list A) : bool :=
  match xs with [] => true | _ :: _ => false end.

(** A token that is neither punctuation nor the gap marker. *)
Definition is_word (tok : string) : bool :=
  negb (is_punct tok) && negb (String.eqb tok "...").

(** The token that stands for a contraction. *)
Definition contracted (lang w : string) : string :=
  if String.eqb lang "french" then
    if Py.in_list w ["d'"; "du"; "des"] then "de"
    else if Py.in_list w ["aux"; "au"] then "à"
    else w
  else if String.eqb lang "german" then
    if Py.in_list w ["zur"; "zum"] then "zu"
    else if Py.in_list w ["vom"] then "von"
    else w
  else w.

(** A target of at least three tokens that contains the gap marker, but not
    as a token of its own. *)
Definition gap_inside (target : string) : bool :=
  (3 <=? List.length (Py.split target))%nat
  && Py.contains "..." target
  && negb (Py.in_list "..." (Py.split target)).

(** A table as a Python [dict] of [dict]s holds it: no key twice. *)
Definition unique_keys {P} (t : table P) : Prop :=
  NoDup (keys t) /\ forall s d, In (s, d) t -> NoDup (keys d).

(** The tests of the four filters whose effect is a plain selection. *)
Definition below_threshold {P} `{Number P} (word_threshold phrase_threshold : P)
    (cc : string * P) : bool :=
  (n_tokens (fst cc) =? 1)%nat && num_ltb (snd cc) word_threshold
  || (1 <? n_tokens (fst cc))%nat && num_ltb (snd cc) phrase_threshold.

Definition has_pronoun (pronouns : list string) (target : string) : bool :=
  existsb (fun p => Py.in_list p (Py.split target)) pronouns.

Definition low_count (count_dict : count_table) (word_count phrase_count : Z)
    (source target : string) : bool :=
  match dict_get source count_dict with
  | Some c =>
      if (n_tokens target =? 1)%nat
      then (counter_get target c <? word_count)%Z
      else (counter_get target c <? phrase_count)%Z
  | None => false
  end.

Definition single_del_word (del_words : list string) (target : string) : bool :=
  (n_tokens target =? 1)%nat && Py.in_list target del_words.

(** Every key of [acc] is one of [phrases] and has an observation. *)
Definition asked_for (phrases : list string) (acc : candidates) : Prop :=
  forall k obs, dict_get k acc = Some obs -> In k phrases /\ obs <> [].

(** Every entry of [d'] is an entry of [d], or a connective of [lex] that
    carries the value of an entry of [d]. *)
Definition entries_from {P} (lex : list string) (d' d : dict string P) : Prop :=
  forall w p, In (w, p) d' ->
              In (w, p) d \/ (In w lex /\ exists w', In (w', p) d).

(** The same for every source key of a table. *)
Definition table_from {P} (lex : list string) (t' t : table P) : Prop :=
  forall s d', dict_get s t' = Some d' ->
               exists d, dict_get s t = Some d /\ entries_from lex d' d.

Section MoreStoreRelations.
Context {P : Type}.

(** Existing objects only lose or rename entries. *)
Definition shrinks (lex : list string) (h h' : heap P) : Prop :=
  (List.length h <= List.length h')%nat
  /\ forall l, (l < List.length h)%nat -> table_from lex (load l h') (load l h).

(** Every exception a computation raises is one of [S]. *)
Definition raises_in (S : exn -> Prop) {A} (m : M P A) : Prop :=
  forall h h' e, m h = (h', Raise e) -> S e.

End MoreStoreRelations.
Arguments shrinks {P} lex h h'.
Arguments raises_in {P} S {A} m.


(** A target that the first two loops of [filter_unlikely_alignments]
    delete: a phrase whose last token is a deletion word, or a single token
    that is one. *)
Definition unlikely_target (del_words : list string) (target : string) : bool :=
  if (1 <? n_tokens target)%nat
  then match Py.last_opt (Py.split target) with
       | Some w => Py.in_list w del_words
       | None => false
       end
  else (n_tokens target =? 1)%nat && Py.in_list target del_words.

Section TargetsOfOneSource.
Context {P : Type}.

(** The targets of the source [s] in the object [l] are targets it had
    before, and no target has come twice. *)
Definition narrows (l : loc) (s : string) (h h' : heap P) : Prop :=
  forall d', dict_get s (load l h') = Some d' ->
    exists d, dict_get s (load l h) = Some d
              /\ (forall k, In k (keys d') -> In k (keys d))
              /\ (NoDup (keys d) -> NoDup (keys d')).

(** The targets of [s] in [l] are unique. *)
Definition unique_at (l : loc) (s : string) (h : heap P) : Prop :=
  forall d, dict_get s (load l h) = Some d -> NoDup (keys d).

(** [t] is no target of [s] in [l]. *)
Definition absent_at (l : loc) (s t : string) (h : heap P) : Prop :=
  forall d, dict_get s (load l h) = Some d -> ~ In t (keys d).

End TargetsOfOneSource.

Section OneTarget.
Context {P : Type}.

(** Existing objects hold for the target [t] what they held: under every
    source key the same probability, or none as before. *)
Definition keeps_target (t : string) (h h' : heap P) : Prop :=
  (List.length h <= List.length h')%nat
  /\ forall l, (l < List.length h)%nat ->
     forall s d', dict_get s (load l h') = Some d' ->
       exists d, dict_get s (load l h) = Some d /\ dict_get t d' = dict_get t d.

End OneTarget.
(* ================================================================== *)
(** ** Test data *)

(** The one-line parallel corpus of the end-to-end scenario. *)
Definition cependant_corpus : corpus :=
  mkCorpus ["0-0 1-2 2-1 3-3 4-4"]
           ["er macht es trotzdem ."]
           ["il le fait cependant ."].

(** A [FindAlignments] object over a corpus, its two precomputed mappings
    being those of [parse_alignments] (plain dictionaries when read back
    from the JSON files, [defaultdict]s when passed on directly). *)
Definition load_object {P} (dd : bool) (c : corpus)
    (de_lex fr_lex all_de_conns all_fr_conns : list string)
  : outcome (FindAlignments P) :=
  let? maps := parse_alignments c in
  Ok (init (mkCand dd (fst maps)) (mkCand dd (snd maps)) c
           de_lex fr_lex all_de_conns all_fr_conns).

(** [sum(d.values())] over floats: Python starts from 0 and adds from the
    left. *)
Definition float_sum (xs : list float) : float :=
  fold_left PrimFloat.add xs 0%float.

Fixpoint Qc_sum (xs : list Qc) : Qc :=
  match xs with
  | [] => 0%Qc
  | x :: xs' => (x + Qc_sum xs')%Qc
  end.

(** One source key observed once with each of six targets. *)
Definition six_targets : candidates := [("k", ["a"; "b"; "c"; "d"; "e"; "f"])].

(** One German token aligned to the French positions 0, 2 and 4 and, the
    other way round, one French token aligned to the German positions 0, 2
    and 4. *)
Definition spread_corpus_fr : corpus :=
  mkCorpus ["0-0 2-0 4-0"] ["a b c d e"] ["x"].
Definition spread_corpus_de : corpus :=
  mkCorpus ["0-0 0-2 0-4"] ["x"] ["a b c d e"].

(** A corpus in which the connective "cependant" has no aligned token. *)
Definition unaligned_corpus : corpus :=
  mkCorpus ["0-0"] ["er"] ["il cependant"].

(** The object of the scenario read back from the JSON files, its French
    lexicon holding the seed. *)
Definition cependant_object : FindAlignments float :=
  init (mkCand false [("trotzdem", ["cependant"])])
       (mkCand false [("cependant", ["trotzdem"])])
       cependant_corpus [] ["cependant"] [] [].

(* ================================================================== *)
(** * Properties *)

#[local] Arguments Py.contains : simpl never.
#[local] Arguments Py.split : simpl never.

(** ** Sanity checks of the primitives *)

Example split_ex :
  Py.split "il le  fait cependant ." = ["il"; "le"; "fait"; "cependant"; "."].
Proof. reflexivity. Qed.

Example split_sep_ex :
  Py.split_sep " ... " "wenn ... auch" = ["wenn"; "auch"]
  /\ Py.split_sep "-" "3-12" = ["3"; "12"]
  /\ Py.split_sep "-" "7" = ["7"].
Proof. repeat split; reflexivity. Qed.

Example int_ex :
  Py.int "12" = Some 12 /\ Py.int "1_0" = Some 10 /\ Py.int "" = None
  /\ Py.int "a" = None /\ Py.int "+4" = Some 4.
Proof. repeat split; reflexivity. Qed.

Example replace_ex : Py.replace ", ..." "..." "a , ... b" = "a ... b".
Proof. reflexivity. Qed.

Example punct_ex :
  Py.contains "," Py.punctuation = true
  /\ Py.contains "..." Py.punctuation = false
  /\ String.length Py.punctuation = 32%nat.
Proof. repeat split; reflexivity. Qed.

Example Counter_ex :
  Counter ["a"; "b"; "a"; ""; "a"] = [("a", 3); ("b", 1); ("", 1)].
Proof. reflexivity. Qed.

Example remove_punct_values_ex :
  remove_punct_values [("k", [","; "weil"; ""; ", weil"]); ("e", [])]
  = [("k", [""; "weil"; ""; ", weil"])].
Proof. reflexivity. Qed.

Example alignment_probabilities_float_ex :
  alignment_probabilities (P := PrimFloat.float) [("k", ["a"; "b"; "a"; "a"])]
  = [("k", [("a", 0.75%float); ("b", 0.25%float)])].
Proof. vm_compute. reflexivity. Qed.

Example remove_punct_phrases_ex :
  remove_punct_phrases [","; "weil"] = ["weil"]
  /\ remove_punct_phrases [","; "..."; "weil"; "er"] = ["weil"; "er"]
  /\ remove_punct_phrases ["."] = ["."]
  /\ remove_punct_phrases ["a"; "..."; "b"] = ["a"; "..."; "b"].
Proof. repeat split; reflexivity. Qed.

Example remove_contractions_ex :
  remove_contractions ["à"; "cause"; "des"] "french" = Ok "à cause de"
  /\ remove_contractions ["bis"; "zum"] "german" = Ok "bis zu".
Proof. split; reflexivity. Qed.

(** ** Dictionaries *)

Lemma list_eqb_eq {A} (eqb : A -> A -> bool)
  (E : forall a b, eqb a b = true <-> a = b) :
  forall xs ys, list_eqb eqb xs ys = true <-> xs = ys.
Proof.
  induction xs as [|x xs IH]; destruct ys as [|y ys]; simpl;
    try (split; [discriminate | discriminate]); try tauto.
  rewrite andb_true_iff, E, IH. split.
  - intros [-> ->]; reflexivity.
  - intros Q; inversion Q; auto.
Qed.

#[export] Instance string_key_ok : KeyOk string := String.eqb_eq.

#[export] Instance tuple_key_ok : KeyOk (list string) :=
  list_eqb_eq String.eqb String.eqb_eq.

Section DictFacts.
Context {K : Type} `{KeyOk K} {V : Type}.
Implicit Types (d : dict K V) (k : K) (v : V).

Lemma keqb_refl k : keqb k k = true.
Proof. apply keqb_eq; reflexivity. Qed.

Lemma keqb_neq (a b : K) : a <> b -> keqb a b = false.
Proof.
  intros N. destruct (keqb a b) eqn:E; [|reflexivity].
  apply keqb_eq in E. contradiction.
Qed.

Lemma keqb_false (a b : K) : keqb a b = false -> a <> b.
Proof. intros E ->. rewrite keqb_refl in E. discriminate. Qed.

Lemma dict_get_set_same k v d : dict_get k (dict_set k v d) = Some v.
Proof.
    induction d as [|[k' v'] d IH]; simpl.
    - rewrite keqb_refl; reflexivity.
    - destruct (keqb k k') eqn:E; simpl; rewrite E; auto.
Qed.

Lemma dict_get_set_other k k' v d :
    k <> k' -> dict_get k (dict_set k' v d) = dict_get k d.
Proof.
    intros N. induction d as [|[k0 v0] d IH]; simpl.
    - rewrite (keqb_neq _ _ N); reflexivity.
    - destruct (keqb k' k0) eqn:E; simpl.
      + apply keqb_eq in E; subst k0. rewrite (keqb_neq _ _ N); reflexivity.
      + destruct (keqb k k0); auto.
Qed.

Lemma dict_mem_In k d : dict_mem k d = true <-> In k (keys d).
Proof.
    unfold dict_mem. induction d as [|[k' v'] d IH]; simpl.
    - split; [discriminate | tauto].
    - destruct (keqb k k') eqn:E.
      + apply keqb_eq in E; subst. tauto.
      + rewrite IH. split; [tauto|]. intros [E'|I]; auto.
        subst. rewrite keqb_refl in E. discriminate.
Qed.

Lemma dict_get_None k d : dict_get k d = None <-> ~ In k (keys d).
Proof.
    rewrite <- dict_mem_In. unfold dict_mem.
    destruct (dict_get k d); split; intros; congruence.
Qed.

Lemma keys_dict_set_mem k v d :
    dict_mem k d = true -> keys (dict_set k v d) = keys d.
Proof.
    unfold dict_mem. induction d as [|[k' v'] d IH]; simpl; [discriminate|].
    destruct (keqb k k') eqn:E; simpl; [reflexivity|].
    intros M. rewrite IH; auto.
Qed.

Lemma keys_dict_set_new k v d :
    dict_mem k d = false -> keys (dict_set k v d) = keys d ++ [k].
Proof.
    unfold dict_mem. induction d as [|[k' v'] d IH]; simpl; [reflexivity|].
    destruct (keqb k k') eqn:E; simpl; [discriminate|].
    intros M. rewrite IH; auto.
Qed.

Lemma In_keys_dict_set k k' v d :
    In k (keys (dict_set k' v d)) <-> k = k' \/ In k (keys d).
Proof.
    destruct (dict_mem k' d) eqn:M.
    - rewrite keys_dict_set_mem by assumption.
      apply dict_mem_In in M. split; [tauto|]. intros [->|I]; auto.
    - rewrite keys_dict_set_new by assumption.
      rewrite in_app_iff. simpl. intuition congruence.
Qed.

Lemma dict_get_remove_other k k' d :
    k <> k' -> dict_get k (dict_remove k' d) = dict_get k d.
Proof.
    intros N. induction d as [|[k0 v0] d IH]; simpl; [reflexivity|].
    destruct (keqb k' k0) eqn:E; simpl.
    - apply keqb_eq in E; subst k0. rewrite (keqb_neq _ _ N); reflexivity.
    - destruct (keqb k k0); auto.
Qed.

Lemma In_keys_remove k k' d :
    In k (keys (dict_remove k' d)) -> In k (keys d).
Proof.
    induction d as [|[k0 v0] d IH]; simpl; [tauto|].
    destruct (keqb k' k0); simpl; intuition.
Qed.

Lemma dict_get_remove_same k d :
    NoDup (keys d) -> dict_get k (dict_remove k d) = None.
Proof.
    induction d as [|[k0 v0] d IH]; simpl; [reflexivity|].
    intros ND. inversion ND as [|? ? NI ND']; subst.
    destruct (keqb k k0) eqn:E; simpl.
    - apply keqb_eq in E; subst. apply dict_get_None; assumption.
    - rewrite E. auto.
Qed.

Lemma NoDup_keys_remove k d :
    NoDup (keys d) -> NoDup (keys (dict_remove k d)).
Proof.
    induction d as [|[k0 v0] d IH]; simpl; [auto|].
    intros ND. inversion ND as [|? ? NI ND']; subst.
    destruct (keqb k k0); simpl; [assumption|].
    constructor; auto. intros I. apply NI. eapply In_keys_remove; eauto.
Qed.

Lemma NoDup_keys_set k v d :
    NoDup (keys d) -> NoDup (keys (dict_set k v d)).
Proof.
    intros ND. destruct (dict_mem k d) eqn:M.
    - rewrite keys_dict_set_mem; assumption.
    - rewrite keys_dict_set_new by assumption.
      apply NoDup_app; [assumption | repeat constructor; simpl; tauto |].
      intros x Ix [<-|[]]. apply dict_mem_In in Ix. congruence.
Qed.

Lemma dict_get_update k d e :
    dict_get k (dict_update d e) =
    match dict_get k (rev e) with Some v => Some v | None => dict_get k d end.
Proof.
    unfold dict_update. revert d.
    induction e as [|[k' v'] e IH] using rev_ind; intros d; [reflexivity|].
    rewrite fold_left_app, rev_app_distr. simpl.
    destruct (keqb k k') eqn:E.
    - apply keqb_eq in E; subst. apply dict_get_set_same.
    - rewrite dict_get_set_other by (apply keqb_false; assumption). apply IH.
Qed.

Lemma dict_get_In k v d : dict_get k d = Some v -> In (k, v) d.
Proof.
    induction d as [|[k' v'] d IH]; simpl; [discriminate|].
    destruct (keqb k k') eqn:E.
    - apply keqb_eq in E; subst. intros [= ->]; auto.
    - auto.
Qed.

Lemma In_dict_get k v d : NoDup (keys d) -> In (k, v) d -> dict_get k d = Some v.
Proof.
    induction d as [|[k' v'] d IH]; simpl; [tauto|].
    intros ND. inversion ND as [|? ? NI ND']; subst.
    intros [[= -> ->]|I].
    - rewrite keqb_refl; reflexivity.
    - destruct (keqb k k') eqn:E; auto.
      apply keqb_eq in E; subst. exfalso; apply NI.
      change k' with (fst (k', v)). apply in_map; assumption.
Qed.

End DictFacts.

(* ================================================================== *)
(** ** The end-to-end scenario *)

(** C4. On the one-line corpus "il le fait cependant ." / "er macht es
    trotzdem ." with the alignment line "0-0 1-2 2-1 3-3 4-4", the seed
    lexicon ["cependant"], thresholds 0.0 and minimum counts 0, one round in
    the French direction returns and leaves the probability table
    {"cependant": {"trotzdem": 1.0}} as the French result, whatever the other
    lexicons are and whether the seed is the French lexicon of the object or
    the [lex] argument. Probabilities are binary64 floats. *)
Theorem end_to_end_cependant :
  forall (T : Text) (dd : bool) (de_lex all_de_conns all_fr_conns fr_lex : list string),
    (exists self : FindAlignments float,
        load_object dd cependant_corpus de_lex ["cependant"]
                    all_de_conns all_fr_conns = Ok self
        /\ let r := find_conns 1 self [] "french" 0%float 0%float 0 0 1 in
           snd r = Returned
           /\ map r_result (snd (fst r)) = [[("cependant", [("trotzdem", 1%float)])]]
           /\ fr_conn_alignments (fst (fst r))
              = [("cependant", [("trotzdem", 1%float)])])
    /\ (exists self : FindAlignments float,
        load_object dd cependant_corpus de_lex fr_lex
                    all_de_conns all_fr_conns = Ok self
        /\ let r := find_conns 1 self ["cependant"] "french" 0%float 0%float 0 0 1 in
           snd r = Returned
           /\ map r_result (snd (fst r)) = [[("cependant", [("trotzdem", 1%float)])]]
           /\ fr_conn_alignments (fst (fst r))
              = [("cependant", [("trotzdem", 1%float)])]).
Proof.
  intros T dd de_lex all_de all_fr fr_lex. split.
  - eexists. split; [vm_compute; reflexivity|].
    destruct dd; vm_compute; repeat split; reflexivity.
  - eexists. split; [vm_compute; reflexivity|].
    destruct dd; vm_compute; repeat split; reflexivity.
Qed.


(* ================================================================== *)
(** ** Evaluations on concrete inputs *)

(** [str.isalpha] of these runs; none of them reaches a call of it that
    depends on a character outside the first 128. *)
#[local] Existing Instance ascii_text | 100.

(** Six targets seen once each: every probability is the double nearest to
    1/6, and their sum, added from the left as [sum] does, is the double
    just below 1. *)
Lemma six_sixths_float_below_one :
  exists d : dict string float,
    dict_get "k" (alignment_probabilities six_targets) = Some d
    /\ List.length d = 6%nat
    /\ float_sum (values d) = 0x1.fffffffffffffp-1%float
    /\ PrimFloat.eqb (float_sum (values d)) 1%float = false.
Proof. eexists. repeat split; vm_compute; reflexivity. Qed.

(** A key whose only target falls below the threshold stays in the table
    returned by the threshold filter, with an empty mapping; the same holds
    at the end of the whole chain. *)
Lemma emptied_key_is_kept :
    (let r := filter_most_common_conns 0%nat 0.5%float 0.5%float
                [[("k", [("a", 0.25%float)])]] in
     snd r = Ok 1%nat /\ load 1%nat (fst r) = [("k", [])])
    /\ run_chain "french" "german" 0.5%float 0.5%float 0 0
                 [("k", [("a", 1)])] [] [("k", [("a", 0.25%float)])]
       = Ok [("k", [])].
Proof. vm_compute. repeat split; reflexivity. Qed.

(** Three rounds on the scenario corpus, started in French: the key
    "cependant" is counted once in round 1 and once again in round 3 (the
    seed of round 3 is empty, so the round falls back to the French
    lexicon), and the persistent French count table holds 1 for it after
    round 3, not 2. *)
Lemma three_rounds_cependant :
  exists (self s3 : FindAlignments float) (i1 i2 i3 : round_info float),
    load_object false cependant_corpus [] ["cependant"] [] [] = Ok self
    /\ find_conns 3 self [] "french" 0%float 0%float 0 0 3
       = (s3, [i1; i2; i3], Returned)
    /\ map r_lang [i1; i2; i3] = ["french"; "german"; "french"]
    /\ r_single_count i1 = [("cependant", [("trotzdem", 1)])]
    /\ r_new_conns i2 = []
    /\ r_seed i3 = []
    /\ r_lex i3 = ["cependant"]
    /\ r_single_count i3 = [("cependant", [("trotzdem", 1)])]
    /\ fr_count s3 = [("cependant", [("trotzdem", 1)])].
Proof.
  do 5 eexists. split; [vm_compute; reflexivity|].
  split; [vm_compute; reflexivity|]. repeat split; reflexivity.
Qed.

(** The counts of the French table before and after the third round. *)
Lemma third_round_replaces_counts :
  exists (self s2 s3 : FindAlignments float) (log : list (round_info float))
         (i3 : round_info float),
    load_object false cependant_corpus [] ["cependant"] [] [] = Ok self
    /\ find_conns 2 self [] "french" 0%float 0%float 0 0 2 = (s2, log, Returned)
    /\ find_conns_round s2 [] "french" 0%float 0%float 0 0 = (s3, Ok i3)
    /\ count_lookup (fr_count s2) "cependant" "trotzdem" = Ok 1
    /\ count_lookup (r_single_count i3) "cependant" "trotzdem" = Ok 1
    /\ count_lookup (fr_count s3) "cependant" "trotzdem" = Ok 1
    /\ count_lookup (fr_count s3) "cependant" "trotzdem" <> Ok (1 + 1).
Proof.
  do 5 eexists. split; [vm_compute; reflexivity|].
  split; [vm_compute; reflexivity|].
  split; [vm_compute; reflexivity|].
  repeat split; try reflexivity. discriminate.
Qed.

(** A connective that is never aligned is a key of the probability table of
    its round, with the empty string as its only target, and of the result
    of the run. *)
Lemma unaligned_key_is_present :
  exists (self s1 : FindAlignments float) (i1 : round_info float),
    load_object false unaligned_corpus [] ["cependant"] [] [] = Ok self
    /\ dict_get "cependant" (entries (fr_de self)) = Some [""]
    /\ find_conns 1 self [] "french" 0%float 0%float 0 0 1 = (s1, [i1], Returned)
    /\ alignment_probabilities (remove_punct_values [("cependant", [""])])
       = [("cependant", [("", 1%float)])]
    /\ r_probabilities i1 = [("cependant", [("", 1%float)])]
    /\ dict_mem "cependant" (fr_conn_alignments s1) = true.
Proof.
  do 3 eexists. split; [vm_compute; reflexivity|].
  split; [reflexivity|]. split; [vm_compute; reflexivity|].
  repeat split; vm_compute; reflexivity.
Qed.

(** The two filters that work on their argument: the object passed in is
    the object returned, and it has lost an entry. *)
Lemma in_place_filters_change_their_input :
  (let r := filter_unlikely_alignments 0%nat "french" [[("k", [("es", 1%float)])]] in
   snd r = Ok 0%nat /\ load 0%nat (fst r) = [("k", [])])
  /\ (let r := filter_single_words 0%nat "french" [[("k", [("dass", 1%float)])]] in
      snd r = Ok 0%nat /\ load 0%nat (fst r) = [("k", [])]).
Proof. vm_compute. repeat split; reflexivity. Qed.

(** [remove_low_counts] on a source key that the count table lacks. *)
Lemma remove_low_counts_missing_source :
  snd (remove_low_counts 0%nat [] 0 0 [[("k", [("a", 1%float)])]])
  = Raise KeyError.
Proof. reflexivity. Qed.

(** C5. The loop of [parse_alignments] takes the bound of [range] before it
    inserts: with positions 0, 2 and 4 the first insertion moves the pair
    (2, 4) out of reach, and the observation is "a ... c e", in both
    directions. The [while] loop of the corpus scans marks both pairs. *)
Theorem gap_marking_misses_pair :
  parse_alignments spread_corpus_fr
  = Ok ([("b", [""]); ("d", [""]); ("a c e", ["x"])], [("x", ["a ... c e"])])
  /\ parse_alignments spread_corpus_de
     = Ok ([("x", ["a ... c e"])], [("b", [""]); ("d", [""]); ("a c e", ["x"])])
  /\ mark_gaps_fr ["a"; "b"; "c"; "d"; "e"] ["0"; "2"; "4"]
     = Ok ["0"; "..."; "2"; "4"]
  /\ mark_gaps_de ["0"; "2"; "4"] = Ok ["0"; "..."; "2"; "4"]
  /\ gap_while 2 ["a"; "b"; "c"; "d"; "e"] [Pos 0; Pos 2; Pos 4]
     = Ok [Pos 0; Tok "..."; Pos 2; Tok "..."; Pos 4].
Proof. repeat split; reflexivity. Qed.

(* ================================================================== *)
(** ** The probability estimator *)

Section FoldFacts.
Context {K : Type} `{KeyOk K} {V : Type}.

Lemma dict_set_fresh (k : K) (v : V) (d : dict K V) :
  ~ In k (keys d) -> dict_set k v d = d ++ [(k, v)].
Proof.
  induction d as [|[k' v'] d IH]; simpl; intros N; [reflexivity|].
  rewrite keqb_neq by (intros ->; apply N; auto).
  rewrite IH; [reflexivity | intros I; apply N; auto].
Qed.

(** Setting pairwise distinct fresh keys one after the other appends them. *)
Lemma fold_set_fresh {A} (kf : A -> K) (vf : A -> V) (xs : list A) :
  forall acc : dict K V,
    NoDup (keys acc ++ map kf xs) ->
    fold_left (fun acc x => dict_set (kf x) (vf x) acc) xs acc
    = acc ++ map (fun x => (kf x, vf x)) xs.
Proof.
  induction xs as [|x xs IH]; intros acc ND; simpl.
  - rewrite app_nil_r; reflexivity.
  - simpl in ND. pose proof (NoDup_remove_2 _ _ _ ND) as NI.
    rewrite dict_set_fresh by (intros I; apply NI, in_or_app; auto).
    rewrite IH.
    + rewrite <- app_assoc; reflexivity.
    + unfold keys. rewrite map_app. simpl. rewrite <- app_assoc. exact ND.
Qed.

Lemma dict_get_map_values {W} (f : V -> W) (k : K) (d : dict K V) :
  dict_get k (map (fun kv => (fst kv, f (snd kv))) d)
  = option_map f (dict_get k d).
Proof.
  induction d as [|[k' v'] d IH]; simpl; [reflexivity|].
  destruct (keqb k k'); auto.
Qed.

End FoldFacts.

Lemma sum_Z_shift (xs : list Z) (a : Z) : fold_left Z.add xs a = a + sum_Z xs.
Proof.
  unfold sum_Z. revert a. induction xs as [|x xs IH]; intros a; simpl; [lia|].
  rewrite IH, (IH x). lia.
Qed.

Lemma sum_Z_cons (x : Z) (xs : list Z) : sum_Z (x :: xs) = x + sum_Z xs.
Proof. unfold sum_Z at 1. simpl. apply sum_Z_shift. Qed.

(** One more observation of [w] raises the total of the Counter by one. *)
Lemma sum_Z_count_step (w : string) (c : tally) :
  sum_Z (values (dict_set w (counter_get w c + 1) c)) = sum_Z (values c) + 1.
Proof.
  unfold counter_get. induction c as [|[w' n] c IH]; simpl; [reflexivity|].
  destruct (String.eqb w w') eqn:E; simpl.
  - rewrite !sum_Z_cons. lia.
  - rewrite !sum_Z_cons. simpl in IH. rewrite IH. lia.
Qed.

Lemma Counter_from_total (xs : list string) :
  forall c : tally,
    sum_Z (values (fold_left (fun c w => dict_set w (counter_get w c + 1) c) xs c))
    = sum_Z (values c) + Z.of_nat (List.length xs).
Proof.
  induction xs as [|x xs IH]; intros c; simpl fold_left; simpl List.length.
  - lia.
  - rewrite IH, sum_Z_count_step. lia.
Qed.

(** The counts of a Counter add up to the number of observations. *)
Lemma Counter_total (xs : list string) :
  sum_Z (values (Counter xs)) = Z.of_nat (List.length xs).
Proof. unfold Counter. rewrite Counter_from_total. reflexivity. Qed.

Lemma Counter_from_NoDup (xs : list string) :
  forall c : tally,
    NoDup (keys c) ->
    NoDup (keys (fold_left (fun c w => dict_set w (counter_get w c + 1) c) xs c)).
Proof.
  induction xs as [|x xs IH]; intros c ND; simpl; [assumption|].
  apply IH, NoDup_keys_set, ND.
Qed.

Lemma Counter_NoDup (xs : list string) : NoDup (keys (Counter xs)).
Proof. apply Counter_from_NoDup. constructor. Qed.

Section EstimatorFacts.
Context {P : Type} `{Number P}.

Lemma count_keys_NoDup (a : candidates) (ks : list string) :
  forall acc, NoDup (keys acc) -> NoDup (keys (count_keys a ks acc)).
Proof.
  induction ks as [|key ks IH]; intros acc ND; simpl; [assumption|].
  apply IH. destruct (dict_index key a); [apply NoDup_keys_set|]; assumption.
Qed.

Lemma count_keys_other (a : candidates) (k : string) (ks : list string) :
  forall acc, ~ In k ks -> dict_get k (count_keys a ks acc) = dict_get k acc.
Proof.
  induction ks as [|key ks IH]; intros acc N; simpl; [reflexivity|].
  rewrite IH by (intros I; apply N; right; assumption).
  destruct (dict_index key a); [|reflexivity].
  apply dict_get_set_other. intros ->. apply N. left; reflexivity.
Qed.

Lemma count_keys_get (a : candidates) (k : string) (ks : list string) :
  forall acc, In k ks ->
    dict_get k (count_keys a ks acc)
    = match dict_get k a with
      | Some obs => Some (Counter obs)
      | None => dict_get k acc
      end.
Proof.
  induction ks as [|key ks IH]; intros acc I; simpl; [destruct I|].
  destruct (in_dec string_dec k ks) as [I'|N].
  - rewrite IH by assumption. destruct (dict_get k a) eqn:G; [reflexivity|].
    unfold dict_index. destruct (dict_get key a) eqn:G'; [|reflexivity].
    apply dict_get_set_other. intros ->. congruence.
  - destruct I as [->|I]; [|contradiction].
    rewrite count_keys_other by assumption.
    unfold dict_index. destruct (dict_get k a); [|reflexivity].
    apply dict_get_set_same.
Qed.

(** What [alignment_probabilities] holds for a key. *)
Lemma alignment_probabilities_get (a : candidates) (k : string) :
  dict_get k (alignment_probabilities a)
  = option_map (fun obs => expected (Counter obs)) (dict_get k a).
Proof.
  unfold alignment_probabilities.
  rewrite (fold_set_fresh fst (fun kv => expected (snd kv)))
    by (apply count_keys_NoDup; constructor).
  simpl. rewrite (dict_get_map_values expected).
  destruct (dict_get k a) as [obs|] eqn:G.
  - rewrite count_keys_get, G; [reflexivity|].
    apply dict_mem_In. unfold dict_mem. rewrite G. reflexivity.
  - rewrite count_keys_other; [reflexivity|]. apply dict_get_None, G.
Qed.

(** On a Counter the inner loop is a map over its items. *)
Lemma expected_map (v : tally) :
  NoDup (keys v) ->
  expected v = map (fun wc => (fst wc, div_count (snd wc) (sum_Z (values v)))) v.
Proof. intros ND. unfold expected. rewrite (fold_set_fresh fst); auto. Qed.

End EstimatorFacts.

(** *** Exact rationals *)

Lemma Qc_of_Z_add (a b : Z) : Qc_of_Z (a + b) = (Qc_of_Z a + Qc_of_Z b)%Qc.
Proof.
  unfold Qc_of_Z, Qcplus. apply Q2Qc_eq_iff.
  cbn [Q2Qc this]. rewrite !(Qred_correct (inject_Z _)).
  rewrite inject_Z_plus. reflexivity.
Qed.

Lemma Qc_of_Z_nonzero (z : Z) : z <> 0 -> Qc_of_Z z <> 0%Qc.
Proof.
  intros N E. apply N. unfold Qc_of_Z in E.
  change 0%Qc with (Q2Qc 0) in E. apply Q2Qc_eq_iff in E.
  unfold Qeq, inject_Z in E. simpl in E. lia.
Qed.

Lemma Qc_sum_div (cs : list Z) (t : Qc) :
  Qc_sum (map (fun c => Qc_of_Z c / t)%Qc cs) = (Qc_of_Z (sum_Z cs) / t)%Qc.
Proof.
  induction cs as [|c cs IH]; simpl.
  - unfold sum_Z. simpl. unfold Qcdiv. change (Qc_of_Z 0) with 0%Qc. ring.
  - rewrite IH, sum_Z_cons, Qc_of_Z_add. unfold Qcdiv. ring.
Qed.

(** C1 (amended). For every candidate mapping and every source key with at
    least one observation, [alignment_probabilities] maps the key to the
    dictionary that gives each observed target its count divided by the
    number of observations of the key; taken as exact rationals, these
    probabilities sum to 1. *)
Theorem probabilities_sum_to_one (a : candidates) (k : string) (obs : list string) :
  dict_get k a = Some obs ->
  obs <> [] ->
  exists d : dict string Qc,
    dict_get k (alignment_probabilities a) = Some d
    /\ (forall w : string,
           dict_get w d
           = option_map (fun c => div_count c (Z.of_nat (List.length obs)))
                        (dict_get w (Counter obs)))
    /\ Qc_sum (values d) = 1%Qc.
Proof.
  intros G NE. exists (expected (Counter obs)). split; [|split].
  - rewrite alignment_probabilities_get, G. reflexivity.
  - intros w. rewrite expected_map by apply Counter_NoDup.
    rewrite Counter_total.
    apply (dict_get_map_values
             (fun c => div_count c (Z.of_nat (List.length obs)))).
  - rewrite expected_map by apply Counter_NoDup.
    rewrite Counter_total. unfold values at 1. rewrite map_map. simpl.
    change (fun x : string * Z =>
              (Qc_of_Z (snd x) / Qc_of_Z (Z.of_nat (List.length obs)))%Qc)
      with (fun x : string * Z =>
              (fun c => (Qc_of_Z c / Qc_of_Z (Z.of_nat (List.length obs)))%Qc) (snd x)).
    rewrite <- (map_map snd). rewrite Qc_sum_div.
    fold (values (Counter obs)). rewrite Counter_total.
    unfold Qcdiv. apply Qcmult_inv_r, Qc_of_Z_nonzero.
    destruct obs; [contradiction | simpl; lia].
Qed.

(** The theorem at a key seen three times with two targets. *)
Lemma probabilities_sum_to_one_witness :
  exists d : dict string Qc,
    dict_get "k" (alignment_probabilities [("k", ["a"; "b"; "a"])]) = Some d
    /\ (forall w : string,
           dict_get w d
           = option_map (fun c => div_count c (Z.of_nat (List.length ["a"; "b"; "a"])))
                        (dict_get w (Counter ["a"; "b"; "a"])))
    /\ Qc_sum (values d) = 1%Qc.
Proof.
  apply (probabilities_sum_to_one [("k", ["a"; "b"; "a"])] "k" ["a"; "b"; "a"]).
  - reflexivity.
  - discriminate.
Defined.

(* ================================================================== *)
(** ** Unaligned keys *)

Lemma dd_append_get_same (k x : string) (d : candidates) :
  dict_get k (dd_append k x d)
  = Some (match dict_get k d with Some xs => xs ++ [x] | None => [x] end).
Proof. unfold dd_append. destruct (dict_get k d); apply dict_get_set_same. Qed.

Lemma dd_append_get_other (k k' x : string) (d : candidates) :
  k <> k' -> dict_get k (dd_append k' x d) = dict_get k d.
Proof.
  intros N. unfold dd_append.
  destruct (dict_get k' d); apply dict_get_set_other, N.
Qed.

(** The inner loop of [remove_punct_values] for one source. *)
Lemma remove_punct_inner_other (k source : string) (target : list string) :
  k <> source ->
  forall np : candidates,
    dict_get k
      (fold_left (fun np word =>
                    if negb (Py.is_empty word) && Py.contains word Py.punctuation
                    then dd_append source "" np
                    else dd_append source word np) target np)
    = dict_get k np.
Proof.
  intros N. induction target as [|w target IH]; intros np; simpl; [reflexivity|].
  rewrite IH. destruct (negb (Py.is_empty w) && Py.contains w Py.punctuation);
    apply dd_append_get_other, N.
Qed.

Lemma remove_punct_inner_blank (k : string) (target : list string) :
  Forall (fun w => w = "" \/ is_punct w = true) target ->
  forall (np : candidates) (seen : list string),
    dict_get k np = Some seen ->
    dict_get k
      (fold_left (fun np word =>
                    if negb (Py.is_empty word) && Py.contains word Py.punctuation
                    then dd_append k "" np
                    else dd_append k word np) target np)
    = Some (seen ++ repeat "" (List.length target)).
Proof.
  induction 1 as [|w target Hw _ IH]; intros np seen G; simpl.
  - rewrite app_nil_r. exact G.
  - assert (E : (if negb (Py.is_empty w) && Py.contains w Py.punctuation
                 then dd_append k "" np else dd_append k w np)
                = dd_append k "" np).
    { destruct Hw as [->|Hp]; [reflexivity|].
      unfold is_punct in Hp. rewrite Hp.
      destruct w; [reflexivity|]. reflexivity. }
    rewrite E. rewrite (IH _ (seen ++ [""])).
    + rewrite <- app_assoc. reflexivity.
    + rewrite dd_append_get_same, G. reflexivity.
Qed.

Lemma remove_punct_inner_first (k : string) (w : string) (target : list string) :
  Forall (fun w => w = "" \/ is_punct w = true) (w :: target) ->
  forall np : candidates,
    dict_get k np = None ->
    dict_get k
      (fold_left (fun np word =>
                    if negb (Py.is_empty word) && Py.contains word Py.punctuation
                    then dd_append k "" np
                    else dd_append k word np) (w :: target) np)
    = Some (repeat "" (S (List.length target))).
Proof.
  intros F np G. inversion F as [|? ? Hw Ft]; subst. simpl fold_left.
  assert (E : (if negb (Py.is_empty w) && Py.contains w Py.punctuation
               then dd_append k "" np else dd_append k w np)
              = dd_append k "" np).
  { destruct Hw as [->|Hp]; [reflexivity|].
    unfold is_punct in Hp. rewrite Hp. destruct w; reflexivity. }
  rewrite E. rewrite (remove_punct_inner_blank k target Ft _ [""]).
  - reflexivity.
  - rewrite dd_append_get_same, G. reflexivity.
Qed.

Lemma remove_punct_outer_other (k : string) (a : candidates) :
  ~ In k (keys a) ->
  forall np : candidates,
    dict_get k
      (fold_left (fun no_punct st =>
                    let '(source, target) := st in
                    fold_left (fun np word =>
                                 if negb (Py.is_empty word)
                                    && Py.contains word Py.punctuation
                                 then dd_append source "" np
                                 else dd_append source word np)
                              target no_punct) a np)
    = dict_get k np.
Proof.
  induction a as [|[s t] a IH]; intros N np; simpl; [reflexivity|].
  rewrite IH by (intros I; apply N; right; exact I).
  apply remove_punct_inner_other. intros ->. apply N. left; reflexivity.
Qed.

(** A key all of whose observations are blank or punctuation keeps as many
    observations, all of them the empty string. *)
(** A key all of whose observations are blank or punctuation keeps as many
    observations, all of them the empty string. *)
Lemma remove_punct_values_blank (a : candidates) (k : string) (obs : list string) :
  NoDup (keys a) ->
  dict_get k a = Some obs ->
  obs <> [] ->
  Forall (fun w => w = "" \/ is_punct w = true) obs ->
  dict_get k (remove_punct_values a) = Some (repeat "" (List.length obs)).
Proof.
  intros ND G NE F. unfold remove_punct_values.
  assert (Gen : forall np0 : candidates, dict_get k np0 = None ->
    dict_get k
      (fold_left (fun no_punct st =>
                    let '(source, target) := st in
                    fold_left (fun np word =>
                                 if negb (Py.is_empty word)
                                    && Py.contains word Py.punctuation
                                 then dd_append source "" np
                                 else dd_append source word np)
                              target no_punct) a np0)
    = Some (repeat "" (List.length obs))); [|apply Gen; reflexivity].
  revert G ND. induction a as [|[s t] a IH]; intros G ND np0 G0; [discriminate|].
  inversion ND as [|? ? NI ND']; subst.
  cbn [dict_get] in G. cbn [fold_left].
  destruct (keqb k s) eqn:E.
  - apply String.eqb_eq in E; subst s. injection G as ->.
    rewrite remove_punct_outer_other by exact NI.
    destruct obs as [|w obs]; [contradiction|].
    apply remove_punct_inner_first; assumption.
  - apply IH; try assumption.
    rewrite remove_punct_inner_other; [exact G0|].
    intros ->. rewrite keqb_refl in E. discriminate.
Qed.

Lemma Counter_step_same (w : string) (m : Z) :
  dict_set w (counter_get w [(w, m)] + 1) [(w, m)] = [(w, m + 1)].
Proof.
  unfold counter_get. cbn [dict_get dict_set].
  change (keqb w w) with (String.eqb w w). rewrite String.eqb_refl. reflexivity.
Qed.

Lemma Counter_from_repeat (w : string) (j : nat) :
  forall m : Z,
    fold_left (fun c x => dict_set x (counter_get x c + 1) c) (repeat w j) [(w, m)]
    = [(w, m + Z.of_nat j)].
Proof.
  induction j as [|j IH]; intros m; cbn [repeat fold_left].
  - replace (m + Z.of_nat 0) with m by lia. reflexivity.
  - rewrite Counter_step_same, IH.
    replace (m + 1 + Z.of_nat j) with (m + Z.of_nat (S j)) by lia.
    reflexivity.
Qed.

Lemma Counter_repeat (w : string) (n : nat) :
  Counter (repeat w (S n)) = [(w, Z.of_nat (S n))].
Proof.
  unfold Counter. cbn [repeat fold_left].
  change (dict_set w (counter_get w [] + 1) []) with [(w, 1)].
  rewrite Counter_from_repeat.
  replace (1 + Z.of_nat n) with (Z.of_nat (S n)) by lia. reflexivity.
Qed.

Section Unaligned.
Context {P : Type} `{Number P}.

(** C6 (amended). A source key with at least one observation, all of them
    the empty string (or punctuation, which [remove_punct_values] turns into
    the empty string), is a key of the probability table after the
    estimation step: it maps to the empty string alone, with the
    probability n / n for its n observations, which is 1 in exact
    arithmetic. *)
Theorem unaligned_key_is_certain (a : candidates) (k : string) (obs : list string) :
  NoDup (keys a) ->
  dict_get k a = Some obs ->
  obs <> [] ->
  Forall (fun w => w = "" \/ is_punct w = true) obs ->
  dict_get k (alignment_probabilities (remove_punct_values a))
  = Some [("", div_count (Z.of_nat (List.length obs)) (Z.of_nat (List.length obs)))]
  /\ dict_get k (alignment_probabilities (P := Qc) (remove_punct_values a))
     = Some [("", 1%Qc)].
Proof.
  intros ND G NE F.
  pose proof (remove_punct_values_blank a k obs ND G NE F) as R.
  destruct obs as [|w obs]; [contradiction|]. cbn [List.length] in *.
  rewrite !alignment_probabilities_get, R. cbn [option_map].
  rewrite Counter_repeat. unfold expected. cbn [fold_left fst snd dict_set values map].
  unfold sum_Z. cbn [fold_left]. rewrite Z.add_0_l. split; [reflexivity|].
  do 3 f_equal. cbn [div_count Qc_number]. unfold Qcdiv.
  apply Qcmult_inv_r, Qc_of_Z_nonzero. lia.
Qed.

End Unaligned.

(** The theorem on a key seen twice, never aligned. *)
Lemma unaligned_key_is_certain_witness :
  dict_get "k" (alignment_probabilities (P := float)
                  (remove_punct_values [("k", [""; ","]); ("j", ["a"])]))
  = Some [("", div_count 2 2)]
  /\ dict_get "k" (alignment_probabilities (P := Qc)
                     (remove_punct_values [("k", [""; ","]); ("j", ["a"])]))
     = Some [("", 1%Qc)].
Proof.
  apply (unaligned_key_is_certain (P := float)
           [("k", [""; ","]); ("j", ["a"])] "k" [""; ","]).
  - repeat constructor; simpl; intuition discriminate.
  - reflexivity.
  - discriminate.
  - constructor; [left; reflexivity|].
    constructor; [right; reflexivity | constructor].
Defined.

(* ================================================================== *)
(** ** One round of the controller *)

Section RoundFacts.
Context {P : Type} `{Number P} `{Text}.

Lemma is_french_cases (lang : string) :
  negb (is_french lang || String.eqb lang "german") = false ->
  (lang = "french" /\ is_french lang = true)
  \/ (lang = "german" /\ is_french lang = false).
Proof.
  unfold is_french. intros E. apply negb_false_iff, orb_true_iff in E.
  destruct E as [E|E]; apply String.eqb_eq in E; subst; auto.
Qed.

Lemma counter_commit (lang : string) (s : FindAlignments P) (r : table P) (n : list string) :
  counter (commit lang s r n) = (counter s).
Proof. unfold commit. destruct (is_french lang); reflexivity. Qed.

Lemma de_lex_commit (lang : string) (s : FindAlignments P) (r : table P) (n : list string) :
  de_lex (commit lang s r n) = (if is_french lang then de_lex s ++ n else de_lex s).
Proof. unfold commit. destruct (is_french lang); reflexivity. Qed.

Lemma fr_lex_commit (lang : string) (s : FindAlignments P) (r : table P) (n : list string) :
  fr_lex (commit lang s r n) = (if is_french lang then fr_lex s else fr_lex s ++ n).
Proof. unfold commit. destruct (is_french lang); reflexivity. Qed.

Lemma de_count_commit (lang : string) (s : FindAlignments P) (r : table P) (n : list string) :
  de_count (commit lang s r n) = (de_count s).
Proof. unfold commit. destruct (is_french lang); reflexivity. Qed.

Lemma fr_count_commit (lang : string) (s : FindAlignments P) (r : table P) (n : list string) :
  fr_count (commit lang s r n) = (fr_count s).
Proof. unfold commit. destruct (is_french lang); reflexivity. Qed.

Lemma counter_update_count (lang : string) (s : FindAlignments P) (c : count_table) :
  counter (update_count lang s c) = (counter s).
Proof. unfold update_count. destruct (is_french lang); reflexivity. Qed.

Lemma de_lex_update_count (lang : string) (s : FindAlignments P) (c : count_table) :
  de_lex (update_count lang s c) = (de_lex s).
Proof. unfold update_count. destruct (is_french lang); reflexivity. Qed.

Lemma fr_lex_update_count (lang : string) (s : FindAlignments P) (c : count_table) :
  fr_lex (update_count lang s c) = (fr_lex s).
Proof. unfold update_count. destruct (is_french lang); reflexivity. Qed.

Lemma de_count_update_count (lang : string) (s : FindAlignments P) (c : count_table) :
  de_count (update_count lang s c) = (if is_french lang then de_count s else dict_update (de_count s) c).
Proof. unfold update_count. destruct (is_french lang); reflexivity. Qed.

Lemma fr_count_update_count (lang : string) (s : FindAlignments P) (c : count_table) :
  fr_count (update_count lang s c) = (if is_french lang then dict_update (fr_count s) c else fr_count s).
Proof. unfold update_count. destruct (is_french lang); reflexivity. Qed.

Lemma counter_set_alignments (lang : string) (s : FindAlignments P) (a : cand_obj) :
  counter (set_alignments lang s a) = (counter s).
Proof. unfold set_alignments. destruct (is_french lang); reflexivity. Qed.

Lemma de_lex_set_alignments (lang : string) (s : FindAlignments P) (a : cand_obj) :
  de_lex (set_alignments lang s a) = (de_lex s).
Proof. unfold set_alignments. destruct (is_french lang); reflexivity. Qed.

Lemma fr_lex_set_alignments (lang : string) (s : FindAlignments P) (a : cand_obj) :
  fr_lex (set_alignments lang s a) = (fr_lex s).
Proof. unfold set_alignments. destruct (is_french lang); reflexivity. Qed.

Lemma de_count_set_alignments (lang : string) (s : FindAlignments P) (a : cand_obj) :
  de_count (set_alignments lang s a) = (de_count s).
Proof. unfold set_alignments. destruct (is_french lang); reflexivity. Qed.

Lemma fr_count_set_alignments (lang : string) (s : FindAlignments P) (a : cand_obj) :
  fr_count (set_alignments lang s a) = (fr_count s).
Proof. unfold set_alignments. destruct (is_french lang); reflexivity. Qed.

Lemma counter_set_counter (s : FindAlignments P) (z : Z) :
  counter (set_counter s z) = z.
Proof. reflexivity. Qed.

Lemma de_lex_set_counter (s : FindAlignments P) (z : Z) :
  de_lex (set_counter s z) = de_lex s.
Proof. reflexivity. Qed.

Lemma fr_lex_set_counter (s : FindAlignments P) (z : Z) :
  fr_lex (set_counter s z) = fr_lex s.
Proof. reflexivity. Qed.

Lemma de_count_set_counter (s : FindAlignments P) (z : Z) :
  de_count (set_counter s z) = de_count s.
Proof. reflexivity. Qed.

Lemma fr_count_set_counter (s : FindAlignments P) (z : Z) :
  fr_count (set_counter s z) = fr_count s.
Proof. reflexivity. Qed.

Create Rewrite HintDb fa_fields.
#[local] Hint Rewrite counter_commit de_lex_commit fr_lex_commit de_count_commit fr_count_commit counter_update_count de_lex_update_count fr_lex_update_count de_count_update_count fr_count_update_count counter_set_alignments de_lex_set_alignments fr_lex_set_alignments de_count_set_alignments fr_count_set_alignments counter_set_counter de_lex_set_counter fr_lex_set_counter de_count_set_counter fr_count_set_counter : fa_fields.

(** What a round that completes has done. *)
Lemma find_conns_round_inv (self self' : FindAlignments P) (lex : list string)
    (lang : string) (wt pt : P) (wc pc : Z) (info : round_info P) :
  find_conns_round self lex lang wt pt wc pc = (self', Ok info) ->
  (lang = "french" \/ lang = "german")
  /\ r_lang info = lang
  /\ r_seed info = lex
  /\ r_lex info = working_lex self lex lang
  /\ counter self' = counter self + 1
  /\ (if is_french lang
      then de_lex self' = de_lex self ++ r_new_conns info
           /\ fr_lex self' = fr_lex self
           /\ de_count self' = de_count self
      else fr_lex self' = fr_lex self ++ r_new_conns info
           /\ de_lex self' = de_lex self
           /\ fr_count self' = fr_count self)
  /\ active_count lang self'
     = dict_update
         (dict_update (dict_update (active_count lang self) (r_single_count info))
                      (r_phrase_count info))
         (r_discont_count info)
  /\ (exists (found scanned gapped : candidates) (na npa nd : cand_obj),
         conn_count (mkCand true found) (r_lex info) = (r_single_count info, na)
         /\ conn_count (mkCand true scanned)
              (filter (fun p => (1 <? n_tokens p)%nat && negb (Py.contains "..." p))
                      (r_lex info))
            = (r_phrase_count info, npa)
         /\ conn_count (mkCand true gapped)
              (filter (fun p => Py.contains "..." p) (r_lex info))
            = (r_discont_count info, nd)
         /\ r_merged info
            = dict_update (dict_update (dict_update [] (entries na)) (entries npa))
                          (entries nd))
  /\ r_probabilities info
     = alignment_probabilities (remove_punct_values (r_merged info))
  /\ r_next_lex info = (if is_french lang then de_lex self' else fr_lex self').
Proof.
  unfold find_conns_round. intros E.
  destruct (negb (is_french lang || String.eqb lang "german")) eqn:L;
    [discriminate|].
  set (lex1 := working_lex _ lex lang) in E.
  destruct (retrieve_singles _ _) as [found al'] eqn:RS.
  destruct (parse_phrase_alignments _ _ _) as [scanned|] eqn:PP; [|discriminate].
  destruct (parse_discontinuous _ _ _) as [gapped|] eqn:PD; [|discriminate].
  destruct (conn_count (mkCand true found) lex1) as [sc na] eqn:C1.
  destruct (conn_count (mkCand true scanned) _) as [pcnt npa] eqn:C2.
  destruct (conn_count (mkCand true gapped) _) as [dc nd] eqn:C3.
  destruct (run_chain _ _ _ _ _ _ _ _ _) as [result|] eqn:RC; [|discriminate].
  injection E as <- <-. cbn [r_lang r_seed r_lex r_single_count r_phrase_count
                             r_discont_count r_merged r_probabilities r_new_conns
                             r_next_lex].
  apply is_french_cases in L.
  split; [destruct L as [[-> _]|[-> _]]; auto|].
  do 3 (split; [reflexivity|]).
  clear RS PP PD RC. unfold active_count.
  autorewrite with fa_fields.
  split; [reflexivity|].
  split; [destruct L as [[_ ->]|[_ ->]]; repeat split; reflexivity|].
  split; [destruct L as [[_ ->]|[_ ->]]; reflexivity|].
  split; [|split; reflexivity].
  exists found, scanned, gapped, na, npa, nd. repeat split; assumption.
Qed.

End RoundFacts.

(* ================================================================== *)
(** ** [conn_count] on a [defaultdict] *)

Lemma cand_index_default (key : string) (a : candidates) :
  cand_index key (mkCand true a)
  = (Ok (match dict_get key a with Some v => v | None => [] end),
     mkCand true (match dict_get key a with
                  | Some _ => a
                  | None => dict_set key [] a
                  end)).
Proof. unfold cand_index. cbn. destruct (dict_get key a); reflexivity. Qed.

(** The loop of [conn_count], from any state of its two dictionaries. *)
Lemma conn_count_default_from (lex : list string) :
  forall (count : count_table) (a : candidates),
    let r := fold_left (fun st key =>
                          let '(count, a) := st in
                          match cand_index key a with
                          | (Ok obs, a') => (dict_set key (Counter obs) count, a')
                          | (Raise _, a') => (count, a')
                          end) lex (count, mkCand true a) in
    is_defaultdict (snd r) = true
    /\ (forall k : string,
           dict_get k (entries (snd r))
           = match dict_get k a with
             | Some v => Some v
             | None => if Py.in_list k lex then Some [] else None
             end)
    /\ (forall k : string,
           dict_get k (fst r)
           = if Py.in_list k lex
             then Some (Counter (match dict_get k a with Some v => v | None => [] end))
             else dict_get k count).
Proof.
  induction lex as [|key lex IH]; intros count a; cbn [fold_left].
  - cbn. repeat split; intros k; destruct (dict_get k a); reflexivity.
  - rewrite cand_index_default.
    specialize (IH (dict_set key (Counter (match dict_get key a with
                                           | Some v => v | None => [] end)) count)
                   (match dict_get key a with
                    | Some _ => a | None => dict_set key [] a end)).
    cbv zeta in IH. destruct IH as (D & E & C). cbv zeta.
    split; [exact D|]. 
    assert (A1 : forall k,
               dict_get k (match dict_get key a with
                           | Some _ => a | None => dict_set key [] a end)
               = match dict_get k a with
                 | Some v => Some v
                 | None => if String.eqb k key then Some [] else None
                 end).
    { intros k. destruct (String.eqb k key) eqn:Ek.
      - apply String.eqb_eq in Ek; subst k.
        destruct (dict_get key a) eqn:G; [rewrite G; reflexivity|].
        apply dict_get_set_same.
      - assert (k <> key) by (intros ->; rewrite String.eqb_refl in Ek; discriminate).
        destruct (dict_get key a) eqn:G.
        + destruct (dict_get k a); reflexivity.
        + rewrite dict_get_set_other by assumption.
          destruct (dict_get k a); reflexivity. }
    split; intros k.
    + rewrite E, A1. unfold Py.in_list. cbn [existsb].
      destruct (dict_get k a); [reflexivity|].
      destruct (String.eqb k key); reflexivity.
    + rewrite C, A1. unfold Py.in_list. cbn [existsb].
      destruct (existsb (String.eqb k) lex) eqn:I.
      * rewrite orb_true_r. destruct (dict_get k a); [reflexivity|].
        destruct (String.eqb k key); reflexivity.
      * rewrite orb_false_r. destruct (String.eqb k key) eqn:Ek.
        -- apply String.eqb_eq in Ek; subst k. apply dict_get_set_same.
        -- apply dict_get_set_other. intros ->.
           rewrite String.eqb_refl in Ek. discriminate.
Qed.

Lemma in_list_In (x : string) (xs : list string) :
  Py.in_list x xs = true <-> In x xs.
Proof.
  unfold Py.in_list. rewrite existsb_exists. split.
  - intros (y & I & E). apply String.eqb_eq in E. subst. exact I.
  - intros I. exists x. split; [exact I | apply String.eqb_refl].
Qed.

Lemma conn_count_default (a : candidates) (lex : list string) :
  is_defaultdict (snd (conn_count (mkCand true a) lex)) = true
  /\ (forall k : string,
         dict_get k (entries (snd (conn_count (mkCand true a) lex)))
         = match dict_get k a with
           | Some v => Some v
           | None => if Py.in_list k lex then Some [] else None
           end)
  /\ (forall k : string,
         dict_get k (fst (conn_count (mkCand true a) lex))
         = if Py.in_list k lex
           then Some (Counter (match dict_get k a with Some v => v | None => [] end))
           else None).
Proof. exact (conn_count_default_from lex [] a). Qed.

Section UpdateFacts.
Context {K : Type} `{KeyOk K} {V : Type}.

Lemma In_keys_update_l (k : K) (d e : dict K V) :
  In k (keys d) -> In k (keys (dict_update d e)).
Proof.
  unfold dict_update. revert d.
  induction e as [|[k' v'] e IH]; intros d I; cbn [fold_left]; [exact I|].
  apply IH, In_keys_dict_set. right; exact I.
Qed.

Lemma In_keys_update_r (k : K) (d e : dict K V) :
  In k (keys e) -> In k (keys (dict_update d e)).
Proof.
  unfold dict_update. revert d.
  induction e as [|[k' v'] e IH]; intros d I; cbn [fold_left]; [destruct I|].
  destruct I as [<-|I].
  - apply (In_keys_update_l _ _ e), In_keys_dict_set. left; reflexivity.
  - apply IH, I.
Qed.

End UpdateFacts.

Section Injection.
Context {P : Type} `{Number P} `{Text}.

(** C10. [conn_count] changes its first argument when it is a
    [defaultdict(list)]: after the call every entry of [lex] is a key of it,
    an entry that was no key before being mapped to the empty list (and to
    an empty Counter in the result); and in a round of [find_conns] every
    entry of the working lexicon, injected ones included, is a key of the
    merged candidate mapping. *)
Theorem conn_count_injects_lexicon :
  (forall (alignments : candidates) (lex : list string) (key : string),
      In key lex ->
      In key (keys (entries (snd (conn_count (mkCand true alignments) lex))))
      /\ (dict_get key alignments = None ->
          dict_get key (entries (snd (conn_count (mkCand true alignments) lex)))
          = Some []
          /\ dict_get key (fst (conn_count (mkCand true alignments) lex))
             = Some []))
  /\ (forall (self self' : FindAlignments P) (lex : list string) (lang : string)
             (wt pt : P) (wc pc : Z) (info : round_info P),
      find_conns_round self lex lang wt pt wc pc = (self', Ok info) ->
      forall key : string, In key (r_lex info) -> In key (keys (r_merged info))).
Proof.
  assert (A : forall (alignments : candidates) (lex : list string) (key : string),
             In key lex ->
             In key (keys (entries (snd (conn_count (mkCand true alignments) lex))))).
  { intros a lex key I. destruct (conn_count_default a lex) as (_ & E & _).
    apply dict_mem_In. unfold dict_mem. rewrite E.
    apply in_list_In in I. rewrite I. destruct (dict_get key a); reflexivity. }
  split.
  - intros a lex key I. split; [apply A, I|]. intros G.
    destruct (conn_count_default a lex) as (_ & E & C).
    rewrite E, C, G. apply in_list_In in I. rewrite I. split; reflexivity.
  - intros self self' lex lang wt pt wc pc info R key I.
    apply find_conns_round_inv in R.
    destruct R as (_ & _ & _ & _ & _ & _ & _ & (found & scanned & gapped & na & npa & nd & C1 & _ & _ & M) & _).
    rewrite M. do 2 apply In_keys_update_l. apply In_keys_update_r.
    replace na with (snd (conn_count (mkCand true found) (r_lex info)))
      by (rewrite C1; reflexivity).
    apply A, I.
Qed.

End Injection.

(** The theorem on a lexicon entry without observations, and on the round of
    the end-to-end scenario. *)
Lemma conn_count_injects_lexicon_witness :
  (In "mais" (keys (entries (snd (conn_count (mkCand true [("or", ["aber"])])
                                              ["or"; "mais"]))))
   /\ dict_get "mais"
        (entries (snd (conn_count (mkCand true [("or", ["aber"])]) ["or"; "mais"])))
      = Some []
   /\ dict_get "mais" (fst (conn_count (mkCand true [("or", ["aber"])]) ["or"; "mais"]))
      = Some [])
  /\ exists (self self' : FindAlignments float) (info : round_info float),
       find_conns_round self [] "french" 0%float 0%float 0 0 = (self', Ok info)
       /\ r_lex info = ["pourtant"; "cependant"]
       /\ dict_get "pourtant" (entries (fr_de self)) = None
       /\ In "pourtant" (keys (r_merged info)).
Proof.
  split.
  - pose proof (proj1 (@conn_count_injects_lexicon float _ ascii_text)
                  [("or", ["aber"])] ["or"; "mais"] "mais"
                  (or_intror (or_introl eq_refl))) as [I E].
    split; [exact I | exact (E eq_refl)].
  - eexists (init (mkCand false [("trotzdem", ["cependant"])])
                  (mkCand false [("cependant", ["trotzdem"])])
                  cependant_corpus [] ["pourtant"; "cependant"] [] []).
    do 2 eexists.
    assert (R : find_conns_round
                  (init (mkCand false [("trotzdem", ["cependant"])])
                        (mkCand false [("cependant", ["trotzdem"])])
                        cependant_corpus [] ["pourtant"; "cependant"] [] [])
                  [] "french" 0%float 0%float 0 0
                = (_, Ok _)) by (vm_compute; reflexivity).
    split; [exact R|]. split; [reflexivity|]. split; [reflexivity|].
    exact (proj2 (@conn_count_injects_lexicon float _ ascii_text)
             _ _ _ _ _ _ _ _ _ R "pourtant" (or_introl eq_refl)).
Defined.

(* ================================================================== *)
(** ** The persistent count table *)

Section CountFacts.
Context {P : Type} `{Number P} `{Text}.

(** C3 (amended). At the end of a round the three count tables of the round
    (single words, phrases, discontinuous phrases, merged in this order) are
    put into the persistent Count Table of the active language by
    [dict.update]: a source key of the round's tables holds the counts of the
    round afterwards, whatever it held before, and every other key keeps its
    counts. The table of the other language is left as it was. *)
Theorem count_table_updated_by_replacement
    (self self' : FindAlignments P) (lex : list string) (lang : string)
    (wt pt : P) (wc pc : Z) (info : round_info P) :
  find_conns_round self lex lang wt pt wc pc = (self', Ok info) ->
  (forall k : string,
      dict_get k (active_count lang self')
      = match dict_get k (dict_update
                            (dict_update (dict_update [] (r_single_count info))
                                         (r_phrase_count info))
                            (r_discont_count info)) with
        | Some c => Some c
        | None => dict_get k (active_count lang self)
        end)
  /\ (if is_french lang then de_count self' = de_count self
      else fr_count self' = fr_count self).
Proof.
  intros R. apply find_conns_round_inv in R.
  destruct R as (_ & _ & _ & _ & _ & L & A & _). split.
  - intros k. rewrite A, !dict_get_update.
    destruct (dict_get k (rev (r_discont_count info))); [reflexivity|].
    destruct (dict_get k (rev (r_phrase_count info))); [reflexivity|].
    destruct (dict_get k (rev (r_single_count info))); reflexivity.
  - destruct (is_french lang); tauto.
Qed.

End CountFacts.

(** The theorem on the third round of the scenario: the table held the key
    "cependant" before, and holds the counts of the round after. *)
Lemma count_table_updated_by_replacement_witness :
  exists (s2 s3 : FindAlignments float) (i3 : round_info float),
    find_conns_round s2 [] "french" 0%float 0%float 0 0 = (s3, Ok i3)
    /\ fr_count s2 = [("cependant", [("trotzdem", 1)])]
    /\ r_single_count i3 = [("cependant", [("trotzdem", 1)])]
    /\ (forall k : string,
           dict_get k (active_count "french" s3)
           = match dict_get k (dict_update
                                 (dict_update (dict_update [] (r_single_count i3))
                                              (r_phrase_count i3))
                                 (r_discont_count i3)) with
             | Some c => Some c
             | None => dict_get k (active_count "french" s2)
             end)
    /\ de_count s3 = de_count s2.
Proof.
  eexists (mkFA (mkCand false [("trotzdem", ["cependant"])])
                (mkCand false [("cependant", ["trotzdem"])])
                cependant_corpus ["cependant"] ["trotzdem"] [] [] 2
                [("trotzdem", [("cependant", 1%float)])]
                [("cependant", [("trotzdem", 1%float)])]
                [("trotzdem", [("cependant", 1)])]
                [("cependant", [("trotzdem", 1)])]).
  do 2 eexists.
  assert (R : find_conns_round
                (mkFA (mkCand false [("trotzdem", ["cependant"])])
                      (mkCand false [("cependant", ["trotzdem"])])
                      cependant_corpus ["cependant"] ["trotzdem"] [] [] 2
                      [("trotzdem", [("cependant", 1%float)])]
                      [("cependant", [("trotzdem", 1%float)])]
                      [("trotzdem", [("cependant", 1)])]
                      [("cependant", [("trotzdem", 1)])])
                [] "french" 0%float 0%float 0 0
              = (_, Ok _)) by (vm_compute; reflexivity).
  split; [exact R|]. split; [reflexivity|]. split; [reflexivity|].
  exact (@count_table_updated_by_replacement float _ ascii_text
           _ _ _ _ _ _ _ _ _ R).
Defined.

(* ================================================================== *)
(** ** The store *)

Section StoreFacts.
Context {P : Type}.
Implicit Types (h : heap P) (l : loc) (t : table P).

Lemma length_store l t h : List.length (store l t h) = List.length h.
Proof.
  revert l. induction h as [|x h IH]; intros [|l]; simpl; auto.
Qed.

Lemma load_store_same l t h : (l < List.length h)%nat -> load l (store l t h) = t.
Proof.
  unfold load. revert l. induction h as [|x h IH]; intros [|l] L; simpl in *;
    try lia; auto. apply IH. lia.
Qed.

Lemma load_store_other l l' t h : l' <> l -> load l' (store l t h) = load l' h.
Proof.
  unfold load. revert l l'.
  induction h as [|x h IH]; intros [|l] [|l'] N; simpl; auto; try congruence.
Qed.

Lemma store_out_of_range l t h : (List.length h <= l)%nat -> store l t h = h.
Proof.
  revert l. induction h as [|x h IH]; intros [|l] L; simpl in *; auto; try lia.
  f_equal. apply IH. lia.
Qed.

Lemma load_app_old l h t : (l < List.length h)%nat -> load l (h ++ [t]) = load l h.
Proof. intros L. unfold load. apply app_nth1, L. Qed.

Lemma load_app_new h t : load (List.length h) (h ++ [t]) = t.
Proof. unfold load. rewrite app_nth2, Nat.sub_diag by lia. reflexivity. Qed.

Section Respects.
Context (R : heap P -> heap P -> Prop) `{!StoreRel R}.

Lemma respects_pure {A} (f : heap P -> outcome A) : respects R (fun h => (h, f h)).
Proof. intros h h' r [= <- _]. apply R_refl. Qed.

Lemma respects_ret {A} (a : A) : respects R (ret a).
Proof. apply (respects_pure (fun _ => Ok a)). Qed.

Lemma respects_raise {A} (e : exn) : respects R (@raise P A e).
Proof. apply (respects_pure (fun _ => Raise e)). Qed.

Lemma respects_lift {A} (o : outcome A) : respects R (lift o).
Proof. apply (respects_pure (fun _ => o)). Qed.

Lemma respects_lift_opt {A} (e : exn) (o : option A) : respects R (lift_opt e o).
Proof. destruct o; [apply respects_ret | apply respects_raise]. Qed.

Lemma respects_use_var {A} (o : option A) : respects R (use_var o).
Proof. apply respects_lift_opt. Qed.

Lemma respects_read l : respects R (read l).
Proof. apply (respects_pure (fun h => Ok (load l h))). Qed.

Lemma respects_inner l s : respects R (inner l s).
Proof. apply (respects_pure (fun h => dict_index s (load l h))). Qed.

Lemma respects_mem2 l s k : respects R (mem2 l s k).
Proof. unfold mem2. apply (respects_pure (fun h => _)). Qed.

Lemma respects_get2 l s k : respects R (get2 l s k).
Proof. unfold get2. apply (respects_pure (fun h => _)). Qed.

Lemma respects_bind {A B} (m : M P A) (f : A -> M P B) :
  respects R m -> (forall a, respects R (f a)) -> respects R (bind m f).
Proof.
  intros Hm Hf h h' r. unfold bind. destruct (m h) as [h1 [a|e]] eqn:E.
  - intros F. eapply R_trans; [eapply Hm, E | eapply Hf, F].
  - intros [= <- _]. eapply Hm, E.
Qed.

Lemma respects_foldM {A B} (step : A -> B -> M P A) (xs : list B) :
  (forall acc x, respects R (step acc x)) ->
  forall acc, respects R (foldM step xs acc).
Proof.
  intros Hs. induction xs as [|x xs IH]; intros acc; simpl.
  - apply respects_ret.
  - apply respects_bind; [apply Hs | apply IH].
Qed.

Lemma respects_for {B} (xs : list B) (body : B -> M P unit) :
  (forall x, respects R (body x)) -> respects R (for_ xs body).
Proof. intros Hb. apply respects_foldM. intros _ x. apply Hb. Qed.

Lemma respects_andM (a b : M P bool) :
  respects R a -> respects R b -> respects R (andM a b).
Proof.
  intros Ha Hb. apply respects_bind; [exact Ha|].
  intros [|]; [exact Hb | apply respects_ret].
Qed.

Lemma respects_try (m : M P unit) : respects R m -> respects R (try_KeyError m).
Proof.
  intros Hm h h' r. unfold try_KeyError.
  destruct (m h) as [h1 [a|e]] eqn:E.
  - intros [= <- _]. eapply Hm, E.
  - destruct e; intros [= <- _]; eapply Hm, E.
Qed.

End Respects.

Lemma keys_kept_refl h : keys_kept h h.
Proof. split; auto. Qed.

Lemma keys_kept_trans h1 h2 h3 : keys_kept h1 h2 -> keys_kept h2 h3 -> keys_kept h1 h3.
Proof.
  intros [L1 K1] [L2 K2]. split; [lia|]. intros l L.
  rewrite K2 by lia. apply K1, L.
Qed.

Lemma only_at_refl l0 h : only_at l0 h h.
Proof. split; auto. Qed.

Lemma only_at_trans l0 h1 h2 h3 : only_at l0 h1 h2 -> only_at l0 h2 h3 -> only_at l0 h1 h3.
Proof.
  intros [L1 K1] [L2 K2]. split; [congruence|]. intros l N.
  rewrite K2 by exact N. apply K1, N.
Qed.

Lemma frame_refl n h : frame n h h.
Proof. intros _. split; auto. Qed.

Lemma frame_trans n h1 h2 h3 : frame n h1 h2 -> frame n h2 h3 -> frame n h1 h3.
Proof.
  intros F1 F2 L. destruct (F1 L) as [L1 K1]. destruct (F2 ltac:(lia)) as [L2 K2].
  split; [lia|]. intros l Ll. rewrite K2 by exact Ll. apply K1, Ll.
Qed.

#[export] Instance keys_kept_rel : StoreRel keys_kept :=
  {| R_refl := keys_kept_refl; R_trans := keys_kept_trans |}.

#[export] Instance only_at_rel l0 : StoreRel (only_at l0) :=
  {| R_refl := only_at_refl l0; R_trans := only_at_trans l0 |}.

#[export] Instance frame_rel n : StoreRel (frame n) :=
  {| R_refl := frame_refl n; R_trans := frame_trans n |}.

(** The three relations and the writes of the filters. *)
Lemma pop2_cases l s k h h' (r : outcome P) :
  pop2 l s k h = (h', r) ->
  h' = h
  \/ exists d v, dict_get s (load l h) = Some d /\ dict_get k d = Some v
                 /\ r = Ok v
                 /\ h' = store l (dict_set s (dict_remove k d) (load l h)) h.
Proof.
  unfold pop2, dict_index. destruct (dict_get s (load l h)) as [d|] eqn:G.
  - destruct (dict_get k d) as [v|] eqn:Gk; intros [= <- <-]; [right | left; auto].
    exists d, v. auto.
  - intros [= <- _]. left; reflexivity.
Qed.

Lemma set2_cases l s k (v : P) h h' (r : outcome unit) :
  set2 l s k v h = (h', r) ->
  h' = h
  \/ exists d, dict_get s (load l h) = Some d
               /\ h' = store l (dict_set s (dict_set k v d) (load l h)) h.
Proof.
  unfold set2, dict_index. destruct (dict_get s (load l h)) as [d|] eqn:G.
  - intros [= <- _]. right. exists d. auto.
  - intros [= <- _]. left; reflexivity.
Qed.

Lemma keys_kept_store l s (d : dict string P) h :
  dict_mem s (load l h) = true ->
  keys_kept h (store l (dict_set s d (load l h)) h).
Proof.
  intros Mem. split; [rewrite length_store; lia|]. intros l' L.
  destruct (Nat.eq_dec l' l) as [->|N].
  - rewrite load_store_same by exact L. apply keys_dict_set_mem, Mem.
  - rewrite load_store_other by exact N. reflexivity.
Qed.

Lemma only_at_store l t h : only_at l h (store l t h).
Proof. split; [apply length_store|]. intros l' N. apply load_store_other, N. Qed.

Lemma frame_store n l t h : (n <= l)%nat -> frame n h (store l t h).
Proof.
  intros Ln _. split; [rewrite length_store; lia|]. intros l' L.
  apply load_store_other. lia.
Qed.

Lemma get_mem (s : string) (t : table P) (d : dict string P) :
  dict_get s t = Some d -> dict_mem s t = true.
Proof. unfold dict_mem. intros ->. reflexivity. Qed.

Lemma keys_kept_pop2 l s k : respects (P := P) keys_kept (pop2 l s k).
Proof.
  intros h h' r E. apply pop2_cases in E.
  destruct E as [->|(d & v & G & _ & _ & ->)]; [apply keys_kept_refl|].
  apply keys_kept_store. eapply get_mem, G.
Qed.

Lemma keys_kept_set2 l s k v : respects (P := P) keys_kept (set2 l s k v).
Proof.
  intros h h' r E. apply set2_cases in E.
  destruct E as [->|(d & G & ->)]; [apply keys_kept_refl|].
  apply keys_kept_store. eapply get_mem, G.
Qed.

Lemma only_at_pop2 l s k : respects (P := P) (only_at l) (pop2 l s k).
Proof.
  intros h h' r E. apply pop2_cases in E.
  destruct E as [->|(d & v & _ & _ & _ & ->)];
    [apply only_at_refl | apply only_at_store].
Qed.

Lemma frame_pop2 n l s k : (n <= l)%nat -> respects (P := P) (frame n) (pop2 l s k).
Proof.
  intros Ln h h' r E. apply pop2_cases in E.
  destruct E as [->|(d & v & _ & _ & _ & ->)];
    [apply frame_refl | apply frame_store, Ln].
Qed.

Lemma frame_set2 n l s k v : (n <= l)%nat -> respects (P := P) (frame n) (set2 l s k v).
Proof.
  intros Ln h h' r E. apply set2_cases in E.
  destruct E as [->|(d & _ & ->)]; [apply frame_refl | apply frame_store, Ln].
Qed.

Lemma keys_kept_del2 l s k : respects (P := P) keys_kept (del2 l s k).
Proof.
  apply respects_bind; [apply _ | apply keys_kept_pop2 |].
  intros _. apply respects_ret, _.
Qed.

Lemma only_at_del2 l s k : respects (P := P) (only_at l) (del2 l s k).
Proof.
  apply respects_bind; [apply _ | apply only_at_pop2 |].
  intros _. apply respects_ret, _.
Qed.

Lemma frame_del2 n l s k : (n <= l)%nat -> respects (P := P) (frame n) (del2 l s k).
Proof.
  intros Ln. apply respects_bind; [apply _ | apply frame_pop2, Ln |].
  intros _. apply respects_ret, _.
Qed.

End StoreFacts.

(* ================================================================== *)
(** ** The filters and the store *)

Ltac respects_step :=
  first
    [ apply respects_ret; exact _
    | apply respects_raise; exact _
    | apply respects_lift; exact _
    | apply respects_lift_opt; exact _
    | apply respects_use_var; exact _
    | apply respects_read; exact _
    | apply respects_inner; exact _
    | apply respects_mem2; exact _
    | apply respects_get2; exact _
    | apply keys_kept_del2 | apply keys_kept_pop2 | apply keys_kept_set2
    | apply only_at_del2 | apply only_at_pop2
    | apply frame_del2; lia | apply frame_pop2; lia | apply frame_set2; lia
    | apply respects_try; try exact _
    | apply respects_andM; try exact _
    | apply respects_for; [try exact _ .. | intros ?]
    | apply respects_foldM; [try exact _ .. | intros ? ?]
    | apply respects_bind; [try exact _ .. | intros ?]
    | match goal with
      | |- respects _ (if ?b then _ else _) => destruct b
      | |- respects _ (match ?x with _ => _ end) => destruct x
      end ].

Ltac respects_tac := repeat respects_step.

Section FilterFacts.
Context {P : Type} `{Number P} `{Text}.

Lemma keys_kept_deepcopy (l : loc) : respects (P := P) keys_kept (deepcopy (P := P) l).
Proof.
  intros h h' r [= <- _]. split; [rewrite length_app; simpl; lia|].
  intros l' L. rewrite load_app_old by exact L. reflexivity.
Qed.

Lemma frame_deepcopy (n : nat) (l : loc) : respects (P := P) (frame n) (deepcopy (P := P) l).
Proof.
  intros h h' r [= <- _] Ln. split; [rewrite length_app; simpl; lia|].
  intros l' L. apply load_app_old. lia.
Qed.

Lemma keys_kept_filter_most_common_conns l wt pt :
  respects (P := P) keys_kept (filter_most_common_conns l wt pt).
Proof.
  unfold filter_most_common_conns.
  apply respects_bind; [exact _ | apply keys_kept_deepcopy | intros ?].
  respects_tac.
Qed.

Lemma keys_kept_remove_low_counts l c wc pc :
  respects (P := P) keys_kept (remove_low_counts l c wc pc).
Proof.
  unfold remove_low_counts, low_count_target.
  apply respects_bind; [exact _ | apply keys_kept_deepcopy | intros ?].
  respects_tac.
Qed.

Lemma keys_kept_filter_unlikely_alignments l lang :
  respects (P := P) keys_kept (filter_unlikely_alignments l lang).
Proof.
  unfold filter_unlikely_alignments, unlikely_phrases, unlikely_singles,
    unlikely_subphrases.
  respects_tac.
Qed.

Lemma keys_kept_remove_incomplete_phrases l :
  respects (P := P) keys_kept (remove_incomplete_phrases l).
Proof.
  unfold remove_incomplete_phrases.
  apply respects_bind; [exact _ | apply keys_kept_deepcopy | intros ?].
  respects_tac.
Qed.

Lemma keys_kept_filter_single_words l lang :
  respects (P := P) keys_kept (filter_single_words l lang).
Proof. unfold filter_single_words. respects_tac. Qed.

Lemma keys_kept_remove_pronouns l lang :
  respects (P := P) keys_kept (remove_pronouns l lang).
Proof.
  unfold remove_pronouns.
  apply respects_bind; [exact _ | apply keys_kept_deepcopy | intros ?].
  respects_tac.
Qed.

Lemma keys_kept_complete_phrases l lex :
  respects (P := P) keys_kept (complete_phrases l lex).
Proof.
  unfold complete_phrases.
  apply respects_bind; [exact _ | apply keys_kept_deepcopy | intros ?].
  respects_tac.
Qed.

End FilterFacts.

Section Returns.
Context {P : Type}.

Lemma returns_ret {A} (Q : A -> Prop) (a : A) : Q a -> returns (P := P) Q (ret a).
Proof. intros q h h' a' [= _ <-]. exact q. Qed.

Lemma returns_bind {A B} (Q : B -> Prop) (m : M P A) (f : A -> M P B) :
  (forall a, returns Q (f a)) -> returns Q (bind m f).
Proof.
  intros Hf h h' b. unfold bind. destruct (m h) as [h1 [a|e]]; [|discriminate].
  apply Hf.
Qed.

(** A filter that starts with [deepcopy] and only writes to the copy. *)
Lemma copy_filter_frame (l : loc) (body : loc -> M P loc)
    (h h' : heap P) (r : outcome loc) :
  (forall n fresh, (n <= fresh)%nat -> respects (P := P) (frame n) (body fresh)) ->
  (forall fresh, returns (eq fresh) (body fresh)) ->
  bind (deepcopy l) body h = (h', r) ->
  (forall l0, (l0 < List.length h)%nat -> load l0 h' = load l0 h)
  /\ (forall a, r = Ok a -> a = List.length h /\ (a < List.length h')%nat).
Proof.
  intros F V E. unfold bind, deepcopy in E.
  pose proof (F (List.length h) (List.length h) (le_n _) _ _ _ E) as Fr.
  destruct Fr as [L K]; [rewrite length_app; simpl; lia|].
  rewrite length_app in L. simpl in L. split.
  - intros l0 L0. rewrite K by exact L0. apply load_app_old, L0.
  - intros a ->. apply V in E. subst a. split; [reflexivity | lia].
Qed.

Lemma copy_filter_keys (l : loc) (body : loc -> M P loc)
    (h h' : heap P) (a : loc) :
  (forall fresh, respects (P := P) keys_kept (body fresh)) ->
  (forall fresh, returns (eq fresh) (body fresh)) ->
  bind (deepcopy l) body h = (h', Ok a) ->
  (a < List.length h')%nat /\ keys (load a h') = keys (load l h).
Proof.
  intros Kp V E. unfold bind, deepcopy in E.
  pose proof (Kp _ _ _ _ E) as [L K]. apply V in E. subst a.
  rewrite length_app in L. simpl in L. split; [lia|].
  rewrite K by (rewrite length_app; simpl; lia).
  rewrite load_app_new. reflexivity.
Qed.

Lemma in_place_filter_keys (l : loc) (m : M P loc) (h h' : heap P) (a : loc) :
  respects (P := P) keys_kept m ->
  returns (eq l) m ->
  (l < List.length h)%nat ->
  m h = (h', Ok a) ->
  (a < List.length h')%nat /\ keys (load a h') = keys (load l h).
Proof.
  intros Kp V L E. pose proof (Kp _ _ _ E) as [L' K]. apply V in E. subst a.
  split; [lia | apply K, L].
Qed.

End Returns.

Ltac returns_tac :=
  repeat (apply returns_bind; intros ?); apply returns_ret; reflexivity.

Ltac copy_body_tac :=
  match goal with
  | |- forall n fresh, _ -> respects _ _ => intros ? ? ?; respects_tac
  | |- forall fresh, respects _ _ => intros ?; respects_tac
  | |- forall fresh, returns _ _ => intros ?; returns_tac
  end.

Section ChainFacts.
Context {P : Type} `{Number P} `{Text}.

Lemma bind_Ok_inv {A B} (m : M P A) (f : A -> M P B) (h h' : heap P) (b : B) :
  bind m f h = (h', Ok b) ->
  exists h1 a, m h = (h1, Ok a) /\ f a h1 = (h', Ok b).
Proof.
  unfold bind. destruct (m h) as [h1 [a|e]]; [|discriminate].
  intros E. exists h1, a. split; [reflexivity | exact E].
Qed.

(** Each filter returns a table with the source keys of its input. *)
Lemma filter_most_common_conns_keys l wt pt (h h' : heap P) a :
  (l < List.length h)%nat ->
  filter_most_common_conns l wt pt h = (h', Ok a) ->
  (a < List.length h')%nat /\ keys (load a h') = keys (load l h).
Proof.
  intros _ E. unfold filter_most_common_conns in E.
  apply copy_filter_keys in E; [exact E | | ]; copy_body_tac.
Qed.

Lemma remove_low_counts_keys l c wc pc (h h' : heap P) a :
  (l < List.length h)%nat ->
  remove_low_counts l c wc pc h = (h', Ok a) ->
  (a < List.length h')%nat /\ keys (load a h') = keys (load l h).
Proof.
  intros _ E. unfold remove_low_counts, low_count_target in E.
  apply copy_filter_keys in E; [exact E | | ]; copy_body_tac.
Qed.

Lemma filter_unlikely_alignments_keys l lang (h h' : heap P) a :
  (l < List.length h)%nat ->
  filter_unlikely_alignments l lang h = (h', Ok a) ->
  (a < List.length h')%nat /\ keys (load a h') = keys (load l h).
Proof.
  intros L E. apply (in_place_filter_keys l _ _ _ _) in E; auto.
  - apply keys_kept_filter_unlikely_alignments.
  - unfold filter_unlikely_alignments. returns_tac.
Qed.

Lemma remove_incomplete_phrases_keys l (h h' : heap P) a :
  (l < List.length h)%nat ->
  remove_incomplete_phrases l h = (h', Ok a) ->
  (a < List.length h')%nat /\ keys (load a h') = keys (load l h).
Proof.
  intros _ E. unfold remove_incomplete_phrases in E.
  apply copy_filter_keys in E; [exact E | | ]; copy_body_tac.
Qed.

Lemma filter_single_words_keys l lang (h h' : heap P) a :
  (l < List.length h)%nat ->
  filter_single_words l lang h = (h', Ok a) ->
  (a < List.length h')%nat /\ keys (load a h') = keys (load l h).
Proof.
  intros L E. apply (in_place_filter_keys l _ _ _ _) in E; auto.
  - apply keys_kept_filter_single_words.
  - unfold filter_single_words. returns_tac.
Qed.

Lemma remove_pronouns_keys l lang (h h' : heap P) a :
  (l < List.length h)%nat ->
  remove_pronouns l lang h = (h', Ok a) ->
  (a < List.length h')%nat /\ keys (load a h') = keys (load l h).
Proof.
  intros _ E. unfold remove_pronouns in E.
  apply copy_filter_keys in E; [exact E | | ]; copy_body_tac.
Qed.

Lemma complete_phrases_keys l lex (h h' : heap P) a :
  (l < List.length h)%nat ->
  complete_phrases l lex h = (h', Ok a) ->
  (a < List.length h')%nat /\ keys (load a h') = keys (load l h).
Proof.
  intros _ E. unfold complete_phrases in E.
  apply copy_filter_keys in E; [exact E | | ]; copy_body_tac.
Qed.

Lemma filter_chain_keys lang other_lang wt pt wc pc count lex l
    (h h' : heap P) a :
  (l < List.length h)%nat ->
  filter_chain lang other_lang wt pt wc pc count lex l h = (h', Ok a) ->
  (a < List.length h')%nat /\ keys (load a h') = keys (load l h).
Proof.
  intros L E. unfold filter_chain in E.
  apply bind_Ok_inv in E. destruct E as (h1 & a1 & E1 & E).
  apply filter_most_common_conns_keys in E1; [|exact L]. destruct E1 as [L1 K1].
  apply bind_Ok_inv in E. destruct E as (h2 & a2 & E2 & E).
  apply remove_low_counts_keys in E2; [|exact L1]. destruct E2 as [L2 K2].
  apply bind_Ok_inv in E. destruct E as (h3 & a3 & E3 & E).
  apply filter_unlikely_alignments_keys in E3; [|exact L2]. destruct E3 as [L3 K3].
  apply bind_Ok_inv in E. destruct E as (h4 & a4 & E4 & E).
  apply remove_incomplete_phrases_keys in E4; [|exact L3]. destruct E4 as [L4 K4].
  apply bind_Ok_inv in E. destruct E as (h5 & a5 & E5 & E).
  apply filter_single_words_keys in E5; [|exact L4]. destruct E5 as [L5 K5].
  apply bind_Ok_inv in E. destruct E as (h6 & a6 & E6 & E).
  apply remove_pronouns_keys in E6; [|exact L5]. destruct E6 as [L6 K6].
  apply complete_phrases_keys in E; [|exact L6]. destruct E as [L7 K7].
  split; [exact L7|]. congruence.
Qed.

(** C2 (amended). The filter chain never removes a source key: the table it
    returns has the source keys of the table it was given, in the same
    order, so that a source key all of whose targets were removed is kept
    with an empty target mapping. The same holds for the threshold filter
    and the minimum-count filter on their own. *)
Theorem filter_chain_keeps_source_keys
    (lang other_lang : string) (wt pt : P) (wc pc : Z)
    (count_dict : count_table) (complete_lex : list string) (t t' : table P) :
  run_chain lang other_lang wt pt wc pc count_dict complete_lex t = Ok t' ->
  keys t' = keys t
  /\ (forall h' a, filter_most_common_conns 0%nat wt pt [t] = (h', Ok a) ->
                   keys (load a h') = keys t)
  /\ (forall h' a, remove_low_counts 0%nat count_dict wc pc [t] = (h', Ok a) ->
                   keys (load a h') = keys t).
Proof.
  unfold run_chain. intros E. split; [|split].
  - destruct (filter_chain _ _ _ _ _ _ _ _ _ _) as [h' [a|e]] eqn:C;
      [|discriminate].
    injection E as <-. apply filter_chain_keys in C; [apply C | simpl; lia].
  - intros h' a F. apply filter_most_common_conns_keys in F; [apply F | simpl; lia].
  - intros h' a F. apply remove_low_counts_keys in F; [apply F | simpl; lia].
Qed.

End ChainFacts.

(** The theorem on a table whose only target is below the threshold. *)
Lemma filter_chain_keeps_source_keys_witness :
  run_chain "french" "german" 0.5%float 0.5%float 0 0
            [("k", [("a", 1)])] [] [("k", [("a", 0.25%float)])]
  = Ok [("k", [])]
  /\ keys [("k", @nil (string * float))] = keys [("k", [("a", 0.25%float)])].
Proof.
  assert (R : run_chain "french" "german" 0.5%float 0.5%float 0 0
                [("k", [("a", 1)])] [] [("k", [("a", 0.25%float)])]
              = Ok [("k", [])]) by (vm_compute; reflexivity).
  split; [exact R|].
  exact (proj1 (@filter_chain_keeps_source_keys float _ ascii_text
                  _ _ _ _ _ _ _ _ _ _ R)).
Defined.

(* ================================================================== *)
(** ** Which filters copy and which work in place *)

Section FrameFacts.
Context {P : Type} `{Number P} `{Text}.

Lemma filter_most_common_conns_frame l wt pt (h h' : heap P) r :
  filter_most_common_conns l wt pt h = (h', r) ->
  (forall l0, (l0 < List.length h)%nat -> load l0 h' = load l0 h)
  /\ (forall a, r = Ok a -> a = List.length h /\ (a < List.length h')%nat).
Proof.
  intros E. unfold filter_most_common_conns in E.
  apply copy_filter_frame in E; [exact E | |]; copy_body_tac.
Qed.

Lemma remove_low_counts_frame l c wc pc (h h' : heap P) r :
  remove_low_counts l c wc pc h = (h', r) ->
  (forall l0, (l0 < List.length h)%nat -> load l0 h' = load l0 h)
  /\ (forall a, r = Ok a -> a = List.length h /\ (a < List.length h')%nat).
Proof.
  intros E. unfold remove_low_counts, low_count_target in E.
  apply copy_filter_frame in E; [exact E | |]; copy_body_tac.
Qed.

Lemma remove_incomplete_phrases_frame l (h h' : heap P) r :
  remove_incomplete_phrases l h = (h', r) ->
  (forall l0, (l0 < List.length h)%nat -> load l0 h' = load l0 h)
  /\ (forall a, r = Ok a -> a = List.length h /\ (a < List.length h')%nat).
Proof.
  intros E. unfold remove_incomplete_phrases in E.
  apply copy_filter_frame in E; [exact E | |]; copy_body_tac.
Qed.

Lemma remove_pronouns_frame l lang (h h' : heap P) r :
  remove_pronouns l lang h = (h', r) ->
  (forall l0, (l0 < List.length h)%nat -> load l0 h' = load l0 h)
  /\ (forall a, r = Ok a -> a = List.length h /\ (a < List.length h')%nat).
Proof.
  intros E. unfold remove_pronouns in E.
  apply copy_filter_frame in E; [exact E | |]; copy_body_tac.
Qed.

Lemma complete_phrases_frame l lex (h h' : heap P) r :
  complete_phrases l lex h = (h', r) ->
  (forall l0, (l0 < List.length h)%nat -> load l0 h' = load l0 h)
  /\ (forall a, r = Ok a -> a = List.length h /\ (a < List.length h')%nat).
Proof.
  intros E. unfold complete_phrases in E.
  apply copy_filter_frame in E; [exact E | |]; copy_body_tac.
Qed.

Lemma filter_unlikely_alignments_in_place l lang (h h' : heap P) r :
  filter_unlikely_alignments l lang h = (h', r) ->
  (forall l0, l0 <> l -> load l0 h' = load l0 h)
  /\ (forall a, r = Ok a -> a = l).
Proof.
  intros E. split.
  - assert (O : respects (P := P) (only_at l) (filter_unlikely_alignments l lang)).
    { unfold filter_unlikely_alignments, unlikely_phrases, unlikely_singles,
        unlikely_subphrases. respects_tac. }
    intros l0 N. apply (O _ _ _ E), N.
  - intros a ->. symmetry. revert E. generalize h h' a.
    change (returns (P := P) (eq l) (filter_unlikely_alignments l lang)).
    unfold filter_unlikely_alignments. returns_tac.
Qed.

Lemma filter_single_words_in_place l lang (h h' : heap P) r :
  filter_single_words l lang h = (h', r) ->
  (forall l0, l0 <> l -> load l0 h' = load l0 h)
  /\ (forall a, r = Ok a -> a = l).
Proof.
  intros E. split.
  - assert (O : respects (P := P) (only_at l) (filter_single_words l lang)).
    { unfold filter_single_words. respects_tac. }
    intros l0 N. apply (O _ _ _ E), N.
  - intros a ->. symmetry. revert E. generalize h h' a.
    change (returns (P := P) (eq l) (filter_single_words l lang)).
    unfold filter_single_words. returns_tac.
Qed.

(** C8 (amended). [filter_most_common_conns], [remove_low_counts],
    [remove_incomplete_phrases], [remove_pronouns] and [complete_phrases]
    work on a deep copy: whatever they do, every table object that existed
    before the call, their argument included, holds what it held, and the
    object they return is a new one. [filter_unlikely_alignments] and
    [filter_single_words] work in place: the object they return is their
    argument, and only that object can have changed. *)
Theorem filters_copy_or_work_in_place (l : loc) (h h' : heap P) :
  (forall wt pt r,
      filter_most_common_conns l wt pt h = (h', r) ->
      (forall l0, (l0 < List.length h)%nat -> load l0 h' = load l0 h)
      /\ (forall a, r = Ok a -> a = List.length h /\ (a < List.length h')%nat))
  /\ (forall c wc pc r,
      remove_low_counts l c wc pc h = (h', r) ->
      (forall l0, (l0 < List.length h)%nat -> load l0 h' = load l0 h)
      /\ (forall a, r = Ok a -> a = List.length h /\ (a < List.length h')%nat))
  /\ (forall r,
      remove_incomplete_phrases l h = (h', r) ->
      (forall l0, (l0 < List.length h)%nat -> load l0 h' = load l0 h)
      /\ (forall a, r = Ok a -> a = List.length h /\ (a < List.length h')%nat))
  /\ (forall lang r,
      remove_pronouns l lang h = (h', r) ->
      (forall l0, (l0 < List.length h)%nat -> load l0 h' = load l0 h)
      /\ (forall a, r = Ok a -> a = List.length h /\ (a < List.length h')%nat))
  /\ (forall lex r,
      complete_phrases l lex h = (h', r) ->
      (forall l0, (l0 < List.length h)%nat -> load l0 h' = load l0 h)
      /\ (forall a, r = Ok a -> a = List.length h /\ (a < List.length h')%nat))
  /\ (forall lang r,
      filter_unlikely_alignments l lang h = (h', r) ->
      (forall l0, l0 <> l -> load l0 h' = load l0 h)
      /\ (forall a, r = Ok a -> a = l))
  /\ (forall lang r,
      filter_single_words l lang h = (h', r) ->
      (forall l0, l0 <> l -> load l0 h' = load l0 h)
      /\ (forall a, r = Ok a -> a = l)).
Proof.
  split; [intros wt pt r; apply filter_most_common_conns_frame|].
  split; [intros c wc pc r; apply remove_low_counts_frame|].
  split; [intros r; apply remove_incomplete_phrases_frame|].
  split; [intros lang r; apply remove_pronouns_frame|].
  split; [intros lex r; apply complete_phrases_frame|].
  split; [intros lang r; apply filter_unlikely_alignments_in_place|].
  intros lang r; apply filter_single_words_in_place.
Qed.

End FrameFacts.

(** The theorem on a one-table store. *)
Lemma filters_copy_or_work_in_place_witness :
  (let r := filter_most_common_conns 0%nat 0.5%float 0.5%float
              [[("k", [("a", 0.25%float)])]] in
   load 0%nat (fst r) = [("k", [("a", 0.25%float)])]
   /\ snd r = Ok 1%nat
   /\ load 1%nat (fst r) = [("k", [])])
  /\ (let r := filter_unlikely_alignments 0%nat "french"
                 [[("k", [("es", 1%float)])]; [("j", [("es", 1%float)])]] in
      load 1%nat (fst r) = [("j", [("es", 1%float)])]
      /\ snd r = Ok 0%nat
      /\ load 0%nat (fst r) = [("k", [])]).
Proof.
  cbv zeta. split.
  - destruct (@filters_copy_or_work_in_place float _ ascii_text 0%nat
                [[("k", [("a", 0.25%float)])]]
                (fst (filter_most_common_conns 0%nat 0.5%float 0.5%float
                        [[("k", [("a", 0.25%float)])]])))
      as (A & _).
    destruct (A 0.5%float 0.5%float _ (surjective_pairing _)) as [U F].
    split; [exact (U 0%nat (Nat.lt_0_succ 0))|].
    split; vm_compute; reflexivity.
  - destruct (@filters_copy_or_work_in_place float _ ascii_text 0%nat
                [[("k", [("es", 1%float)])]; [("j", [("es", 1%float)])]]
                (fst (filter_unlikely_alignments 0%nat "french"
                        [[("k", [("es", 1%float)])];
                         [("j", [("es", 1%float)])]])))
      as (_ & _ & _ & _ & _ & A & _).
    destruct (A "french" _ (surjective_pairing _)) as [U F].
    split; [exact (U 1%nat (Nat.neq_succ_0 0))|].
    split; vm_compute; reflexivity.
Defined.

(* ================================================================== *)
(** ** Missing keys *)

Section MissingKeys.
Context {P : Type} `{Number P}.

Lemma for_cons {B} (x : B) (xs : list B) (body : B -> M P unit) (h : heap P) :
  for_ (x :: xs) body h
  = match body x h with
    | (h1, Ok _) => for_ xs body h1
    | (h1, Raise e) => (h1, Raise e)
    end.
Proof.
  unfold for_. cbn [foldM]. unfold bind.
  destruct (body x h) as [h1 [[]|e]]; reflexivity.
Qed.

Lemma low_count_target_ok (f : loc) (count_dict : count_table) (wc pc : Z)
    (source w : string) (h : heap P) (d : dict string P) :
  dict_mem source count_dict = true ->
  dict_get source (load f h) = Some d ->
  dict_mem w d = true ->
  exists h1,
    low_count_target f count_dict wc pc source w h = (h1, Ok tt)
    /\ (h1 = h \/ h1 = store f (dict_set source (dict_remove w d) (load f h)) h).
Proof.
  intros Cov G Mem.
  assert (CL : exists c, count_lookup count_dict source w = Ok c).
  { unfold count_lookup, dict_index. unfold dict_mem in Cov.
    destruct (dict_get source count_dict); [eexists; reflexivity | discriminate]. }
  destruct CL as [c CL].
  assert (Pop : exists v, pop2 f source w h
                = (store f (dict_set source (dict_remove w d) (load f h)) h, Ok v)).
  { unfold pop2, dict_index. rewrite G. unfold dict_mem in Mem.
    destruct (dict_get w d) as [v|]; [exists v; reflexivity | discriminate]. }
  destruct Pop as [v Pop].
  unfold low_count_target.
  destruct (n_tokens w =? 1)%nat; unfold bind at 1, lift; rewrite CL.
  - destruct (c <? wc)%Z.
    + unfold bind. rewrite Pop. eexists. split; [reflexivity | right; reflexivity].
    + eexists. split; [reflexivity | left; reflexivity].
  - destruct (c <? pc)%Z.
    + unfold bind. rewrite Pop. eexists. split; [reflexivity | right; reflexivity].
    + eexists. split; [reflexivity | left; reflexivity].
Qed.

Lemma low_counts_inner (f : loc) (count_dict : count_table) (wc pc : Z)
    (source : string) (ts : list string) :
  dict_mem source count_dict = true ->
  NoDup ts ->
  forall (h : heap P) (d : dict string P),
    (f < List.length h)%nat ->
    dict_get source (load f h) = Some d ->
    (forall w, In w ts -> dict_mem w d = true) ->
    exists h1,
      for_ ts (low_count_target f count_dict wc pc source) h = (h1, Ok tt)
      /\ low_counts_step f source h h1.
Proof.
  intros Cov ND. induction ND as [|w ts NI ND IH]; intros h d L G Mem.
  - exists h. split; [reflexivity | split; auto].
  - rewrite for_cons.
    destruct (low_count_target_ok f count_dict wc pc source w h d Cov G
                (Mem w (or_introl eq_refl))) as (h1 & E1 & Sh).
    rewrite E1.
    assert (Next : exists d1, (f < List.length h1)%nat
                              /\ dict_get source (load f h1) = Some d1
                              /\ (forall w', In w' ts -> dict_mem w' d1 = true)
                              /\ low_counts_step f source h h1).
    { destruct Sh as [->| ->].
      - exists d. repeat split; auto. intros w' I. apply Mem. right; exact I.
      - exists (dict_remove w d). split; [rewrite length_store; exact L|].
        split; [rewrite load_store_same by exact L; apply dict_get_set_same|].
        split.
        + intros w' I. unfold dict_mem.
          rewrite dict_get_remove_other by (intros ->; contradiction).
          apply (Mem w'). right; exact I.
        + split; [apply length_store|]. intros s' N.
          rewrite load_store_same by exact L. apply dict_get_set_other, N. }
    destruct Next as (d1 & L1 & G1 & Mem1 & Len & Oth).
    destruct (IH h1 d1 L1 G1 Mem1) as (h2 & E2 & Len2 & Oth2).
    exists h2. split; [exact E2|]. split; [congruence|].
    intros s' N. rewrite Oth2 by exact N. apply Oth, N.
Qed.

Lemma low_counts_outer (f : loc) (count_dict : count_table) (wc pc : Z)
    (its : list (string * dict string P)) :
  NoDup (map fst its) ->
  (forall s d, In (s, d) its ->
               NoDup (keys d) /\ (d <> [] -> dict_mem s count_dict = true)) ->
  forall h : heap P,
    (f < List.length h)%nat ->
    (forall s d, In (s, d) its -> dict_get s (load f h) = Some d) ->
    exists h1,
      for_ its (fun sa =>
                  for_ (keys (snd sa))
                       (low_count_target f count_dict wc pc (fst sa))) h
      = (h1, Ok tt)
      /\ List.length h1 = List.length h.
Proof.
  induction its as [|[s d] its IH]; intros ND Wf h L G.
  - exists h. split; reflexivity.
  - rewrite for_cons. inversion ND as [|? ? NI ND']; subst. cbn [fst snd].
    destruct (Wf s d (or_introl eq_refl)) as [NDd Cov].
    assert (Inner : exists h1,
               for_ (keys d) (low_count_target f count_dict wc pc s) h = (h1, Ok tt)
               /\ low_counts_step f s h h1).
    { destruct d as [|kv d].
      - exists h. split; [reflexivity | split; auto].
      - apply (low_counts_inner f count_dict wc pc s (keys (kv :: d))
                 (Cov ltac:(discriminate)) NDd h (kv :: d) L
                 (G s (kv :: d) (or_introl eq_refl))).
        intros w I. apply dict_mem_In, I. }
    destruct Inner as (h1 & E1 & Len & Oth). rewrite E1.
    destruct (IH ND' (fun s' d' I => Wf s' d' (or_intror I)) h1) as (h2 & E2 & Len2).
    + lia.
    + intros s' d' I. rewrite Oth; [apply G; right; exact I|].
      intros ->. apply NI. change s with (fst (s, d')). apply in_map, I.
    + exists h2. split; [exact E2 | congruence].
Qed.

(** [remove_low_counts] returns when the count table knows every source key
    that has a target. *)
Lemma remove_low_counts_total (l : loc) (count_dict : count_table) (wc pc : Z)
    (h : heap P) :
  (l < List.length h)%nat ->
  NoDup (keys (load l h)) ->
  (forall s d, In (s, d) (load l h) ->
               NoDup (keys d) /\ (d <> [] -> dict_mem s count_dict = true)) ->
  exists h', remove_low_counts l count_dict wc pc h = (h', Ok (List.length h)).
Proof.
  intros L ND Wf. unfold remove_low_counts.
  unfold bind at 1, deepcopy. unfold bind at 1, read.
  rewrite load_app_old by exact L.
  destruct (low_counts_outer (List.length h) count_dict wc pc (load l h) ND Wf
              (h ++ [load l h])) as (h1 & E1 & _).
  - rewrite length_app. simpl. lia.
  - intros s d I. rewrite load_app_new. apply In_dict_get; assumption.
  - exists h1. unfold bind. rewrite E1. reflexivity.
Qed.

End MissingKeys.

Lemma retrieve_singles_plain_from (al : cand_obj) (singles : list string) :
  is_defaultdict al = false ->
  forall new_alignments : candidates,
    let r := fold_left (fun st key =>
                          let '(new_alignments, al) := st in
                          match cand_index key al with
                          | (Ok v, al') => (dict_set key v new_alignments, al')
                          | (Raise _, al') => (new_alignments, al')
                          end) singles (new_alignments, al) in
    snd r = al
    /\ forall key, dict_get key (entries al) = None ->
                   dict_get key (fst r) = dict_get key new_alignments.
Proof.
  intros D. induction singles as [|k singles IH]; intros na; cbn [fold_left].
  - split; auto.
  - assert (CI : cand_index k al
                 = match dict_get k (entries al) with
                   | Some v => (Ok v, al)
                   | None => (Raise KeyError, al)
                   end) by (unfold cand_index; rewrite D; reflexivity).
    cbv beta iota. rewrite CI.
    destruct (dict_get k (entries al)) as [v|] eqn:G.
    + destruct (IH (dict_set k v na)) as [S1 S2]. split; [exact S1|].
      intros key A.
      transitivity (dict_get key (dict_set k v na)); [exact (S2 key A)|].
      apply dict_get_set_other. intros ->. congruence.
    + apply IH.
Qed.

Section MissingKeysTheorem.
Context {P : Type} `{Number P}.

(** C9 (amended). The exact-key retrieval of [find_conns] never raises: on a
    plain dictionary it leaves the precomputed mapping as it is, and a
    single-word entry that the mapping lacks gets no entry in the new
    alignments of the round. [remove_low_counts] returns normally on every
    well-formed probability table each of whose source keys with at least
    one target is a key of the Count Table (a target that the Counter of a
    present key lacks counts 0). *)
Theorem missing_keys_are_skipped :
  (forall (al : cand_obj) (singles : list string) (key : string),
      is_defaultdict al = false ->
      dict_get key (entries al) = None ->
      snd (retrieve_singles al singles) = al
      /\ dict_get key (fst (retrieve_singles al singles)) = None)
  /\ (forall (l : loc) (count_dict : count_table) (wc pc : Z) (h : heap P),
      (l < List.length h)%nat ->
      NoDup (keys (load l h)) ->
      (forall s d, In (s, d) (load l h) ->
                   NoDup (keys d) /\ (d <> [] -> dict_mem s count_dict = true)) ->
      exists h', remove_low_counts l count_dict wc pc h = (h', Ok (List.length h))).
Proof.
  split.
  - intros al singles key D A.
    destruct (retrieve_singles_plain_from al singles D []) as [S1 S2].
    split; [exact S1|]. exact (S2 key A).
  - intros l count_dict wc pc h. apply remove_low_counts_total.
Qed.

End MissingKeysTheorem.

(** The theorem on a lexicon with an entry that the mapping lacks, and on a
    table whose only source key is counted. *)
Lemma missing_keys_are_skipped_witness :
  (snd (retrieve_singles (mkCand false [("cependant", ["trotzdem"])])
                         ["pourtant"; "cependant"])
   = mkCand false [("cependant", ["trotzdem"])]
   /\ dict_get "pourtant"
        (fst (retrieve_singles (mkCand false [("cependant", ["trotzdem"])])
                               ["pourtant"; "cependant"]))
      = None)
  /\ exists h' : heap float,
       remove_low_counts 0%nat [("k", [("b", 3)])] 1 1
                         [[("k", [("a", 0.25%float); ("b", 0.75%float)])]]
       = (h', Ok 1%nat).
Proof.
  split.
  - apply (proj1 (@missing_keys_are_skipped float)); reflexivity.
  - apply (proj2 (@missing_keys_are_skipped float)).
    + simpl; lia.
    + repeat constructor; simpl; tauto.
    + intros s d [E|[]]. injection E as <- <-. split.
      * repeat constructor; simpl; intuition discriminate.
      * reflexivity.
Defined.

(* ================================================================== *)
(** ** The rounds of [find_conns] *)

Section ControllerFacts.
Context {P : Type} `{Number P} `{Text}.

Lemma other_language_valid (lang : string) :
  lang = "french" \/ lang = "german" ->
  (other_language lang = "french" \/ other_language lang = "german")
  /\ other_language (other_language lang) = lang.
Proof. intros [->| ->]; split; auto. Qed.

Lemma log_chain_lang (log : list (round_info P)) :
  forall (c : Z) (lex : list string) (lang : string),
    lang = "french" \/ lang = "german" ->
    log_chain c lex lang log ->
    forall i info, nth_error log i = Some info -> r_lang info = lang_at lang i.
Proof.
  induction log as [|a log IH]; intros c lex lang V C i info N.
  - destruct i; discriminate.
  - destruct C as (L & _ & C). destruct i as [|i].
    + injection N as <-. exact L.
    + cbn [nth_error] in N.
      destruct (other_language_valid lang V) as [V' OO].
      rewrite (IH _ _ _ V' C i info N). unfold lang_at.
      rewrite Nat.even_succ, <- Nat.negb_even.
      destruct (Nat.even i); cbn [negb]; [reflexivity | exact OO].
Qed.

Lemma log_chain_seed (log : list (round_info P)) :
  forall (c : Z) (lex : list string) (lang : string),
    log_chain c lex lang log ->
    (forall info, nth_error log 0 = Some info -> r_seed info = lex)
    /\ forall i prev info,
         nth_error log i = Some prev ->
         nth_error log (S i) = Some info ->
         r_seed info = if (c + Z.of_nat i + 1 =? 1)%Z
                       then r_next_lex prev else r_new_conns prev.
Proof.
  induction log as [|a log IH]; intros c lex lang C.
  - split; [intros info N | intros [|i] prev info N]; discriminate.
  - destruct C as (_ & S0 & C). destruct (IH _ _ _ C) as [IH0 IHS]. split.
    + intros info [= <-]. exact S0.
    + intros [|i] prev info N N'.
      * injection N as <-. cbn [nth_error] in N'.
        rewrite (IH0 info N'). replace (c + Z.of_nat 0 + 1) with (c + 1) by lia.
        reflexivity.
      * cbn [nth_error] in N, N'. rewrite (IHS i prev info N N').
        replace (c + 1 + Z.of_nat i + 1) with (c + Z.of_nat (S i) + 1) by lia.
        reflexivity.
Qed.

(** A call at counter [c] with fuel for the rounds that remain. *)
Lemma find_conns_from (wt pt : P) (wc pc limit : Z) :
  forall (fuel : nat) (self : FindAlignments P) (lex : list string) (lang : string),
    lang = "french" \/ lang = "german" ->
    counter self + Z.of_nat fuel = limit ->
    (1 <= fuel)%nat ->
    forall s log st,
      find_conns fuel self lex lang wt pt wc pc limit = (s, log, st) ->
      st <> OutOfFuel
      /\ (st = Returned -> List.length log = fuel /\ counter s = limit)
      /\ (forall e, st = Raised e -> (List.length log < fuel)%nat)
      /\ log_chain (counter self) lex lang log.
Proof.
  induction fuel as [|fuel IH]; intros self lex lang V Cn F s log st E; [lia|].
  cbn [find_conns] in E.
  destruct (find_conns_round self lex lang wt pt wc pc) as [self' [info|e]] eqn:R.
  - pose proof (find_conns_round_inv _ _ _ _ _ _ _ _ _ R)
      as (_ & RL & RS & _ & C1 & _ & _ & _ & _ & NL).
    destruct (counter self' =? limit)%Z eqn:Q.
    + injection E as <- <- <-. apply Z.eqb_eq in Q.
      split; [discriminate|]. split; [|split].
      * intros _. split; [cbn; lia | exact Q].
      * discriminate.
      * cbn [log_chain]. auto.
    + apply Z.eqb_neq in Q.
      destruct (if (counter self' =? 1)%Z
                then find_conns fuel self'
                       (if is_french lang then de_lex self' else fr_lex self')
                       (if is_french lang then "german" else "french")
                       wt pt wc pc limit
                else find_conns fuel self' (r_new_conns info)
                       (if is_french lang then "german" else "french")
                       wt pt wc pc limit) as [[s' log'] st'] eqn:Rec.
      injection E as <- <- <-.
      destruct (other_language_valid lang V) as [V' _].
      assert (Sub : exists lex',
                 find_conns fuel self' lex' (other_language lang) wt pt wc pc limit
                 = (s', log', st')
                 /\ lex' = if (counter self + 1 =? 1)%Z
                           then r_next_lex info else r_new_conns info).
      { rewrite <- C1. destruct (counter self' =? 1)%Z; eexists; split;
          try exact Rec; auto. }
      destruct Sub as (lex' & Rec' & Elex).
      destruct (IH self' lex' (other_language lang) V' ltac:(lia) ltac:(lia)
                  _ _ _ Rec') as (NF & Ret & Rai & Ch).
      split; [exact NF|]. split; [|split].
      * intros Rt. destruct (Ret Rt) as [Len Cs]. split; [cbn; lia | exact Cs].
      * intros e Re. specialize (Rai e Re). cbn. lia.
      * cbn [log_chain]. split; [exact RL|]. split; [exact RS|].
        rewrite <- Elex, <- C1. exact Ch.
  - injection E as <- <- <-. split; [discriminate|]. split; [discriminate|].
    split; [intros; cbn; lia | exact I].
Qed.

End ControllerFacts.

Section Rounds.
Context {P : Type} `{Number P} `{Text}.

(** C7 (amended). For every round limit of at least 1, a call of
    [find_conns] on a fresh object in the language "french" or "german" ends
    within [limit] rounds: it returns after exactly [limit] rounds unless a
    round raises an exception, which ends the call earlier. The active
    language alternates from round to round. The first round is called with
    the [lex] argument, the second with the full lexicon of the other
    language (its original entries followed by the connectives found in
    round 1), every later round with the connectives newly found in the
    round before it. A round works on the list it is called with or, when
    that list is empty, on the full lexicon of its language, in both cases
    without the entries of the deletion list of its language. *)
Theorem find_conns_runs_limit_rounds
    (self : FindAlignments P) (lex : list string) (lang : string)
    (wt pt : P) (wc pc limit : Z)
    (s : FindAlignments P) (log : list (round_info P)) (st : status) :
  1 <= limit ->
  counter self = 0 ->
  lang = "french" \/ lang = "german" ->
  find_conns (Z.to_nat limit) self lex lang wt pt wc pc limit = (s, log, st) ->
  st <> OutOfFuel
  /\ (st = Returned -> Z.of_nat (List.length log) = limit /\ counter s = limit)
  /\ (forall e, st = Raised e -> Z.of_nat (List.length log) < limit)
  /\ (forall i info, nth_error log i = Some info -> r_lang info = lang_at lang i)
  /\ (forall info, nth_error log 0 = Some info -> r_seed info = lex)
  /\ (forall first second,
         nth_error log 0 = Some first -> nth_error log 1 = Some second ->
         r_seed second = r_next_lex first)
  /\ (forall i prev info,
         (1 <= i)%nat ->
         nth_error log i = Some prev -> nth_error log (S i) = Some info ->
         r_seed info = r_new_conns prev)
  /\ (forall (self0 self1 : FindAlignments P) (lex0 : list string) (lang0 : string)
             (info : round_info P),
         find_conns_round self0 lex0 lang0 wt pt wc pc = (self1, Ok info) ->
         r_lex info
         = filter (fun conn =>
                     negb (Py.in_list conn
                             (if is_french lang0 then fr_del else de_del)))
                  (match lex0 with
                   | [] => if is_french lang0 then fr_lex self0 else de_lex self0
                   | _ :: _ => lex0
                   end)
         /\ r_next_lex info
            = (if is_french lang0 then de_lex self0 else fr_lex self0)
              ++ r_new_conns info).
Proof.
  intros L C0 V E.
  destruct (find_conns_from wt pt wc pc limit (Z.to_nat limit) self lex lang V
              ltac:(lia) ltac:(lia) s log st E) as (NF & Ret & Rai & Ch).
  rewrite C0 in Ch. destruct (log_chain_seed log 0 lex lang Ch) as [S0 SS].
  split; [exact NF|]. split; [|split; [|split; [|split; [|split; [|split]]]]].
  - intros Rt. destruct (Ret Rt) as [Len Cs]. split; [lia | exact Cs].
  - intros e Re. specialize (Rai e Re). lia.
  - exact (log_chain_lang log 0 lex lang V Ch).
  - exact S0.
  - intros first second N0 N1. rewrite (SS 0%nat first second N0 N1). reflexivity.
  - intros i prev info Li N N'. rewrite (SS i prev info N N').
    destruct (0 + Z.of_nat i + 1 =? 1)%Z eqn:Q; [|reflexivity].
    apply Z.eqb_eq in Q. lia.
  - intros self0 self1 lex0 lang0 info R.
    pose proof (find_conns_round_inv _ _ _ _ _ _ _ _ _ R)
      as (_ & _ & _ & RL & _ & LX & _ & _ & _ & NL).
    split; [exact RL|]. rewrite NL.
    destruct (is_french lang0); destruct LX as (-> & _); reflexivity.
Qed.

End Rounds.

(** The theorem on three rounds of the end-to-end scenario. *)
Lemma find_conns_runs_limit_rounds_witness :
  exists (s : FindAlignments float) (i1 i2 i3 : round_info float),
    find_conns 3 (init (mkCand false [("trotzdem", ["cependant"])])
                       (mkCand false [("cependant", ["trotzdem"])])
                       cependant_corpus [] ["cependant"] [] [])
               [] "french" 0%float 0%float 0 0 3
    = (s, [i1; i2; i3], Returned)
    /\ (Z.of_nat (List.length [i1; i2; i3]) = 3 /\ counter s = 3)
    /\ r_lang i1 = "french" /\ r_lang i2 = "german" /\ r_lang i3 = "french"
    /\ r_seed i2 = r_next_lex i1
    /\ r_seed i3 = r_new_conns i2.
Proof.
  do 4 eexists.
  assert (E : find_conns (Z.to_nat 3)
                (init (mkCand false [("trotzdem", ["cependant"])])
                      (mkCand false [("cependant", ["trotzdem"])])
                      cependant_corpus [] ["cependant"] [] [])
                [] "french" 0%float 0%float 0 0 3
              = (_, [_; _; _], Returned)) by (vm_compute; reflexivity).
  destruct (@find_conns_runs_limit_rounds float _ ascii_text
              (init (mkCand false [("trotzdem", ["cependant"])])
                    (mkCand false [("cependant", ["trotzdem"])])
                    cependant_corpus [] ["cependant"] [] [])
              [] "french" 0%float 0%float 0 0 3 _ _ _
              ltac:(lia) eq_refl (or_introl eq_refl) E)
    as (_ & Ret & _ & Lang & _ & Second & Later & _).
  split; [exact E|]. split; [exact (Ret eq_refl)|].
  split; [exact (Lang 0%nat _ eq_refl)|].
  split; [exact (Lang 1%nat _ eq_refl)|].
  split; [exact (Lang 2%nat _ eq_refl)|].
  split; [exact (Second _ _ eq_refl eq_refl)|].
  exact (Later 1%nat _ _ (le_n 1) eq_refl eq_refl).
Defined.

(* ================================================================== *)
(** ** The gap loop of the corpus scans *)

Lemma length_list_insert {A} (i : nat) (x : A) (xs : list A) :
  List.length (Py.list_insert i x xs) = S (List.length xs).
Proof.
  unfold Py.list_insert. rewrite length_app. cbn [List.length].
  rewrite <- (firstn_skipn i xs) at 3. rewrite length_app. lia.
Qed.

Lemma nth_error_list_insert {A} (i : nat) (x : A) (xs : list A) :
  (i <= List.length xs)%nat -> nth_error (Py.list_insert i x xs) i = Some x.
Proof.
  intros L. unfold Py.list_insert.
  rewrite nth_error_app2 by (rewrite length_firstn; lia).
  rewrite length_firstn, Nat.min_l by exact L. rewrite Nat.sub_diag. reflexivity.
Qed.

(** The fuel a run of the loop needs: two steps for each pair still ahead,
    less one when the current element is an inserted token. *)
Lemma gap_loop_fuel (wide : Z) (target_tok : list string) :
  forall (fuel pos : nat) (new_phrase : list item),
    (1 <= fuel)%nat ->
    (2 * (List.length new_phrase - pos - 1) + 1
     <= fuel + match nth_error new_phrase pos with
               | Some (Tok _) => 1
               | _ => 0
               end)%nat ->
    exists r, gap_loop fuel wide target_tok pos new_phrase = Some r.
Proof.
  induction fuel as [|fuel IH]; intros pos l F N; [lia|].
  cbn [gap_loop]. destruct (pos + 1 <? List.length l)%nat eqn:Q;
    [|eexists; reflexivity].
  apply Nat.ltb_lt in Q.
  assert (Skip : exists r, gap_loop fuel wide target_tok (pos + 1) l = Some r).
  { apply IH.
    - destruct (nth_error l pos) as [[|]|]; lia.
    - destruct (nth_error l pos) as [[|]|];
        destruct (nth_error l (pos + 1)) as [[|]|]; lia. }
  assert (Ins : forall m, nth_error l pos <> None ->
            match nth_error l pos with Some (Tok _) => False | _ => True end ->
            exists r, gap_loop fuel wide target_tok (pos + 1)
                        (Py.list_insert (pos + 1) (Tok m) l) = Some r).
  { intros m _ NT. apply IH.
    - destruct (nth_error l pos) as [[|]|]; try lia; contradiction.
    - rewrite nth_error_list_insert by lia. rewrite length_list_insert.
      destruct (nth_error l pos) as [[|]|]; try lia; contradiction. }
  destruct (nth_error l pos) as [[a|t]|] eqn:Np; [|exact Skip|exact Skip].
  destruct (nth_error l (pos + 1)) as [[b|t]|]; [|exact Skip|exact Skip].
  destruct (Z.abs (a - b) =? 2)%Z.
  - destruct (py_nth target_tok (a + 1)); [|eexists; reflexivity].
    apply Ins; [discriminate | exact I].
  - destruct (wide <? Z.abs (a - b))%Z; [|exact Skip].
    apply Ins; [discriminate | exact I].
Qed.

(** The fuel of [gap_while] is enough: its fallback is never taken. *)
Lemma gap_while_runs (wide : Z) (target_tok : list string) (new_phrase : list item) :
  (1 <= List.length new_phrase)%nat ->
  gap_loop (2 * List.length new_phrase) wide target_tok 0 new_phrase
  = Some (gap_while wide target_tok new_phrase).
Proof.
  intros L. unfold gap_while.
  destruct (gap_loop_fuel wide target_tok (2 * List.length new_phrase) 0 new_phrase)
    as [r E].
  - lia.
  - destruct (nth_error new_phrase 0) as [[|]|]; lia.
  - rewrite E. reflexivity.
Qed.

(** Inserting right after the element that follows a prefix. *)
Lemma list_insert_after {A} (done : list A) (p x : A) (tl : list A) (pos : nat) :
  pos = (List.length done + 1)%nat ->
  Py.list_insert pos x (done ++ p :: tl) = (done ++ [p]) ++ x :: tl.
Proof.
  intros ->. unfold Py.list_insert.
  replace (done ++ p :: tl) with ((done ++ [p]) ++ tl)
    by (rewrite <- app_assoc; reflexivity).
  replace (List.length done + 1)%nat with (List.length (done ++ [p]) + 0)%nat
    by (rewrite length_app; simpl; lia).
  rewrite firstn_app_2, skipn_app, Nat.add_0_r. cbn [firstn].
  rewrite skipn_all, Nat.sub_diag, app_nil_r. reflexivity.
Qed.

(** At an inserted marker the loop only moves on. *)
Lemma gap_loop_skips_token (wide : Z) (target_tok : list string)
    (fuel pos : nat) (pre : list item) (m : string) (x : item) (tl : list item) :
  pos = List.length pre ->
  gap_loop (S fuel) wide target_tok pos (pre ++ Tok m :: x :: tl)
  = gap_loop fuel wide target_tok (pos + 1) (pre ++ Tok m :: x :: tl).
Proof.
  intros ->. cbn [gap_loop].
  replace (List.length pre + 1 <? List.length (pre ++ Tok m :: x :: tl))%nat
    with true
    by (symmetry; apply Nat.ltb_lt; rewrite length_app; cbn [List.length]; lia).
  rewrite nth_error_app2, Nat.sub_diag by lia. reflexivity.
Qed.

(** The [while] loop of the corpus scans, started anywhere in a list whose
    remainder is all positions, marks the gap between every two adjacent
    positions: unlike the [for] loop of [parse_alignments], it re-reads the
    length of the list after each insertion. *)
Lemma gap_loop_marks_every_pair (wide : Z) (target_tok : list string) :
  forall (positions : list Z) (fuel pos : nat) (done : list item),
    positions <> [] ->
    (2 * List.length positions <= fuel)%nat ->
    pos = List.length done ->
    gap_loop fuel wide target_tok pos (done ++ map Pos positions)
    = Some (let? marked := every_pair_marked wide target_tok positions in
            Ok (done ++ marked)).
Proof.
  induction positions as [|a rest IH]; intros fuel pos done NE F ->;
    [contradiction|].
  destruct fuel as [|fuel]; [cbn [List.length] in F; lia|].
  destruct rest as [|b rest].
  - cbn [gap_loop map]. rewrite length_app. cbn [List.length].
    rewrite Nat.ltb_irrefl. reflexivity.
  - assert (Skip : forall f, (2 * List.length (b :: rest) <= f)%nat ->
               gap_loop f wide target_tok (List.length done + 1)
                 (done ++ map Pos (a :: b :: rest))
               = Some (let? marked := every_pair_marked wide target_tok (b :: rest) in
                       Ok (done ++ Pos a :: marked))).
    { intros f Ff.
      replace (done ++ map Pos (a :: b :: rest))
        with ((done ++ [Pos a]) ++ map Pos (b :: rest))
        by (rewrite <- app_assoc; reflexivity).
      rewrite (IH f _ (done ++ [Pos a])); try discriminate; try exact Ff.
      - destruct (every_pair_marked wide target_tok (b :: rest)); [|reflexivity].
        cbn [obind]. rewrite <- app_assoc. reflexivity.
      - rewrite length_app. reflexivity. }
    assert (Ins : forall m, 
               gap_loop fuel wide target_tok (List.length done + 1)
                 (Py.list_insert (List.length done + 1) (Tok m)
                    (done ++ map Pos (a :: b :: rest)))
               = Some (let? marked := every_pair_marked wide target_tok (b :: rest) in
                       Ok (done ++ Pos a :: [Tok m] ++ marked))).
    { intros m. cbn [map]. rewrite list_insert_after by reflexivity.
      destruct fuel as [|fuel]; [cbn [List.length] in F; lia|].
      rewrite gap_loop_skips_token by (rewrite length_app; reflexivity).
      replace ((done ++ [Pos a]) ++ Tok m :: Pos b :: map Pos rest)
        with ((done ++ [Pos a; Tok m]) ++ map Pos (b :: rest))
        by (rewrite <- !app_assoc; reflexivity).
      rewrite (IH fuel _ (done ++ [Pos a; Tok m])); try discriminate.
      - destruct (every_pair_marked wide target_tok (b :: rest)); [|reflexivity].
        cbn [obind]. rewrite <- app_assoc. reflexivity.
      - cbn [List.length] in *. lia.
      - rewrite !length_app. cbn [List.length]. lia. }
    cbn [gap_loop]. rewrite length_app, length_map. cbn [List.length].
    replace (List.length done + 1 <? List.length done + S (S (List.length rest)))%nat
      with true by (symmetry; apply Nat.ltb_lt; lia).
    rewrite nth_error_app2, Nat.sub_diag by lia. cbn [map nth_error].
    rewrite nth_error_app2 by lia.
    replace (List.length done + 1 - List.length done)%nat with 1%nat by lia.
    cbn [nth_error].
    change (Pos a :: Pos b :: map Pos rest) with (map Pos (a :: b :: rest)).
    change (every_pair_marked wide target_tok (a :: b :: rest))
      with (let? gap := gap_between wide target_tok a b in
            let? marked := every_pair_marked wide target_tok (b :: rest) in
            Ok (Pos a :: gap ++ marked)) in *.
    remember (every_pair_marked wide target_tok (b :: rest)) as tail_marks.
    unfold gap_between.
    destruct (Z.abs (a - b) =? 2)%Z.
    + destruct (py_nth target_tok (a + 1)) as [tok|e]; [|reflexivity].
      rewrite Ins. cbn [obind].
      destruct tail_marks; reflexivity.
    + destruct (wide <? Z.abs (a - b))%Z.
      * rewrite Ins. cbn [obind].
        destruct tail_marks; reflexivity.
      * rewrite Skip by (cbn [List.length] in *; lia). cbn [obind].
        destruct tail_marks; reflexivity.
Qed.

(** X1. The [while] loop of [parse_phrase_alignments] and of
    [parse_discontinuous] ends on every list of target positions, and it
    marks the gap between every two adjacent positions: between positions
    that are 2 apart goes a comma when the token after the first of them is
    one, and "..." otherwise; between positions further apart than the bound
    of the scan (2 in [parse_phrase_alignments], 1 in [parse_discontinuous])
    goes "..."; nothing goes between any others. It raises IndexError when
    two positions are 2 apart and no token stands after the first. *)
Lemma gap_while_marks_every_pair (wide : Z) (target_tok : list string)
    (positions : list Z) :
  gap_while wide target_tok (map Pos positions)
  = every_pair_marked wide target_tok positions.
Proof.
  destruct positions as [|a rest]; [reflexivity|].
  unfold gap_while.
  rewrite (gap_loop_marks_every_pair wide target_tok (a :: rest) _ 0 []);
    try discriminate; try reflexivity.
  - cbn [app]. destruct (every_pair_marked wide target_tok (a :: rest)); reflexivity.
  - rewrite length_map. lia.
Qed.

(* ================================================================== *)
(** ** Unaligned positions *)

Lemma filter_filter {A} (p q : A -> bool) (xs : list A) :
  filter p (filter q xs) = filter (fun x => q x && p x) xs.
Proof.
  induction xs as [|x xs IH]; simpl; [reflexivity|].
  destruct (q x); simpl; [destruct (p x)|]; rewrite IH; reflexivity.
Qed.

Lemma discard_Z_filter (z : Z) (xs : list Z) :
  NoDup xs -> discard_Z z xs = filter (fun y => negb (z =? y)%Z) xs.
Proof.
  induction 1 as [|y xs NI ND IH]; simpl; [reflexivity|].
  destruct (z =? y)%Z eqn:E; simpl.
  - apply Z.eqb_eq in E. subst y. symmetry. apply forallb_filter_id.
    apply forallb_forall. intros x I. apply negb_true_iff, Z.eqb_neq.
    intros ->. contradiction.
  - rewrite IH. reflexivity.
Qed.

Lemma NoDup_range (n : nat) : NoDup (range n).
Proof.
  unfold range. generalize (seq_NoDup n 0). generalize (seq 0 n).
  induction 1 as [|x xs NI ND IH]; cbn [map]; constructor; [|exact IH].
  intros I. apply in_map_iff in I. destruct I as (y & E & I).
  apply Nat2Z.inj in E. subst y. contradiction.
Qed.

(** The loop of the removals, from any list of distinct positions. *)
Lemma missing_from (mentioned : list string) :
  forall m : list Z,
    NoDup m ->
    fold_left (fun m w => match Py.int w with
                          | Some z => discard_Z z m
                          | None => m
                          end) mentioned m
    = filter (fun z => negb (mentions mentioned z)) m.
Proof.
  induction mentioned as [|w ws IH]; intros m ND; cbn [fold_left].
  - symmetry. apply forallb_filter_id. apply forallb_forall. reflexivity.
  - unfold mentions. cbn [existsb]. destruct (Py.int w) as [z|].
    + rewrite IH by (rewrite discard_Z_filter by exact ND; apply NoDup_filter, ND).
      rewrite discard_Z_filter by exact ND. rewrite filter_filter.
      apply filter_ext. intros y. unfold mentions.
      rewrite negb_orb. reflexivity.
    + rewrite IH by exact ND. reflexivity.
Qed.

(** X2. In [parse_alignments] the positions of a sentence that get the empty
    string as their observation are, in increasing order, exactly the
    positions that no index of the alignment line reads as: an index that
    [int] rejects, one that is out of range and one that comes again remove
    nothing. *)
Theorem missing_are_the_unmentioned (n : nat) (mentioned : list string) :
  missing n mentioned
  = filter (fun z => negb (mentions mentioned z)) (range n).
Proof. unfold missing. apply missing_from, NoDup_range. Qed.

(* ================================================================== *)
(** ** The shape of the blanked mapping and of the probability table *)

Lemma dict_get_app_last {V} (k : string) (v : V) (np : dict string V) :
  ~ In k (keys np) -> dict_get k (np ++ [(k, v)]) = Some v.
Proof.
  induction np as [|[k' v'] np IH]; simpl; intros N.
  - rewrite String.eqb_refl. reflexivity.
  - destruct (String.eqb_spec k k') as [->|_]; [exfalso; apply N; auto|].
    apply IH. tauto.
Qed.

Lemma dict_set_app_last {V} (k : string) (v old : V) (np : dict string V) :
  ~ In k (keys np) -> dict_set k v (np ++ [(k, old)]) = np ++ [(k, v)].
Proof.
  induction np as [|[k' v'] np IH]; simpl; intros N.
  - rewrite String.eqb_refl. reflexivity.
  - destruct (String.eqb_spec k k') as [->|_]; [exfalso; apply N; auto|].
    rewrite IH by tauto. reflexivity.
Qed.

Lemma remove_punct_step (source word : string) (np : candidates) :
  (if negb (Py.is_empty word) && Py.contains word Py.punctuation
   then dd_append source "" np else dd_append source word np)
  = dd_append source (blank_punct word) np.
Proof.
  unfold blank_punct.
  destruct (negb (Py.is_empty word) && Py.contains word Py.punctuation); reflexivity.
Qed.

Lemma remove_punct_inner_run (source : string) (target : list string) :
  forall (np : candidates) (seen : list string),
    ~ In source (keys np) ->
    fold_left (fun np word =>
                 if negb (Py.is_empty word) && Py.contains word Py.punctuation
                 then dd_append source "" np
                 else dd_append source word np) target (np ++ [(source, seen)])
    = np ++ [(source, seen ++ map blank_punct target)].
Proof.
  induction target as [|w target IH]; intros np seen N; cbn [fold_left map].
  - rewrite app_nil_r. reflexivity.
  - rewrite remove_punct_step. unfold dd_append.
    rewrite dict_get_app_last by exact N.
    rewrite dict_set_app_last by exact N.
    rewrite IH by exact N. rewrite <- app_assoc. reflexivity.
Qed.

Lemma remove_punct_inner_fresh (source : string) (target : list string)
    (np : candidates) :
  ~ In source (keys np) ->
  fold_left (fun np word =>
               if negb (Py.is_empty word) && Py.contains word Py.punctuation
               then dd_append source "" np
               else dd_append source word np) target np
  = if is_nil target then np
    else np ++ [(source, map blank_punct target)].
Proof.
  intros N. destruct target as [|w target]; [reflexivity|].
  cbn [fold_left is_nil]. rewrite remove_punct_step. unfold dd_append.
  replace (dict_get source np) with (@None (list string))
    by (symmetry; apply dict_get_None, N).
  rewrite dict_set_fresh by exact N.
  apply (remove_punct_inner_run source target np [blank_punct w] N).
Qed.

(** The outer loop of [remove_punct_values], from any dictionary built so
    far. *)
Lemma remove_punct_values_from (dictionary : candidates) :
  forall acc : candidates,
    NoDup (keys acc ++ keys dictionary) ->
    fold_left (fun no_punct st =>
                 let '(source, target) := st in
                 fold_left (fun np word =>
                              if negb (Py.is_empty word)
                                 && Py.contains word Py.punctuation
                              then dd_append source "" np
                              else dd_append source word np)
                           target no_punct) dictionary acc
    = acc ++ map (fun st => (fst st, map blank_punct (snd st)))
                 (filter (fun st => negb (is_nil (snd st))) dictionary).
Proof.
  induction dictionary as [|[s t] a IH]; intros acc ND; cbn [fold_left].
  - rewrite app_nil_r. reflexivity.
  - assert (N : ~ In s (keys acc)).
    { intros I. apply NoDup_remove_2 in ND. apply ND, in_or_app. auto. }
    rewrite remove_punct_inner_fresh by exact N.
    cbn [filter snd fst]. destruct t as [|w t]; cbn [is_nil negb].
    + apply IH. apply NoDup_remove_1 in ND. exact ND.
    + rewrite IH.
      * cbn [map fst snd]. rewrite <- app_assoc. reflexivity.
      * unfold keys in *. rewrite map_app. cbn [map fst].
        rewrite <- app_assoc. exact ND.
Qed.

(** X4. [remove_punct_values] keeps the source keys in their order, except
    those whose observation list is empty, which it drops; every other key
    keeps as many observations as it had, in their order, each observation
    that is a non-empty piece of [string.punctuation] being replaced by the
    empty string and every other one left as it is. *)
Theorem remove_punct_values_blanks_and_drops (dictionary : candidates) :
  NoDup (keys dictionary) ->
  remove_punct_values dictionary
  = map (fun st => (fst st, map blank_punct (snd st)))
        (filter (fun st => negb (is_nil (snd st))) dictionary).
Proof.
  intros ND. unfold remove_punct_values.
  rewrite (remove_punct_values_from dictionary []) by exact ND. reflexivity.
Qed.

(** The theorem on a mapping with a punctuation mark and an empty list. *)
Lemma remove_punct_values_blanks_and_drops_witness :
  remove_punct_values [("k", [","; "weil"]); ("e", []); ("j", ["."])]
  = map (fun st => (fst st, map blank_punct (snd st)))
        (filter (fun st => negb (is_nil (snd st)))
                [("k", [","; "weil"]); ("e", []); ("j", ["."])]).
Proof.
  apply remove_punct_values_blanks_and_drops.
  repeat constructor; simpl; intuition discriminate.
Defined.

Section EstimatorShape.
Context {P : Type} `{Number P}.

Lemma count_keys_items (alignments : candidates) :
  NoDup (keys alignments) ->
  forall (its : candidates) (acc : count_table),
    incl its alignments ->
    count_keys alignments (keys its) acc
    = fold_left (fun acc st => dict_set (fst st) (Counter (snd st)) acc) its acc.
Proof.
  intros ND. induction its as [|[k obs] its IH]; intros acc I; [reflexivity|].
  cbn [keys map fst]. unfold count_keys. cbn [fold_left fst snd].
  unfold dict_index.
  rewrite (In_dict_get k obs alignments ND (I _ (or_introl eq_refl))).
  apply (IH _ (fun x Hx => I x (or_intror Hx))).
Qed.

(** The two loops of [alignment_probabilities] go through the keys in
    their order. *)
Lemma alignment_probabilities_items (alignments : candidates) :
  NoDup (keys alignments) ->
  alignment_probabilities alignments
  = map (fun st => (fst st, expected (Counter (snd st)))) alignments.
Proof.
  intros ND. unfold alignment_probabilities.
  rewrite (count_keys_items alignments ND alignments []) by apply incl_refl.
  rewrite (fold_set_fresh fst (fun st => Counter (snd st))) by exact ND.
  cbn [app].
  rewrite (fold_set_fresh fst (fun kv : string * tally => expected (snd kv))).
  - cbn [app]. rewrite map_map. reflexivity.
  - cbn [keys map app]. rewrite map_map. cbn [fst]. exact ND.
Qed.

(** X5. [alignment_probabilities] works key by key: the table it returns
    has the source keys of the candidate mapping, in their order, a key
    without any observation included (it maps to the empty dictionary, and
    nothing is divided); each key maps its targets, in the order of their
    first observation, to their count divided by the number of observations
    of the key. *)
Theorem alignment_probabilities_maps_each_key (alignments : candidates) :
  NoDup (keys alignments) ->
  alignment_probabilities alignments
  = map (fun st =>
           (fst st,
            map (fun wc => (fst wc,
                            div_count (snd wc) (Z.of_nat (List.length (snd st)))))
                (Counter (snd st))))
        alignments.
Proof.
  intros ND. rewrite alignment_probabilities_items by exact ND.
  apply map_ext. intros [k obs]. cbn [fst snd].
  rewrite expected_map by apply Counter_NoDup.
  rewrite Counter_total. reflexivity.
Qed.

End EstimatorShape.

(** The theorem on a key seen three times and a key never seen. *)
Lemma alignment_probabilities_maps_each_key_witness :
  alignment_probabilities (P := Qc) [("k", ["a"; "b"; "a"]); ("e", [])]
  = map (fun st =>
           (fst st,
            map (fun wc => (fst wc,
                            div_count (snd wc) (Z.of_nat (List.length (snd st)))))
                (Counter (snd st))))
        [("k", ["a"; "b"; "a"]); ("e", [])].
Proof.
  apply (alignment_probabilities_maps_each_key (P := Qc)).
  repeat constructor; simpl; intuition discriminate.
Defined.

(* ================================================================== *)
(** ** [conn_count] on a plain dictionary *)

Lemma counter_get_set (w x : string) (n : Z) (c : tally) :
  counter_get w (dict_set x n c) = if String.eqb w x then n else counter_get w c.
Proof.
  unfold counter_get. destruct (String.eqb_spec w x) as [->|N].
  - rewrite dict_get_set_same. reflexivity.
  - rewrite dict_get_set_other by exact N. reflexivity.
Qed.

Lemma Counter_from_counts (w : string) (xs : list string) :
  forall c : tally,
    counter_get w (fold_left (fun c x => dict_set x (counter_get x c + 1) c) xs c)
    = counter_get w c + Z.of_nat (count_occ string_dec xs w).
Proof.
  induction xs as [|x xs IH]; intros c; cbn [fold_left count_occ]; [lia|].
  rewrite IH, counter_get_set.
  destruct (string_dec x w) as [->|N].
  - rewrite String.eqb_refl. lia.
  - destruct (String.eqb_spec w x) as [->|_]; [contradiction | lia].
Qed.

Lemma Counter_counts (w : string) (xs : list string) :
  counter_get w (Counter xs) = Z.of_nat (count_occ string_dec xs w).
Proof. unfold Counter. rewrite Counter_from_counts. reflexivity. Qed.

Lemma conn_count_plain_from (a : candidates) (lex : list string) :
  forall count : count_table,
    let r := fold_left (fun st key =>
                          let '(count, a) := st in
                          match cand_index key a with
                          | (Ok obs, a') => (dict_set key (Counter obs) count, a')
                          | (Raise _, a') => (count, a')
                          end) lex (count, mkCand false a) in
    snd r = mkCand false a
    /\ forall k : string,
         dict_get k (fst r)
         = if Py.in_list k lex
           then match dict_get k a with
                | Some obs => Some (Counter obs)
                | None => dict_get k count
                end
           else dict_get k count.
Proof.
  induction lex as [|key lex IH]; intros count; cbn [fold_left].
  - cbn. split; reflexivity.
  - assert (CI : cand_index key (mkCand false a)
                 = match dict_get key a with
                   | Some v => (Ok v, mkCand false a)
                   | None => (Raise KeyError, mkCand false a)
                   end) by reflexivity.
    cbv beta iota. rewrite CI. cbv zeta in IH |- *.
    destruct (dict_get key a) as [v|] eqn:G.
    + destruct (IH (dict_set key (Counter v) count)) as [S1 S2].
      split; [exact S1|]. intros k. rewrite S2.
      unfold Py.in_list. cbn [existsb].
      destruct (String.eqb_spec k key) as [->|N]; cbn [orb].
      * rewrite G, dict_get_set_same.
        destruct (existsb (String.eqb key) lex); reflexivity.
      * rewrite dict_get_set_other by exact N. reflexivity.
    + destruct (IH count) as [S1 S2].
      split; [exact S1|]. intros k. rewrite S2.
      unfold Py.in_list. cbn [existsb].
      destruct (String.eqb_spec k key) as [->|N]; cbn [orb]; [|reflexivity].
      rewrite G. destruct (existsb (String.eqb key) lex); reflexivity.
Qed.

(** X6. On a plain dictionary [conn_count] leaves its first argument as it
    is (the KeyError of a missing key is swallowed), and returns a Counter
    for exactly the entries of [lex] that are keys of it; the Counter of a
    key gives every target the number of its occurrences among the
    observations of the key, and 0 to any other string. *)
Theorem conn_count_on_plain_dict (alignments : candidates) (lex : list string) :
  snd (conn_count (mkCand false alignments) lex) = mkCand false alignments
  /\ (forall key : string,
         dict_get key (fst (conn_count (mkCand false alignments) lex))
         = if Py.in_list key lex
           then option_map Counter (dict_get key alignments)
           else None)
  /\ (forall (obs : list string) (w : string),
         counter_get w (Counter obs) = Z.of_nat (count_occ string_dec obs w)).
Proof.
  destruct (conn_count_plain_from alignments lex []) as [S1 S2].
  split; [exact S1|]. split.
  - intros key. unfold conn_count. rewrite S2. cbn [dict_get].
    destruct (Py.in_list key lex); [|reflexivity].
    destruct (dict_get key alignments); reflexivity.
  - intros obs w. apply Counter_counts.
Qed.

(* ================================================================== *)
(** ** Token normalisation *)

Lemma last_opt_snoc {A} (init : list A) (x : A) :
  Py.last_opt (init ++ [x]) = Some x.
Proof.
  unfold Py.last_opt. destruct (init ++ [x]) eqn:E.
  - destruct init; discriminate.
  - rewrite <- E. rewrite length_app. cbn [List.length].
    rewrite nth_error_app2 by lia.
    replace (List.length init + 1 - 1 - List.length init)%nat with 0%nat by lia.
    reflexivity.
Qed.

Lemma snoc_cases {A} (xs : list A) :
  xs = [] \/ exists init x, xs = init ++ [x].
Proof.
  destruct xs as [|a xs]; [left; reflexivity | right].
  exists (removelast (a :: xs)), (last (a :: xs) a).
  apply app_removelast_last. discriminate.
Qed.

Lemma filter_word_removelast (np : list string) (tl : string) :
  Py.last_opt np = Some tl -> is_punct tl = true ->
  filter is_word (removelast np) = filter is_word np.
Proof.
  intros L Pn. destruct (snoc_cases np) as [->|(init & x & ->)]; [discriminate|].
  rewrite last_opt_snoc in L. injection L as ->.
  rewrite removelast_last, filter_app. cbn [filter]. unfold is_word at 3.
  rewrite Pn. cbn. rewrite app_nil_r. reflexivity.
Qed.

Lemma filter_word_list_remove (np r : list string) :
  Py.list_remove "..." np = Some r -> filter is_word r = filter is_word np.
Proof.
  revert r. induction np as [|y np IH]; intros r; cbn [Py.list_remove]; [discriminate|].
  destruct (String.eqb_spec "..." y) as [<-|N].
  - intros [= <-]. cbn [filter]. unfold is_word at 2.
    rewrite String.eqb_refl, andb_false_r. reflexivity.
  - destruct (Py.list_remove "..." np) as [r'|]; [|discriminate].
    intros [= <-]. cbn [filter]. rewrite (IH r' eq_refl). reflexivity.
Qed.

Lemma last_opt_tail {A} (t0 t1 : A) (rest : list A) :
  Py.last_opt (t0 :: t1 :: rest) = Py.last_opt (t1 :: rest).
Proof.
  destruct (snoc_cases (t1 :: rest)) as [E|(init & x & E)]; [discriminate|].
  rewrite E, app_comm_cons, !last_opt_snoc. reflexivity.
Qed.

(** X12. [remove_punct_phrases] only takes away punctuation and a gap
    marker: the tokens that are neither a piece of [string.punctuation] nor
    "..." are the same before and after, in the same order. *)
Theorem remove_punct_phrases_keeps_the_words (tokens : list string) :
  filter is_word (remove_punct_phrases tokens) = filter is_word tokens.
Proof.
  unfold remove_punct_phrases.
  destruct (1 <? List.length tokens)%nat eqn:L; [|reflexivity].
  destruct tokens as [|t0 [|t1 rest]]; try discriminate. clear L.
  set (tokens := t0 :: t1 :: rest).
  set (np1 := if is_punct t0 then t1 :: rest else tokens).
  assert (E1 : filter is_word np1 = filter is_word tokens
               /\ Py.last_opt np1 = Py.last_opt tokens).
  { unfold np1, tokens. destruct (is_punct t0) eqn:P0; [|split; reflexivity].
    split; [|symmetry; apply last_opt_tail].
    assert (W0 : is_word t0 = false) by (unfold is_word; rewrite P0; reflexivity).
    change (filter is_word (t0 :: t1 :: rest))
      with (if is_word t0 then t0 :: filter is_word (t1 :: rest)
            else filter is_word (t1 :: rest)).
    rewrite W0. reflexivity. }
  destruct E1 as [F1 L1].
  set (np2 := match Py.last_opt tokens with
              | Some tl => if is_punct tl then removelast np1 else np1
              | None => np1
              end).
  assert (F2 : filter is_word np2 = filter is_word tokens).
  { unfold np2. destruct (Py.last_opt tokens) as [tl|] eqn:Lt; [|exact F1].
    destruct (is_punct tl) eqn:Pt; [|exact F1].
    rewrite <- F1. apply (filter_word_removelast np1 tl); [congruence | exact Pt]. }
  destruct np2 as [|a np2'] eqn:E2; [exact F2|].
  destruct (opt_eqb (hd_error (a :: np2')) (Some "...")
            || opt_eqb (Py.last_opt (a :: np2')) (Some "...")); [|exact F2].
  destruct (Py.list_remove "..." (a :: np2')) as [r|] eqn:R; [|exact F2].
  rewrite <- F2. apply filter_word_list_remove, R.
Qed.

Lemma set_last_snoc (x w : string) (init : list string) :
  set_last x (init ++ [w]) = init ++ [x].
Proof. unfold set_last. rewrite removelast_last. reflexivity. Qed.

(** The two [if]s of a language rewrite the last token once. *)
Lemma remove_contractions_snoc (init : list string) (w lang : string) :
  remove_contractions (init ++ [w]) lang
  = Ok (Py.join " " (init ++ [contracted lang w])).
Proof.
  unfold remove_contractions, contracted.
  destruct (String.eqb lang "french") eqn:F.
  - apply String.eqb_eq in F. subst lang. cbn [String.eqb Ascii.eqb Bool.eqb].
    rewrite last_opt_snoc. cbn [obind].
    destruct (Py.in_list w ["d'"; "du"; "des"]) eqn:D.
    + rewrite set_last_snoc, last_opt_snoc. cbn. reflexivity.
    + rewrite last_opt_snoc. cbn [obind].
      destruct (Py.in_list w ["aux"; "au"]); [rewrite set_last_snoc|]; reflexivity.
  - cbn [obind]. destruct (String.eqb lang "german") eqn:G; [|reflexivity].
    rewrite last_opt_snoc. cbn [obind].
    destruct (Py.in_list w ["zur"; "zum"]) eqn:D.
    + rewrite set_last_snoc, last_opt_snoc. cbn. reflexivity.
    + rewrite last_opt_snoc. cbn [obind].
      destruct (Py.in_list w ["vom"]); [rewrite set_last_snoc|]; reflexivity.
Qed.

(** X14. [remove_contractions] rewrites the last token of the phrase at
    most, and at most once, whatever the tokens before it are: "d'", "du",
    "des" become "de" and "aux", "au" become "à" in French, "zur", "zum"
    become "zu" and "vom" becomes "von" in German, and the phrase is joined
    by single spaces. On an empty phrase it raises IndexError for these two
    languages and returns the empty string for any other. *)
Theorem remove_contractions_rewrites_the_last_token
    (init : list string) (w lang : string) :
  remove_contractions (init ++ [w]) lang
  = Ok (Py.join " " (init ++ [contracted lang w]))
  /\ remove_contractions [] lang
     = (if String.eqb lang "french" || String.eqb lang "german"
        then Raise IndexError else Ok "").
Proof.
  split; [apply remove_contractions_snoc|].
  unfold remove_contractions.
  destruct (String.eqb lang "french"); cbn; [reflexivity|].
  destruct (String.eqb lang "german"); reflexivity.
Qed.

(** X13. In [parse_alignments] an observation whose last token is a
    contraction is not stored as the contracted phrase: [remove_contractions]
    returns a [str], and the [" ".join] that follows puts a space between
    every two characters of it. *)
Theorem contracted_observation_is_spelled_out
    (key_toks val_toks contractions : list string) (lang : string)
    (k_idx v_idx k v init : list string) (w : string) :
  resolve key_toks k_idx = Ok k ->
  resolve val_toks v_idx = Ok v ->
  remove_punct_phrases v = init ++ [w] ->
  Py.in_list w contractions = true ->
  observation key_toks val_toks contractions lang k_idx v_idx
  = Ok (Py.join " " (remove_punct_phrases k),
        Py.join " " (Py.chars (Py.join " " (init ++ [contracted lang w])))).
Proof.
  intros Rk Rv Rp C. unfold observation. rewrite Rk, Rv. cbn [obind].
  rewrite Rp, last_opt_snoc, C.
  rewrite (remove_contractions_snoc init w lang).
  reflexivity.
Qed.

(** The theorem on the German token "der" aligned to the French token
    "des": the observation stored for "der" is "d e". *)
Lemma contracted_observation_is_spelled_out_witness :
  observation ["der"] ["des"] ["d'"; "du"; "des"; "aux"; "au"] "french" ["0"] ["0"]
  = Ok ("der", "d e").
Proof.
  apply (contracted_observation_is_spelled_out
           ["der"] ["des"] ["d'"; "du"; "des"; "aux"; "au"] "french"
           ["0"] ["0"] ["der"] ["des"] [] "des"); reflexivity.
Defined.

(* ================================================================== *)
(** ** The filters whose effect is a plain selection *)

Section DictMore.
Context {K : Type} `{KeyOk K} {V : Type}.

Lemma dict_set_get_id (k : K) (v : V) (d : dict K V) :
  dict_get k d = Some v -> dict_set k v d = d.
Proof.
  induction d as [|[k' v'] d IH]; simpl; [discriminate|].
  destruct (keqb k k') eqn:E.
  - intros [= ->]. reflexivity.
  - intros G. rewrite IH by exact G. reflexivity.
Qed.

Lemma dict_set_set (k : K) (v1 v2 : V) (d : dict K V) :
  dict_set k v2 (dict_set k v1 d) = dict_set k v2 d.
Proof.
  induction d as [|[k' v'] d IH]; simpl.
  - rewrite keqb_refl. reflexivity.
  - destruct (keqb k k') eqn:E; simpl; rewrite E; [reflexivity|].
    rewrite IH. reflexivity.
Qed.

Lemma dict_get_app_fresh (k : K) (pre post : dict K V) :
  ~ In k (keys pre) -> dict_get k (pre ++ post) = dict_get k post.
Proof.
  induction pre as [|[k' v'] pre IH]; simpl; intros N; [reflexivity|].
  rewrite keqb_neq by (intros ->; apply N; auto). apply IH. tauto.
Qed.

Lemma dict_set_app_fresh (k : K) (v : V) (pre post : dict K V) :
  ~ In k (keys pre) -> dict_set k v (pre ++ post) = pre ++ dict_set k v post.
Proof.
  induction pre as [|[k' v'] pre IH]; simpl; intros N; [reflexivity|].
  rewrite keqb_neq by (intros ->; apply N; auto).
  rewrite IH by tauto. reflexivity.
Qed.

Lemma dict_remove_app_fresh (k : K) (pre post : dict K V) :
  ~ In k (keys pre) -> dict_remove k (pre ++ post) = pre ++ dict_remove k post.
Proof.
  induction pre as [|[k' v'] pre IH]; simpl; intros N; [reflexivity|].
  rewrite keqb_neq by (intros ->; apply N; auto).
  rewrite IH by tauto. reflexivity.
Qed.

(** Deleting, in their order, those of the entries chosen by [sel] that
    [drop] selects leaves the other entries as they stand. *)
Lemma remove_selected_of (sel drop : K * V -> bool) (xs : dict K V) :
  forall pre : dict K V,
    NoDup (keys pre ++ keys xs) ->
    fold_left (fun d x => if drop x then dict_remove (fst x) d else d)
              (filter sel xs) (pre ++ xs)
    = pre ++ filter (fun x => negb (sel x && drop x)) xs.
Proof.
  induction xs as [|[k v] xs IH]; intros pre ND; cbn [fold_left filter].
  - reflexivity.
  - assert (N : ~ In k (keys pre)).
    { intros I. apply NoDup_remove_2 in ND. apply ND, in_or_app. auto. }
    assert (Keep : fold_left (fun d x => if drop x then dict_remove (fst x) d else d)
                             (filter sel xs) (pre ++ (k, v) :: xs)
                   = pre ++ (k, v) :: filter (fun x => negb (sel x && drop x)) xs).
    { change (pre ++ (k, v) :: xs) with (pre ++ [(k, v)] ++ xs).
      rewrite app_assoc. rewrite IH.
      - rewrite <- app_assoc. reflexivity.
      - unfold keys in *. rewrite map_app. cbn [map fst].
        rewrite <- app_assoc. exact ND. }
    destruct (sel (k, v)); cbn [andb negb fold_left]; [|exact Keep].
    cbn [fst]. destruct (drop (k, v)); cbn [negb]; [|exact Keep].
    rewrite dict_remove_app_fresh by exact N. cbn [dict_remove].
    rewrite keqb_refl. apply IH. apply NoDup_remove_1 in ND. exact ND.
Qed.

Lemma remove_selected (drop : K * V -> bool) (xs : dict K V) :
  NoDup (keys xs) ->
  fold_left (fun d x => if drop x then dict_remove (fst x) d else d) xs xs
  = filter (fun x => negb (drop x)) xs.
Proof.
  intros ND.
  pose proof (remove_selected_of (fun _ => true) drop xs [] ND) as E.
  cbn [app andb] in E.
  rewrite (forallb_filter_id (fun _ => true)) in E by (apply forallb_forall; reflexivity).
  exact E.
Qed.

End DictMore.

Section StoreMore.
Context {P : Type}.
Implicit Types (h : heap P) (l : loc) (t : table P).

Lemma store_load_id l h : store l (load l h) h = h.
Proof.
  unfold load. revert l. induction h as [|x h IH]; intros [|l]; simpl; auto.
  rewrite IH. reflexivity.
Qed.

Lemma store_store l t1 t2 h : store l t2 (store l t1 h) = store l t2 h.
Proof.
  revert l. induction h as [|x h IH]; intros [|l]; simpl; auto.
  rewrite IH. reflexivity.
Qed.

Lemma store_app_new h t t' : store (List.length h) t' (h ++ [t]) = h ++ [t'].
Proof. induction h as [|x h IH]; simpl; [reflexivity | rewrite IH; reflexivity]. Qed.

Lemma for_map {A B} (g : A -> B) (xs : list A) (body : B -> M P unit) :
  forall h, for_ (map g xs) body h = for_ xs (fun x => body (g x)) h.
Proof.
  induction xs as [|x xs IH]; intros h; cbn [map]; [reflexivity|].
  rewrite !for_cons. destruct (body (g x) h) as [h1 [[]|e]]; [apply IH | reflexivity].
Qed.

End StoreMore.

Section Loops.
Context {P : Type}.

Lemma del2_present (f : loc) (s k : string) (h : heap P) (d : dict string P) :
  dict_get s (load f h) = Some d -> dict_mem k d = true ->
  del2 f s k h = (store f (dict_set s (dict_remove k d) (load f h)) h, Ok tt).
Proof.
  unfold del2, bind, pop2, dict_index, dict_mem. intros -> M.
  destruct (dict_get k d); [reflexivity | discriminate].
Qed.

(** A loop over the entries of one source that deletes, in the object [f],
    the entries that [drop] selects. *)
Lemma drop_loop (f : loc) (s : string) (drop : string * P -> bool)
    (body : string * P -> M P unit) :
  (forall x h d,
      dict_get s (load f h) = Some d -> dict_mem (fst x) d = true ->
      body x h
      = (if drop x then store f (dict_set s (dict_remove (fst x) d) (load f h)) h
         else h, Ok tt)) ->
  forall xs : dict string P,
    NoDup (keys xs) ->
    forall (h : heap P) (d : dict string P),
      (f < List.length h)%nat ->
      dict_get s (load f h) = Some d ->
      (forall x, In x xs -> dict_mem (fst x) d = true) ->
      for_ xs body h
      = (store f (dict_set s
                    (fold_left (fun d x => if drop x then dict_remove (fst x) d else d)
                               xs d)
                    (load f h)) h, Ok tt).
Proof.
  intros Spec. induction xs as [|x xs IH]; intros ND h d L G Mem.
  - cbn [fold_left]. rewrite dict_set_get_id by exact G.
    rewrite store_load_id. reflexivity.
  - rewrite for_cons. rewrite (Spec x h d G (Mem x (or_introl eq_refl))).
    cbn [fold_left]. inversion ND as [|? ? NI ND']; subst.
    destruct (drop x).
    + rewrite (IH ND' _ (dict_remove (fst x) d)).
      * rewrite load_store_same by exact L.
        rewrite dict_set_set, store_store. reflexivity.
      * rewrite length_store. exact L.
      * rewrite load_store_same by exact L. apply dict_get_set_same.
      * intros x' I. unfold dict_mem.
        rewrite dict_get_remove_other.
        -- apply (Mem x'). right; exact I.
        -- intros E. apply NI. rewrite <- E. apply in_map, I.
    + apply (IH ND' h d L G). intros x' I. apply Mem. right; exact I.
Qed.

(** A loop over the sources that rewrites, in the object [f], the entry of
    each source by [g]. *)
Lemma source_loop (f : loc) (g : string * dict string P -> dict string P)
    (inner_loop : string * dict string P -> M P unit)
    (Q : string * dict string P -> Prop) :
  (forall st h,
      Q st ->
      (f < List.length h)%nat ->
      dict_get (fst st) (load f h) = Some (snd st) ->
      inner_loop st h = (store f (dict_set (fst st) (g st) (load f h)) h, Ok tt)) ->
  forall (t pre : table P) (h : heap P),
    Forall Q t ->
    NoDup (keys pre ++ keys t) ->
    (f < List.length h)%nat ->
    load f h = pre ++ t ->
    for_ t inner_loop h
    = (store f (pre ++ map (fun st => (fst st, g st)) t) h, Ok tt).
Proof.
  intros Spec. induction t as [|[s d] t IH]; intros pre h Qt ND L E.
  - cbn [map]. rewrite <- E, store_load_id. reflexivity.
  - assert (N : ~ In s (keys pre)).
    { intros I. apply NoDup_remove_2 in ND. apply ND, in_or_app. auto. }
    inversion Qt as [|? ? Qs Qt']; subst.
    rewrite for_cons. rewrite (Spec (s, d) h Qs L).
    + cbn [fst snd]. rewrite E. rewrite dict_set_app_fresh by exact N.
      cbn [dict_set]. rewrite (keqb_refl (K := string)).
      rewrite (IH (pre ++ [(s, g (s, d))])).
      * rewrite store_store. cbn [map fst snd]. rewrite <- app_assoc. reflexivity.
      * exact Qt'.
      * unfold keys in *. rewrite map_app. cbn [map fst].
        rewrite <- app_assoc. exact ND.
      * rewrite length_store. exact L.
      * rewrite load_store_same by exact L. rewrite <- app_assoc. reflexivity.
    + cbn [fst snd]. rewrite E. rewrite dict_get_app_fresh by exact N.
      cbn [dict_get]. rewrite (keqb_refl (K := string)). reflexivity.
Qed.

End Loops.

Section Threshold.
Context {P : Type} `{Number P}.
Local Open Scope store_scope.

Lemma threshold_body (f : loc) (wt pt : P) (source : string) (x : string * P)
    (h : heap P) (d : dict string P) :
  dict_get source (load f h) = Some d -> dict_mem (fst x) d = true ->
  (let '(conn, count) := x in
   (when (n_tokens conn =? 1)%nat then
      when (num_ltb count wt) then del2 f source conn) ;;
   (when (1 <? n_tokens conn)%nat then
      when (num_ltb count pt) then del2 f source conn)) h
  = (if below_threshold wt pt x
     then store f (dict_set source (dict_remove (fst x) d) (load f h)) h
     else h, Ok tt).
Proof.
  destruct x as [conn count]. cbn [fst snd]. intros G Mem.
  unfold below_threshold. cbn [fst snd].
  pose proof (del2_present f source conn h d G Mem) as D.
  destruct (n_tokens conn) as [|[|n]]; cbn [Nat.eqb Nat.ltb Nat.leb andb orb].
  - reflexivity.
  - destruct (num_ltb count wt); unfold bind; [rewrite D|]; reflexivity.
  - destruct (num_ltb count pt); unfold bind; cbn [ret]; [rewrite D|]; reflexivity.
Qed.

Lemma unique_keys_Forall (t : table P) :
  unique_keys t -> Forall (fun st => NoDup (keys (snd st))) t.
Proof.
  intros [_ NDi]. apply Forall_forall. intros [s d] I. apply (NDi s d I).
Qed.

(** X7. On a table with unique keys [filter_most_common_conns] returns
    normally, and the table it returns (a new object) has every source key
    of its argument, in the same order, with the targets that are not below
    their threshold, in their order and with their probabilities: a target
    of one token is dropped when its probability is less than
    [word_threshold], a target of several tokens when it is less than
    [phrase_threshold], and a target without any token (the empty string)
    is never dropped. *)
Theorem filter_most_common_conns_is_a_filter (l : loc) (wt pt : P) (h : heap P) :
  (l < List.length h)%nat ->
  unique_keys (load l h) ->
  filter_most_common_conns l wt pt h
  = (h ++ [map (fun st => (fst st,
                           filter (fun cc => negb (below_threshold wt pt cc)) (snd st)))
               (load l h)],
     Ok (List.length h)).
Proof.
  intros L U. pose proof (unique_keys_Forall _ U) as NDi. destruct U as [ND _].
  unfold filter_most_common_conns.
  unfold bind at 1, deepcopy. unfold bind at 1, read.
  rewrite load_app_old by exact L.
  set (f := List.length h). set (t := load l h) in *.
  unfold bind at 1.
  match goal with
  | |- context [for_ t ?b (h ++ [t])] =>
      rewrite (source_loop f
                 (fun st => filter (fun cc => negb (below_threshold wt pt cc)) (snd st))
                 b (fun st => NoDup (keys (snd st)))) with (t := t) (pre := [])
  end.
  - cbn [app ret]. unfold f. rewrite store_app_new. reflexivity.
  - intros [s d] h1 NDd L1 G1. cbn [fst snd] in *.
    match goal with
    | |- context [for_ d ?b h1] =>
        rewrite (drop_loop f s (below_threshold wt pt) b
                   (fun x h2 d2 => threshold_body f wt pt s x h2 d2)
                   d NDd h1 d L1 G1)
    end.
    + rewrite (remove_selected (below_threshold wt pt) d NDd). reflexivity.
    + intros x Ix. apply dict_mem_In. apply in_map, Ix.
  - exact NDi.
  - exact ND.
  - unfold f. rewrite length_app. cbn. lia.
  - unfold f. apply load_app_new.
Qed.

End Threshold.

Section SelectionFilters.
Context {P : Type} `{Number P}.

(** X9. For the languages "german" and "french", and on a table with unique
    keys, [remove_pronouns] returns normally a new table that has every
    source key of its argument, in the same order, with exactly the targets
    none of whose tokens is a pronoun of the language, in their order and
    with their probabilities. *)
Theorem remove_pronouns_is_a_filter (l : loc) (lang : string)
    (pronouns : list string) (h : heap P) :
  pronoun_list lang = Some pronouns ->
  (l < List.length h)%nat ->
  unique_keys (load l h) ->
  remove_pronouns l lang h
  = (h ++ [map (fun st => (fst st,
                           filter (fun cc => negb (has_pronoun pronouns (fst cc)))
                                  (snd st)))
               (load l h)],
     Ok (List.length h)).
Proof.
  intros PL L U. pose proof (unique_keys_Forall _ U) as NDi. destruct U as [ND _].
  unfold remove_pronouns. rewrite PL.
  unfold bind at 1, deepcopy. unfold bind at 1, read.
  rewrite load_app_old by exact L.
  set (f := List.length h). set (t := load l h) in *.
  unfold bind at 1.
  match goal with
  | |- context [for_ t ?b (h ++ [t])] =>
      rewrite (source_loop f
                 (fun st => filter (fun cc => negb (has_pronoun pronouns (fst cc)))
                                   (snd st))
                 b (fun st => NoDup (keys (snd st)))) with (t := t) (pre := [])
  end.
  - cbn [app ret]. unfold f. rewrite store_app_new. reflexivity.
  - intros [s d] h1 NDd L1 G1. cbn [fst snd] in *.
    unfold keys at 1. rewrite for_map.
    match goal with
    | |- context [for_ d ?b h1] =>
        rewrite (drop_loop f s (fun x => has_pronoun pronouns (fst x)) b)
          with (d := d)
    end.
    + rewrite (remove_selected (fun x => has_pronoun pronouns (fst x)) d NDd).
      reflexivity.
    + intros x h2 d2 G2 M2. cbv beta zeta. unfold bind, use_var, lift_opt, ret.
      unfold has_pronoun.
      destruct (existsb (fun p => Py.in_list p (Py.split (fst x))) pronouns);
        [apply (del2_present f s (fst x) h2 d2 G2 M2) | reflexivity].
    + exact NDd.
    + exact L1.
    + exact G1.
    + intros x Ix. apply dict_mem_In. apply in_map, Ix.
  - exact NDi.
  - exact ND.
  - unfold f. rewrite length_app. cbn. lia.
  - unfold f. apply load_app_new.
Qed.

(** X8. On a table with unique keys each of whose source keys with a target
    is a key of the count table, [remove_low_counts] returns normally a new
    table that has every source key of its argument, in the same order,
    with exactly the targets whose count is not below the minimum
    ([word_count] for a target of one token, [phrase_count] for any other,
    the empty string included); a target that the Counter of its source
    lacks counts 0. *)
Theorem remove_low_counts_is_a_filter (l : loc) (count_dict : count_table)
    (wc pc : Z) (h : heap P) :
  (l < List.length h)%nat ->
  unique_keys (load l h) ->
  (forall s d, In (s, d) (load l h) -> d <> [] -> dict_mem s count_dict = true) ->
  remove_low_counts l count_dict wc pc h
  = (h ++ [map (fun st => (fst st,
                           filter (fun cc => negb (low_count count_dict wc pc
                                                               (fst st) (fst cc)))
                                  (snd st)))
               (load l h)],
     Ok (List.length h)).
Proof.
  intros L U Cov. pose proof (unique_keys_Forall _ U) as NDi. destruct U as [ND _].
  unfold remove_low_counts.
  unfold bind at 1, deepcopy. unfold bind at 1, read.
  rewrite load_app_old by exact L.
  set (f := List.length h). set (t := load l h) in *.
  unfold bind at 1.
  match goal with
  | |- context [for_ t ?b (h ++ [t])] =>
      rewrite (source_loop f
                 (fun st => filter (fun cc => negb (low_count count_dict wc pc
                                                              (fst st) (fst cc)))
                                   (snd st))
                 b (fun st => NoDup (keys (snd st))
                              /\ (snd st <> [] -> dict_mem (fst st) count_dict = true)))
        with (t := t) (pre := [])
  end.
  - cbn [app ret]. unfold f. rewrite store_app_new. reflexivity.
  - intros [s d] h1 [NDd Cv] L1 G1. cbn [fst snd] in *.
    destruct d as [|kv d'].
    { cbn [keys map filter]. rewrite dict_set_get_id by exact G1.
      rewrite store_load_id. reflexivity. }
    set (d := kv :: d') in *.
    specialize (Cv ltac:(discriminate)). unfold dict_mem in Cv.
    destruct (dict_get s count_dict) as [c|] eqn:Gc; [|discriminate].
    unfold keys at 1. rewrite for_map.
    match goal with
    | |- context [for_ d ?b h1] =>
        rewrite (drop_loop f s (fun x => low_count count_dict wc pc s (fst x)) b)
          with (d := d)
    end.
    + rewrite (remove_selected (fun x => low_count count_dict wc pc s (fst x)) d NDd).
      reflexivity.
    + intros x h2 d2 G2 M2. unfold low_count_target, low_count, count_lookup, dict_index.
      rewrite Gc. cbn [obind]. unfold bind at 1, lift.
      destruct (n_tokens (fst x) =? 1)%nat.
      * unfold bind at 1. destruct (counter_get (fst x) c <? wc)%Z; [|reflexivity].
        apply (del2_present f s (fst x) h2 d2 G2 M2).
      * unfold bind at 1. destruct (counter_get (fst x) c <? pc)%Z; [|reflexivity].
        apply (del2_present f s (fst x) h2 d2 G2 M2).
    + exact NDd.
    + exact L1.
    + exact G1.
    + intros x Ix. apply dict_mem_In. apply in_map, Ix.
  - apply Forall_forall. intros [s d] I. cbn [fst snd]. split.
    + rewrite Forall_forall in NDi. apply (NDi (s, d) I).
    + apply (Cov s d I).
  - exact ND.
  - unfold f. rewrite length_app. cbn. lia.
  - unfold f. apply load_app_new.
Qed.

End SelectionFilters.

Lemma unique_aux_NoDup (xs : list string) :
  NoDup xs ->
  forall seen, (forall x, In x xs -> ~ In x seen) ->
  Py.unique_aux String.eqb xs seen = xs.
Proof.
  induction 1 as [|x xs NI ND IH]; intros seen Dis; cbn [Py.unique_aux]; [reflexivity|].
  destruct (existsb (String.eqb x) seen) eqn:E.
  - exfalso. apply existsb_exists in E. destruct E as (y & I & E).
    apply String.eqb_eq in E. subst y. apply (Dis x); [left; reflexivity | exact I].
  - f_equal. apply IH. intros y Iy [<-|I]; [contradiction|].
    apply (Dis y); [right; exact Iy | exact I].
Qed.

Lemma unique_NoDup (xs : list string) : NoDup xs -> Py.unique String.eqb xs = xs.
Proof. intros ND. apply unique_aux_NoDup; [exact ND | intros x _ []]. Qed.

Lemma filter_keys {V} (p : string -> bool) (d : dict string V) :
  filter p (keys d) = map fst (filter (fun x => p (fst x)) d).
Proof.
  induction d as [|[k v] d IH]; cbn [keys map filter fst]; [reflexivity|].
  destruct (p k); cbn [map fst]; unfold keys in IH; rewrite IH; reflexivity.
Qed.

Section SingleWords.
Context {P : Type} `{Number P}.

(** X10. For the languages "french" and "german", and on a table with
    unique keys, [filter_single_words] returns its argument, which then
    holds every source key it held, in the same order, with exactly the
    targets that are not a single token of the deletion list of the
    language. *)
Theorem filter_single_words_is_a_filter_in_place (l : loc) (lang : string)
    (del_words : list string) (h : heap P) :
  single_del_words lang = Some del_words ->
  (l < List.length h)%nat ->
  unique_keys (load l h) ->
  filter_single_words l lang h
  = (store l (map (fun st => (fst st,
                              filter (fun cc => negb (single_del_word del_words (fst cc)))
                                     (snd st)))
                  (load l h)) h,
     Ok l).
Proof.
  intros DW L U. pose proof (unique_keys_Forall _ U) as NDi. destruct U as [ND _].
  unfold filter_single_words. rewrite DW.
  unfold bind at 1, read. set (t := load l h) in *.
  unfold bind at 1. unfold keys at 1. rewrite for_map.
  match goal with
  | |- context [for_ t ?b h] =>
      rewrite (source_loop l
                 (fun st => filter (fun cc => negb (single_del_word del_words (fst cc)))
                                   (snd st))
                 b (fun st => NoDup (keys (snd st)))) with (t := t) (pre := [])
  end.
  - reflexivity.
  - intros [s d] h1 NDd L1 G1. cbn [fst snd] in *.
    unfold bind at 1, inner, dict_index. rewrite G1.
    rewrite unique_NoDup by (apply NoDup_filter, NDd).
    rewrite filter_keys, for_map.
    match goal with
    | |- context [for_ ?xs ?b h1] =>
        rewrite (drop_loop l s (fun x => Py.in_list (fst x) del_words) b)
          with (d := d)
    end.
    + pose proof (remove_selected_of (fun x : string * P => (n_tokens (fst x) =? 1)%nat)
                    (fun x => Py.in_list (fst x) del_words) d [] NDd) as E.
      cbn [app] in E. rewrite E. reflexivity.
    + intros x h2 d2 G2 M2. unfold bind, use_var, lift_opt, ret.
      destruct (Py.in_list (fst x) del_words);
        [apply (del2_present l s (fst x) h2 d2 G2 M2) | reflexivity].
    + unfold keys. rewrite <- (filter_keys (fun s => (n_tokens s =? 1)%nat) d).
      apply NoDup_filter, NDd.
    + exact L1.
    + exact G1.
    + intros x Ix. apply filter_In in Ix. apply dict_mem_In. apply in_map, Ix.
  - exact NDi.
  - exact ND.
  - exact L.
  - reflexivity.
Qed.

End SingleWords.

(** The four theorems on small tables. *)
Lemma filter_most_common_conns_is_a_filter_witness :
  filter_most_common_conns 0%nat 0.5%float 0.5%float
    [[("k", [("a", 0.25%float); ("b c", 0.75%float); ("", 0.125%float)])]]
  = ([[("k", [("a", 0.25%float); ("b c", 0.75%float); ("", 0.125%float)])];
      [("k", [("b c", 0.75%float); ("", 0.125%float)])]],
     Ok 1%nat).
Proof.
  etransitivity.
  - apply (filter_most_common_conns_is_a_filter (P := float)).
    + simpl. lia.
    + split; [repeat constructor; simpl; tauto|].
      intros s d [E|[]]. injection E as <- <-.
      repeat constructor; simpl; intuition discriminate.
  - vm_compute. reflexivity.
Defined.

Lemma remove_low_counts_is_a_filter_witness :
  remove_low_counts 0%nat [("k", [("b", 3)])] 1 1
    [[("k", [("a", 0.25%float); ("b", 0.75%float)])]]
  = ([[("k", [("a", 0.25%float); ("b", 0.75%float)])];
      [("k", [("b", 0.75%float)])]],
     Ok 1%nat).
Proof.
  etransitivity.
  - apply (remove_low_counts_is_a_filter (P := float)).
    + simpl. lia.
    + split; [repeat constructor; simpl; tauto|].
      intros s d [E|[]]. injection E as <- <-.
      repeat constructor; simpl; intuition discriminate.
    + intros s d [E|[]] _. injection E as <- _. reflexivity.
  - vm_compute. reflexivity.
Defined.

Lemma remove_pronouns_is_a_filter_witness :
  remove_pronouns 0%nat "german"
    [[("k", [("er geht", 0.5%float); ("doch", 0.5%float)])]]
  = ([[("k", [("er geht", 0.5%float); ("doch", 0.5%float)])];
      [("k", [("doch", 0.5%float)])]],
     Ok 1%nat).
Proof.
  etransitivity.
  - apply (remove_pronouns_is_a_filter (P := float) 0%nat "german"
             ["ich"; "du"; "er"; "sie"; "es"; "wir"; "ihr"; "sie"]).
    + reflexivity.
    + simpl. lia.
    + split; [repeat constructor; simpl; tauto|].
      intros s d [E|[]]. injection E as <- <-.
      repeat constructor; simpl; intuition discriminate.
  - vm_compute. reflexivity.
Defined.

Lemma filter_single_words_is_a_filter_in_place_witness :
  filter_single_words 0%nat "french"
    [[("k", [("dass", 0.5%float); ("doch", 0.5%float)])]]
  = ([[("k", [("doch", 0.5%float)])]], Ok 0%nat).
Proof.
  etransitivity.
  - apply (filter_single_words_is_a_filter_in_place (P := float) 0%nat "french"
             ["dass"; "wenn"; "auf"; "vor"; "in"; "mit"]).
    + reflexivity.
    + simpl. lia.
    + split; [repeat constructor; simpl; tauto|].
      intros s d [E|[]]. injection E as <- <-.
      repeat constructor; simpl; intuition discriminate.
  - vm_compute. reflexivity.
Defined.

(* ================================================================== *)
(** ** A gap marker inside a token *)

Section Raising.
Context {P : Type}.

Lemma raises_ret S {A} (a : A) : raises_in (P := P) S (ret a).
Proof. intros h h' e [=]. Qed.

Lemma raises_bind S {A B} (m : M P A) (f : A -> M P B) :
  raises_in (P := P) S m -> (forall a, raises_in (P := P) S (f a)) -> raises_in (P := P) S (bind m f).
Proof.
  intros Hm Hf h h' e. unfold bind. destruct (m h) as [h1 [a|e1]] eqn:E.
  - apply Hf.
  - intros [= <- <-]. eapply Hm, E.
Qed.

Lemma raises_for S {B} (xs : list B) (body : B -> M P unit) :
  (forall x, raises_in (P := P) S (body x)) -> raises_in (P := P) S (for_ xs body).
Proof.
  intros Hb. unfold for_. generalize tt.
  induction xs as [|x xs IH]; intros u; cbn [foldM].
  - apply raises_ret.
  - apply raises_bind; [apply Hb | exact IH].
Qed.

Lemma raises_lift_opt (S : exn -> Prop) {A} (e : exn) (o : option A) :
  S e -> raises_in (P := P) S (lift_opt e o).
Proof. intros Se h h' e'. destruct o; intros [=]. subst. exact Se. Qed.

Lemma raises_pop2 (S : exn -> Prop) l s k : S KeyError -> raises_in (P := P) S (pop2 (P := P) l s k).
Proof.
  intros Sk h h' e. unfold pop2, dict_index.
  destruct (dict_get s (load l h)); [destruct (dict_get k _)|]; intros [=]; subst; exact Sk.
Qed.

Lemma raises_set2 (S : exn -> Prop) l s k v :
  S KeyError -> raises_in (P := P) S (set2 (P := P) l s k v).
Proof.
  intros Sk h h' e. unfold set2, dict_index.
  destruct (dict_get s (load l h)); intros [=]; subst; exact Sk.
Qed.

Lemma raises_try (S : exn -> Prop) (m : M P unit) :
  raises_in (P := P) (fun e => e = KeyError \/ S e) m -> raises_in (P := P) S (try_KeyError m).
Proof.
  intros Hm h h' e. unfold try_KeyError. destruct (m h) as [h1 [a|e1]] eqn:E.
  - intros [=].
  - destruct (Hm _ _ _ E) as [->|Se]; [intros [=]|].
    destruct e1; intros [=]; subst; exact Se.
Qed.

Lemma raises_deepcopy S l : raises_in (P := P) S (deepcopy (P := P) l).
Proof. intros h h' e [=]. Qed.

Lemma raises_read S l : raises_in (P := P) S (read (P := P) l).
Proof. intros h h' e [=]. Qed.

(** A loop that completes has completed each of its rounds. *)
Lemma for_Ok_inv {B} (xs : list B) (body : B -> M P unit) :
  forall h h', for_ xs body h = (h', Ok tt) ->
  forall x, In x xs -> exists h1 h2, body x h1 = (h2, Ok tt).
Proof.
  induction xs as [|y xs IH]; intros h h' E x I; [destruct I|].
  rewrite for_cons in E. destruct (body y h) as [h1 [[]|e]] eqn:Bd; [|discriminate].
  destruct I as [<-|I]; [exists h, h1; exact Bd | eapply IH; eassumption].
Qed.

End Raising.

Lemma list_remove_absent (x : string) (xs : list string) :
  Py.in_list x xs = false -> Py.list_remove x xs = None.
Proof.
  unfold Py.in_list. induction xs as [|y xs IH]; cbn [existsb Py.list_remove];
    [reflexivity|].
  destruct (String.eqb x y); cbn [orb]; [discriminate|].
  intros E. rewrite IH by exact E. reflexivity.
Qed.

Section EmbeddedGap.
Context {P : Type} `{Number P} `{Text}.

Lemma remove_incomplete_phrases_raises l :
  raises_in (P := P) (fun e => e = ValueError) (remove_incomplete_phrases l).
Proof.
  unfold remove_incomplete_phrases.
  apply raises_bind; [apply raises_deepcopy | intros f].
  apply raises_bind; [apply raises_read | intros d].
  apply raises_bind; [|intros; apply raises_ret].
  apply raises_for. intros [s targets]. apply raises_for. intros target.
  cbv zeta. destruct (_ && _); [|apply raises_ret].
  apply raises_for. intros cmp.
  apply raises_bind; [apply raises_lift_opt; reflexivity | intros clean].
  destruct (completes _ _ _); [|apply raises_ret].
  apply raises_try. unfold del2.
  apply raises_bind; [apply raises_pop2; left; reflexivity | intros; apply raises_ret].
Qed.

Lemma complete_phrases_raises l lex :
  raises_in (P := P) (fun e => e = ValueError) (complete_phrases l lex).
Proof.
  unfold complete_phrases.
  apply raises_bind; [apply raises_deepcopy | intros f].
  apply raises_bind; [apply raises_read | intros d].
  apply raises_bind; [|intros; apply raises_ret].
  apply raises_for. intros [s targets]. apply raises_for. intros target.
  cbv zeta. destruct (_ && _); [|apply raises_ret].
  apply raises_for. intros cmp.
  apply raises_bind; [apply raises_lift_opt; reflexivity | intros clean].
  destruct (completes _ _ _); [|apply raises_ret].
  apply raises_try.
  apply raises_bind; [apply raises_pop2; left; reflexivity | intros v].
  apply raises_set2. left; reflexivity.
Qed.

(** X11. A target of at least three tokens that contains "..." inside a
    token, and not as a token of its own ("und so weiter..."), makes
    [remove_incomplete_phrases] raise ValueError, whatever else the table
    holds, and [complete_phrases] too as soon as the lexicon it is given is
    not empty: both remove "..." from the token list of such a target, where
    it is not, and this [remove] stands outside the [try]. *)
Theorem gap_inside_a_token_raises_ValueError (l : loc) (h : heap P)
    (s : string) (d : dict string P) (target : string) :
  In (s, d) (load l h) ->
  In target (keys d) ->
  gap_inside target = true ->
  snd (remove_incomplete_phrases l h) = Raise ValueError
  /\ forall lex, lex <> [] -> snd (complete_phrases l lex h) = Raise ValueError.
Proof.
  intros Is It G. unfold gap_inside in G.
  apply andb_true_iff in G. destruct G as [G NT].
  apply negb_true_iff in NT. pose proof (list_remove_absent _ _ NT) as LR.
  assert (L : (l < List.length h)%nat).
  { destruct (Nat.lt_ge_cases l (List.length h)) as [L|L]; [exact L|].
    unfold load in Is. rewrite nth_overflow in Is by exact L. destruct Is. }
  split.
  - destruct (remove_incomplete_phrases l h) as [h' [a|e]] eqn:E; cbn [snd].
    + exfalso. unfold remove_incomplete_phrases in E.
      unfold bind at 1, deepcopy in E. unfold bind at 1, read in E.
      unfold bind at 1 in E.
      match type of E with
      | context [for_ ?xs ?b ?h0] => destruct (for_ xs b h0) as [h1 [[]|e]] eqn:F
      end; [|discriminate].
      rewrite (load_app_old l h (load l h) L) in F.
      destruct (for_Ok_inv _ _ _ _ F (s, d) Is) as (h2 & h3 & F2).
      cbv beta iota in F2.
      destruct (for_Ok_inv _ _ _ _ F2 target It) as (h4 & h5 & F3).
      cbv beta zeta in F3. rewrite G in F3.
      destruct (for_Ok_inv _ _ _ _ F3 target It) as (h6 & h7 & F4).
      cbv beta in F4. rewrite LR in F4. discriminate.
    + f_equal. apply (remove_incomplete_phrases_raises l _ _ _ E).
  - intros lex NE. destruct lex as [|c0 lex]; [contradiction|].
    destruct (complete_phrases l (c0 :: lex) h) as [h' [a|e]] eqn:E; cbn [snd].
    + exfalso. unfold complete_phrases in E.
      unfold bind at 1, deepcopy in E. unfold bind at 1, read in E.
      unfold bind at 1 in E.
      match type of E with
      | context [for_ ?xs ?b ?h0] => destruct (for_ xs b h0) as [h1 [[]|e]] eqn:F
      end; [|discriminate].
      rewrite (load_app_old l h (load l h) L) in F.
      destruct (for_Ok_inv _ _ _ _ F (s, d) Is) as (h2 & h3 & F2).
      cbv beta iota in F2.
      destruct (for_Ok_inv _ _ _ _ F2 target It) as (h4 & h5 & F3).
      cbv beta zeta in F3. rewrite G in F3.
      destruct (for_Ok_inv _ _ _ _ F3 c0 (or_introl eq_refl)) as (h6 & h7 & F4).
      cbv beta in F4. rewrite LR in F4. discriminate.
    + f_equal. apply (complete_phrases_raises l _ _ _ _ E).
Qed.
End EmbeddedGap.

(** The theorem on a table whose only target ends in "weiter...". *)
Lemma gap_inside_a_token_raises_ValueError_witness :
  snd (remove_incomplete_phrases 0%nat [[("k", [("und so weiter...", 1%float)])]])
  = Raise ValueError
  /\ snd (complete_phrases 0%nat ["tout de même"]
                           [[("k", [("und so weiter...", 1%float)])]])
     = Raise ValueError.
Proof.
  destruct (gap_inside_a_token_raises_ValueError (P := float) 0%nat
              [[("k", [("und so weiter...", 1%float)])]]
              "k" [("und so weiter...", 1%float)] "und so weiter..."
              (or_introl eq_refl) (or_introl eq_refl) eq_refl) as [A B].
  split; [exact A|]. apply B. discriminate.
Defined.

(* ================================================================== *)
(** ** More on the rounds of [find_conns] *)

Section RoundMore.
Context {P : Type} `{Number P} `{Text}.

Lemma de_conn_alignments_commit (lang : string) (s : FindAlignments P) (r : table P)
    (n : list string) :
  de_conn_alignments (commit lang s r n)
  = (if is_french lang then de_conn_alignments s
     else dict_update (de_conn_alignments s) r).
Proof. unfold commit. destruct (is_french lang); reflexivity. Qed.

Lemma fr_conn_alignments_commit (lang : string) (s : FindAlignments P) (r : table P)
    (n : list string) :
  fr_conn_alignments (commit lang s r n)
  = (if is_french lang then dict_update (fr_conn_alignments s) r
     else fr_conn_alignments s).
Proof. unfold commit. destruct (is_french lang); reflexivity. Qed.

Lemma de_conn_alignments_update_count (lang : string) (s : FindAlignments P)
    (c : count_table) :
  de_conn_alignments (update_count lang s c) = de_conn_alignments s.
Proof. unfold update_count. destruct (is_french lang); reflexivity. Qed.

Lemma fr_conn_alignments_update_count (lang : string) (s : FindAlignments P)
    (c : count_table) :
  fr_conn_alignments (update_count lang s c) = fr_conn_alignments s.
Proof. unfold update_count. destruct (is_french lang); reflexivity. Qed.

Lemma de_conn_alignments_set_alignments (lang : string) (s : FindAlignments P)
    (a : cand_obj) :
  de_conn_alignments (set_alignments lang s a) = de_conn_alignments s.
Proof. unfold set_alignments. destruct (is_french lang); reflexivity. Qed.

Lemma fr_conn_alignments_set_alignments (lang : string) (s : FindAlignments P)
    (a : cand_obj) :
  fr_conn_alignments (set_alignments lang s a) = fr_conn_alignments s.
Proof. unfold set_alignments. destruct (is_french lang); reflexivity. Qed.

Lemma de_conn_alignments_set_counter (s : FindAlignments P) (z : Z) :
  de_conn_alignments (set_counter s z) = de_conn_alignments s.
Proof. reflexivity. Qed.

Lemma fr_conn_alignments_set_counter (s : FindAlignments P) (z : Z) :
  fr_conn_alignments (set_counter s z) = fr_conn_alignments s.
Proof. reflexivity. Qed.

Lemma all_de_conns_update_count (lang : string) (s : FindAlignments P) (c : count_table) :
  all_de_conns (update_count lang s c) = all_de_conns s.
Proof. unfold update_count. destruct (is_french lang); reflexivity. Qed.

Lemma all_fr_conns_update_count (lang : string) (s : FindAlignments P) (c : count_table) :
  all_fr_conns (update_count lang s c) = all_fr_conns s.
Proof. unfold update_count. destruct (is_french lang); reflexivity. Qed.

Lemma all_de_conns_set_alignments (lang : string) (s : FindAlignments P) (a : cand_obj) :
  all_de_conns (set_alignments lang s a) = all_de_conns s.
Proof. unfold set_alignments. destruct (is_french lang); reflexivity. Qed.

Lemma all_fr_conns_set_alignments (lang : string) (s : FindAlignments P) (a : cand_obj) :
  all_fr_conns (set_alignments lang s a) = all_fr_conns s.
Proof. unfold set_alignments. destruct (is_french lang); reflexivity. Qed.

Lemma all_de_conns_set_counter (s : FindAlignments P) (z : Z) :
  all_de_conns (set_counter s z) = all_de_conns s.
Proof. reflexivity. Qed.

Lemma all_fr_conns_set_counter (s : FindAlignments P) (z : Z) :
  all_fr_conns (set_counter s z) = all_fr_conns s.
Proof. reflexivity. Qed.

Create Rewrite HintDb fa_all.
#[local] Hint Rewrite (@counter_commit P) (@de_lex_commit P) (@fr_lex_commit P) (@de_count_commit P) (@fr_count_commit P) (@counter_update_count P) (@de_lex_update_count P) (@fr_lex_update_count P) (@de_count_update_count P) (@fr_count_update_count P) (@counter_set_alignments P) (@de_lex_set_alignments P) (@fr_lex_set_alignments P) (@de_count_set_alignments P) (@fr_count_set_alignments P) (@counter_set_counter P) (@de_lex_set_counter P) (@fr_lex_set_counter P) (@de_count_set_counter P) (@fr_count_set_counter P) de_conn_alignments_commit fr_conn_alignments_commit de_conn_alignments_update_count fr_conn_alignments_update_count de_conn_alignments_set_alignments fr_conn_alignments_set_alignments de_conn_alignments_set_counter fr_conn_alignments_set_counter all_de_conns_update_count all_fr_conns_update_count all_de_conns_set_alignments all_fr_conns_set_alignments all_de_conns_set_counter all_fr_conns_set_counter : fa_all.

(** The result of a round that completes, and where it goes. *)
Lemma find_conns_round_result (self self' : FindAlignments P) (lex : list string)
    (lang : string) (wt pt : P) (wc pc : Z) (info : round_info P) :
  find_conns_round self lex lang wt pt wc pc = (self', Ok info) ->
  run_chain lang (other_language lang) wt pt wc pc (active_count lang self')
            (if is_french lang then all_de_conns self else all_fr_conns self)
            (r_probabilities info)
  = Ok (r_result info)
  /\ r_new_conns info
     = find_new_conns (r_result info)
                      (if is_french lang then de_lex self else fr_lex self)
  /\ (if is_french lang
      then fr_conn_alignments self'
           = dict_update (fr_conn_alignments self) (r_result info)
           /\ de_conn_alignments self' = de_conn_alignments self
      else de_conn_alignments self'
           = dict_update (de_conn_alignments self) (r_result info)
           /\ fr_conn_alignments self' = fr_conn_alignments self).
Proof.
  unfold find_conns_round. intros E.
  destruct (negb (is_french lang || String.eqb lang "german")) eqn:L;
    [discriminate|].
  set (lex1 := working_lex _ lex lang) in E.
  destruct (retrieve_singles _ _) as [found al'] eqn:RS.
  destruct (parse_phrase_alignments _ _ _) as [scanned|] eqn:PP; [|discriminate].
  destruct (parse_discontinuous _ _ _) as [gapped|] eqn:PD; [|discriminate].
  destruct (conn_count (mkCand true found) lex1) as [sc na] eqn:C1.
  destruct (conn_count (mkCand true scanned) _) as [pcnt npa] eqn:C2.
  destruct (conn_count (mkCand true gapped) _) as [dc nd] eqn:C3.
  destruct (run_chain _ _ _ _ _ _ _ _ _) as [result|] eqn:RC; [|discriminate].
  injection E as <- <-. cbn [r_lang r_seed r_lex r_single_count r_phrase_count
                             r_discont_count r_merged r_probabilities r_new_conns
                             r_next_lex r_result].
  clear RS PP PD C1 C2 C3.
  unfold active_count in *. autorewrite with fa_all in *.
  split; [|split].
  - rewrite <- RC. unfold other_language. reflexivity.
  - reflexivity.
  - destruct (is_french lang); split; reflexivity.
Qed.

(** A round that raises leaves the lexicons and the result maps as they
    were; the round is counted all the same. *)
Lemma find_conns_round_raised (self self' : FindAlignments P) (lex : list string)
    (lang : string) (wt pt : P) (wc pc : Z) (e : exn) :
  find_conns_round self lex lang wt pt wc pc = (self', Raise e) ->
  counter self' = counter self + 1
  /\ de_lex self' = de_lex self
  /\ fr_lex self' = fr_lex self
  /\ de_conn_alignments self' = de_conn_alignments self
  /\ fr_conn_alignments self' = fr_conn_alignments self.
Proof.
  unfold find_conns_round. intros E.
  destruct (negb (is_french lang || String.eqb lang "german")) eqn:L.
  { injection E as <- _. repeat split; reflexivity. }
  set (lex1 := working_lex _ lex lang) in E.
  destruct (retrieve_singles _ _) as [found al'] eqn:RS.
  destruct (parse_phrase_alignments _ _ _) as [scanned|] eqn:PP.
  2:{ injection E as <- _. autorewrite with fa_all. repeat split; reflexivity. }
  destruct (parse_discontinuous _ _ _) as [gapped|] eqn:PD.
  2:{ injection E as <- _. autorewrite with fa_all. repeat split; reflexivity. }
  destruct (conn_count (mkCand true found) lex1) as [sc na] eqn:C1.
  destruct (conn_count (mkCand true scanned) _) as [pcnt npa] eqn:C2.
  destruct (conn_count (mkCand true gapped) _) as [dc nd] eqn:C3.
  destruct (run_chain _ _ _ _ _ _ _ _ _) as [result|] eqn:RC; [discriminate|].
  injection E as <- _. clear RS PP PD C1 C2 C3 RC.
  autorewrite with fa_all. repeat split; reflexivity.
Qed.

End RoundMore.


Lemma unique_aux_In (x : string) (xs : list string) :
  forall seen, In x (Py.unique_aux String.eqb xs seen) <-> In x xs /\ ~ In x seen.
Proof.
  induction xs as [|y xs IH]; intros seen; cbn [Py.unique_aux].
  - simpl. tauto.
  - destruct (existsb (String.eqb y) seen) eqn:E.
    + rewrite IH. apply existsb_exists in E. destruct E as (z & Iz & E).
      apply String.eqb_eq in E. subst z. simpl. split.
      * tauto.
      * intros [[->|I] N]; [contradiction | tauto].
    + assert (Ny : ~ In y seen).
      { intros I.
        assert (T : existsb (String.eqb y) seen = true)
          by (apply existsb_exists; exists y; split; [exact I | apply String.eqb_refl]).
        congruence. }
      simpl. rewrite IH. simpl. split.
      * intros [->|[I N]]; [tauto|]. split; [tauto|]. tauto.
      * intros [[->|I] N]; [tauto|].
        destruct (string_dec y x) as [->|D]; [tauto|]. right. split; [exact I|].
        intros [E'|I']; [congruence | contradiction].
Qed.

Lemma unique_aux_NoDup_out (xs : list string) :
  forall seen, NoDup (Py.unique_aux String.eqb xs seen).
Proof.
  induction xs as [|y xs IH]; intros seen; cbn [Py.unique_aux]; [constructor|].
  destruct (existsb (String.eqb y) seen); [apply IH|].
  constructor; [|apply IH]. rewrite unique_aux_In. simpl. tauto.
Qed.

Lemma unique_In (x : string) (xs : list string) :
  In x (Py.unique String.eqb xs) <-> In x xs.
Proof. unfold Py.unique. rewrite unique_aux_In. simpl. tauto. Qed.

Lemma unique_is_NoDup (xs : list string) : NoDup (Py.unique String.eqb xs).
Proof. apply unique_aux_NoDup_out. Qed.

(** What [find_new_conns] holds. *)
Lemma find_new_conns_In {P} (new_alignments : table P) (other_lex : list string)
    (word : string) :
  In word (find_new_conns new_alignments other_lex)
  <-> (word <> ""
       /\ ~ In word other_lex
       /\ exists source conns,
            In (source, conns) new_alignments /\ In word (keys conns)).
Proof.
  unfold find_new_conns. rewrite unique_In, in_flat_map. split.
  - intros (conns & Ic & Iw). apply filter_In in Iw. destruct Iw as [Iw C].
    apply andb_true_iff in C. destruct C as [NE NO].
    split; [|split].
    + intros ->. discriminate.
    + intros I. apply in_list_In in I. rewrite I in NO. discriminate.
    + unfold values in Ic. apply in_map_iff in Ic. destruct Ic as ([s c] & E & I).
      cbn in E. subst c. exists s, conns. split; assumption.
  - intros (NE & NO & s & conns & I & Iw). exists conns. split.
    + unfold values. apply in_map_iff. exists (s, conns). split; [reflexivity | exact I].
    + apply filter_In. split; [exact Iw|]. apply andb_true_iff. split.
      * destruct word; [contradiction | reflexivity].
      * apply negb_true_iff. destruct (Py.in_list word other_lex) eqn:E; [|reflexivity].
        apply in_list_In in E. contradiction.
Qed.

(** X19. The new connectives of a round are, each of them once, exactly the
    targets of the result table of the round that are not the empty string
    and not an entry of the lexicon of the other language. *)
Theorem new_connectives_are_new {P} (new_alignments : table P)
    (other_lex : list string) :
  NoDup (find_new_conns new_alignments other_lex)
  /\ forall word : string,
       In word (find_new_conns new_alignments other_lex)
       <-> (word <> ""
            /\ ~ In word other_lex
            /\ exists source conns,
                 In (source, conns) new_alignments /\ In word (keys conns)).
Proof.
  split.
  - unfold find_new_conns. apply unique_is_NoDup.
  - intros word. apply find_new_conns_In.
Qed.

Section RunFacts.
Context {P : Type} `{Number P} `{Text}.

(** X15. When the round counter has reached the limit before a round
    starts (a limit of 0 or less, or a second call on an object that has
    run its rounds), [find_conns] never returns: the test [counter == limit]
    stands after the increment, so every round is followed by another one,
    until a round raises. *)
Theorem find_conns_past_the_limit (wt pt : P) (wc pc limit : Z) :
  forall (fuel : nat) (self : FindAlignments P) (lex : list string) (lang : string),
    limit <= counter self ->
    let r := find_conns fuel self lex lang wt pt wc pc limit in
    (snd r = OutOfFuel /\ List.length (snd (fst r)) = fuel)
    \/ exists e, snd r = Raised e.
Proof.
  induction fuel as [|fuel IH]; intros self lex lang C; cbv zeta.
  - left. split; reflexivity.
  - cbn [find_conns].
    destruct (find_conns_round self lex lang wt pt wc pc) as [self' [info|e]] eqn:R.
    + pose proof (find_conns_round_inv _ _ _ _ _ _ _ _ _ R)
        as (_ & _ & _ & _ & C1 & _).
      replace (counter self' =? limit) with false
        by (symmetry; apply Z.eqb_neq; lia).
      assert (C' : limit <= counter self') by lia.
      destruct (counter self' =? 1).
      * specialize (IH self' (if is_french lang then de_lex self' else fr_lex self')
                       (if is_french lang then "german" else "french") C').
        cbv zeta in IH.
        destruct (find_conns fuel self' _ _ wt pt wc pc limit) as [[s log] st].
        cbn [fst snd] in *. destruct IH as [[-> <-]|[e ->]];
          [left; split; reflexivity | right; exists e; reflexivity].
      * specialize (IH self' (r_new_conns info)
                       (if is_french lang then "german" else "french") C').
        cbv zeta in IH.
        destruct (find_conns fuel self' _ _ wt pt wc pc limit) as [[s log] st].
        cbn [fst snd] in *. destruct IH as [[-> <-]|[e ->]];
          [left; split; reflexivity | right; exists e; reflexivity].
    + right. exists e. reflexivity.
Qed.

(** X16. Whatever way a call of [find_conns] ends, the two lexicons of the
    object are the lexicons it had, each followed by the new connectives of
    the rounds of the other language, in the order of the rounds: the
    German lexicon grows by what the French rounds find, the French lexicon
    by what the German rounds find, and no entry is ever removed. *)
Theorem lexicons_grow_by_the_new_connectives (wt pt : P) (wc pc limit : Z) :
  forall (fuel : nat) (self : FindAlignments P) (lex : list string) (lang : string)
         (s : FindAlignments P) (log : list (round_info P)) (st : status),
    find_conns fuel self lex lang wt pt wc pc limit = (s, log, st) ->
    de_lex s
    = de_lex self
      ++ List.concat (map r_new_conns (filter (fun i => is_french (r_lang i)) log))
    /\ fr_lex s
       = fr_lex self
         ++ List.concat (map r_new_conns
                        (filter (fun i => negb (is_french (r_lang i))) log)).
Proof.
  induction fuel as [|fuel IH]; intros self lex lang s log st E; cbn [find_conns] in E.
  - injection E as <- <- <-. cbn. rewrite !app_nil_r. split; reflexivity.
  - destruct (find_conns_round self lex lang wt pt wc pc) as [self' [info|e]] eqn:R.
    + pose proof (find_conns_round_inv _ _ _ _ _ _ _ _ _ R)
        as (_ & RL & _ & _ & _ & LX & _).
      assert (Here : de_lex self'
                     = de_lex self ++ (if is_french (r_lang info)
                                       then r_new_conns info else [])
                     /\ fr_lex self'
                        = fr_lex self ++ (if negb (is_french (r_lang info))
                                          then r_new_conns info else [])).
      { rewrite RL. destruct (is_french lang); cbn [negb];
          destruct LX as (-> & -> & _); rewrite app_nil_r; split; reflexivity. }
      destruct Here as [Hd Hf].
      destruct (counter self' =? limit).
      { injection E as <- <- <-. cbn [filter map List.concat].
        rewrite Hd, Hf.
        destruct (is_french (r_lang info)); cbn [negb map List.concat];
          rewrite ?app_nil_r; split; reflexivity. }
      assert (Rec : exists lex' lang',
                 find_conns fuel self' lex' lang' wt pt wc pc limit
                 = (s, tl log, st) /\ log = info :: tl log).
      { destruct (counter self' =? 1);
          match type of E with
          | context [find_conns fuel self' ?a ?b wt pt wc pc limit] =>
              destruct (find_conns fuel self' a b wt pt wc pc limit)
                as [[s' log'] st'] eqn:F;
              injection E as <- <- <-; exists a, b; split; [exact F | reflexivity]
          end. }
      destruct Rec as (lex' & lang' & F & ->). cbn [tl] in F.
      destruct (IH _ _ _ _ _ _ F) as [Id If].
      rewrite Id, If, Hd, Hf. cbn [filter].
      destruct (is_french (r_lang info)); cbn [negb map List.concat];
        rewrite <- ?app_assoc, ?app_nil_r; cbn [app]; split; reflexivity.
    + injection E as <- <- <-. cbn. rewrite !app_nil_r.
      apply find_conns_round_raised in R. destruct R as (_ & -> & -> & _).
      split; reflexivity.
Qed.

End RunFacts.

Section DictRev.
Context {K : Type} `{KeyOk K} {V : Type}.

Lemma dict_get_rev (k : K) (d : dict K V) :
  NoDup (keys d) -> dict_get k (rev d) = dict_get k d.
Proof.
  intros ND.
  assert (NDr : NoDup (keys (rev d))).
  { unfold keys. rewrite map_rev. apply NoDup_rev, ND. }
  destruct (dict_get k d) as [v|] eqn:G.
  - apply In_dict_get; [exact NDr|]. apply -> in_rev. apply dict_get_In, G.
  - apply dict_get_None. apply dict_get_None in G. intros I. apply G.
    unfold keys in *. rewrite map_rev in I. apply in_rev in I. exact I.
Qed.

Lemma NoDup_keys_update (d e : dict K V) :
  NoDup (keys d) -> NoDup (keys (dict_update d e)).
Proof.
  unfold dict_update. revert d.
  induction e as [|[k v] e IH]; intros d ND; cbn [fold_left]; [exact ND|].
  apply IH, NoDup_keys_set, ND.
Qed.

End DictRev.

Section EstimatorKeys.
Context {P : Type} `{Number P}.

Lemma alignment_probabilities_NoDup (a : candidates) :
  NoDup (keys (alignment_probabilities a)).
Proof.
  unfold alignment_probabilities.
  rewrite (fold_set_fresh fst (fun kv : string * tally => expected (snd kv)))
    by (apply count_keys_NoDup; constructor).
  cbn [app]. unfold keys. rewrite map_map. cbn [fst].
  apply (count_keys_NoDup a (keys a) []). constructor.
Qed.

End EstimatorKeys.

Section ResultFacts.
Context {P : Type} `{Number P} `{Text}.

Lemma run_chain_keys (lang other_lang : string) (wt pt : P) (wc pc : Z)
    (count_dict : count_table) (complete_lex : list string) (t t' : table P) :
  run_chain lang other_lang wt pt wc pc count_dict complete_lex t = Ok t' ->
  keys t' = keys t.
Proof.
  unfold run_chain. intros E.
  destruct (filter_chain _ _ _ _ _ _ _ _ _ _) as [h' [a|e]] eqn:C; [|discriminate].
  injection E as <-. apply filter_chain_keys in C; [apply C | simpl; lia].
Qed.

Lemma round_merged_NoDup (self self' : FindAlignments P) (lex : list string)
    (lang : string) (wt pt : P) (wc pc : Z) (info : round_info P) :
  find_conns_round self lex lang wt pt wc pc = (self', Ok info) ->
  NoDup (keys (r_merged info)).
Proof.
  intros R. apply find_conns_round_inv in R.
  destruct R as (_ & _ & _ & _ & _ & _ & _ & (found & scanned & gapped & na & npa & nd
                                              & _ & _ & _ & ->) & _).
  do 3 apply NoDup_keys_update. constructor.
Qed.

(** X18. The result table of a round has one entry for every key of the
    merged candidate mapping of the round that has at least one
    observation, in the order of the mapping, and no other: a key all of
    whose targets the filters removed is there, a lexicon entry that
    [conn_count] injected with an empty list is not. *)
Theorem round_result_keys (self self' : FindAlignments P) (lex : list string)
    (lang : string) (wt pt : P) (wc pc : Z) (info : round_info P) :
  find_conns_round self lex lang wt pt wc pc = (self', Ok info) ->
  keys (r_result info)
  = keys (filter (fun st => negb (is_nil (snd st))) (r_merged info)).
Proof.
  intros R. pose proof (round_merged_NoDup _ _ _ _ _ _ _ _ _ R) as ND.
  pose proof (find_conns_round_result _ _ _ _ _ _ _ _ _ R) as (RC & _).
  apply run_chain_keys in RC. rewrite RC.
  apply find_conns_round_inv in R.
  destruct R as (_ & _ & _ & _ & _ & _ & _ & _ & -> & _).
  unfold remove_punct_values.
  rewrite (remove_punct_values_from (r_merged info) []) by exact ND. cbn [app].
  rewrite alignment_probabilities_items.
  - unfold keys. rewrite !map_map. reflexivity.
  - unfold keys. rewrite map_map. cbn [fst].
    change (map (fun x : string * list string => fst x)
                (filter (fun st => negb (is_nil (snd st))) (r_merged info)))
      with (keys (filter (fun st => negb (is_nil (snd st))) (r_merged info))).
    unfold keys.
    clear - ND. induction (r_merged info) as [|[k v] m IH]; cbn [filter map]; [constructor|].
    cbn [keys map fst] in ND. inversion ND as [|? ? NI ND']; subst.
    destruct (negb (is_nil (snd (k, v)))); [|apply IH, ND'].
    cbn [map fst]. constructor; [|apply IH, ND'].
    intros I. apply NI. apply in_map_iff in I. destruct I as (x & E & I).
    apply filter_In in I. apply in_map_iff. exists x. split; [exact E | apply I].
Qed.

(** X17. At the end of a round the result table of the round is put into
    the result map of the active language by [dict.update]: a source key of
    the round holds the targets of the round afterwards, whatever it held
    from an earlier round, every other key keeps its targets, and the
    result map of the other language is left as it was. *)
Theorem result_map_updated_by_replacement
    (self self' : FindAlignments P) (lex : list string) (lang : string)
    (wt pt : P) (wc pc : Z) (info : round_info P) :
  find_conns_round self lex lang wt pt wc pc = (self', Ok info) ->
  if is_french lang
  then (forall k, dict_get k (fr_conn_alignments self')
                  = match dict_get k (r_result info) with
                    | Some targets => Some targets
                    | None => dict_get k (fr_conn_alignments self)
                    end)
       /\ de_conn_alignments self' = de_conn_alignments self
  else (forall k, dict_get k (de_conn_alignments self')
                  = match dict_get k (r_result info) with
                    | Some targets => Some targets
                    | None => dict_get k (de_conn_alignments self)
                    end)
       /\ fr_conn_alignments self' = fr_conn_alignments self.
Proof.
  intros R.
  pose proof (find_conns_round_result _ _ _ _ _ _ _ _ _ R) as (RC & _ & U).
  assert (ND : NoDup (keys (r_result info))).
  { rewrite (run_chain_keys _ _ _ _ _ _ _ _ _ _ RC).
    apply find_conns_round_inv in R.
    destruct R as (_ & _ & _ & _ & _ & _ & _ & _ & -> & _).
    apply alignment_probabilities_NoDup. }
  destruct (is_french lang); destruct U as [-> ->]; (split; [|reflexivity]);
    intros k; rewrite dict_get_update, dict_get_rev by exact ND; reflexivity.
Qed.

(** X20. [find_conns] adds no connective twice: lexicons without duplicates
    are without duplicates after the call, however it ends, and the empty
    string is in a lexicon afterwards only if it was before. *)
Theorem lexicons_stay_duplicate_free (wt pt : P) (wc pc limit : Z) :
  forall (fuel : nat) (self : FindAlignments P) (lex : list string) (lang : string)
         (s : FindAlignments P) (log : list (round_info P)) (st : status),
    NoDup (de_lex self) -> NoDup (fr_lex self) ->
    find_conns fuel self lex lang wt pt wc pc limit = (s, log, st) ->
    NoDup (de_lex s) /\ NoDup (fr_lex s)
    /\ (In "" (de_lex s) -> In "" (de_lex self))
    /\ (In "" (fr_lex s) -> In "" (fr_lex self)).
Proof.
  induction fuel as [|fuel IH]; intros self lex lang s log st Nd Nf E;
    cbn [find_conns] in E.
  - injection E as <- <- <-. auto.
  - destruct (find_conns_round self lex lang wt pt wc pc) as [self' [info|e]] eqn:R.
    + pose proof (find_conns_round_inv _ _ _ _ _ _ _ _ _ R)
        as (_ & _ & _ & _ & _ & LX & _).
      pose proof (find_conns_round_result _ _ _ _ _ _ _ _ _ R) as (_ & NC & _).
      assert (Step : NoDup (de_lex self') /\ NoDup (fr_lex self')
                     /\ (In "" (de_lex self') -> In "" (de_lex self))
                     /\ (In "" (fr_lex self') -> In "" (fr_lex self))).
      { assert (NDn : NoDup (r_new_conns info))
          by (rewrite NC; unfold find_new_conns; apply unique_is_NoDup).
        pose proof (fun word =>
                      find_new_conns_In (r_result info)
                        (if is_french lang then de_lex self else fr_lex self) word)
          as Cn.
        rewrite <- NC in Cn.
        destruct (is_french lang); destruct LX as (-> & -> & _).
        - split; [|split; [exact Nf|split; [|auto]]].
          + apply NoDup_app; [exact Nd | exact NDn |].
            intros x Ix In'. apply Cn in In'. tauto.
          + intros I. apply in_app_or in I. destruct I as [I|I]; [exact I|].
            apply Cn in I. destruct I as [NE _]. contradiction.
        - split; [exact Nd|split; [|split; [auto|]]].
          + apply NoDup_app; [exact Nf | exact NDn |].
            intros x Ix In'. apply Cn in In'. tauto.
          + intros I. apply in_app_or in I. destruct I as [I|I]; [exact I|].
            apply Cn in I. destruct I as [NE _]. contradiction. }
      destruct Step as (Nd' & Nf' & Ed & Ef).
      destruct (counter self' =? limit).
      { injection E as <- <- <-. auto. }
      assert (Rec : exists lex' lang' log',
                 find_conns fuel self' lex' lang' wt pt wc pc limit = (s, log', st)).
      { destruct (counter self' =? 1);
          match type of E with
          | context [find_conns fuel self' ?a ?b wt pt wc pc limit] =>
              destruct (find_conns fuel self' a b wt pt wc pc limit)
                as [[s' log'] st'] eqn:F;
              injection E as <- <- <-; exists a, b, log'; exact F
          end. }
      destruct Rec as (lex' & lang' & log' & F).
      destruct (IH _ _ _ _ _ _ Nd' Nf' F) as (A & B & C & D).
      repeat split; auto.
    + injection E as <- <- <-.
      apply find_conns_round_raised in R. destruct R as (_ & -> & -> & _). auto.
Qed.

End ResultFacts.


(** The theorems on the object of the scenario. *)
Lemma find_conns_past_the_limit_witness :
  (snd (find_conns 2 cependant_object [] "french" 0%float 0%float 0 0 0) = OutOfFuel
   /\ List.length
        (snd (fst (find_conns 2 cependant_object [] "french" 0%float 0%float 0 0 0)))
      = 2%nat)
  \/ exists e,
       snd (find_conns 2 cependant_object [] "french" 0%float 0%float 0 0 0)
       = Raised e.
Proof.
  apply (find_conns_past_the_limit (P := float) 0%float 0%float 0 0 0
           2 cependant_object [] "french").
  cbn. lia.
Defined.

Lemma lexicons_grow_by_the_new_connectives_witness :
  exists (s : FindAlignments float) (log : list (round_info float)),
    find_conns 3 cependant_object [] "french" 0%float 0%float 0 0 3
    = (s, log, Returned)
    /\ de_lex s = ["trotzdem"]
    /\ fr_lex s = ["cependant"].
Proof.
  do 2 eexists.
  assert (E : find_conns 3 cependant_object [] "french" 0%float 0%float 0 0 3
              = (_, _, Returned)) by (vm_compute; reflexivity).
  split; [exact E|].
  destruct (lexicons_grow_by_the_new_connectives (P := float)
              0%float 0%float 0 0 3 _ _ _ _ _ _ _ E) as [A B].
  split.
  - etransitivity; [exact A | vm_compute; reflexivity].
  - etransitivity; [exact B | vm_compute; reflexivity].
Defined.

Lemma result_map_updated_by_replacement_witness :
  exists (s2 s3 : FindAlignments float) (i3 : round_info float),
    find_conns_round s2 [] "french" 0%float 0%float 0 0 = (s3, Ok i3)
    /\ fr_conn_alignments s2 = [("cependant", [("trotzdem", 0.5%float)])]
    /\ r_result i3 = [("cependant", [("trotzdem", 1%float)])]
    /\ (forall k, dict_get k (fr_conn_alignments s3)
                  = match dict_get k (r_result i3) with
                    | Some targets => Some targets
                    | None => dict_get k (fr_conn_alignments s2)
                    end)
    /\ de_conn_alignments s3 = de_conn_alignments s2.
Proof.
  eexists (mkFA (mkCand false [("trotzdem", ["cependant"])])
                (mkCand false [("cependant", ["trotzdem"])])
                cependant_corpus ["cependant"] ["trotzdem"] [] [] 2
                [("trotzdem", [("cependant", 1%float)])]
                [("cependant", [("trotzdem", 0.5%float)])]
                [("trotzdem", [("cependant", 1)])]
                [("cependant", [("trotzdem", 1)])]).
  do 2 eexists.
  assert (R : find_conns_round
                (mkFA (mkCand false [("trotzdem", ["cependant"])])
                      (mkCand false [("cependant", ["trotzdem"])])
                      cependant_corpus ["cependant"] ["trotzdem"] [] [] 2
                      [("trotzdem", [("cependant", 1%float)])]
                      [("cependant", [("trotzdem", 0.5%float)])]
                      [("trotzdem", [("cependant", 1)])]
                      [("cependant", [("trotzdem", 1)])])
                [] "french" 0%float 0%float 0 0
              = (_, Ok _)) by (vm_compute; reflexivity).
  split; [exact R|]. split; [reflexivity|]. split; [reflexivity|].
  exact (result_map_updated_by_replacement (P := float) _ _ _ _ _ _ _ _ _ R).
Defined.

Lemma round_result_keys_witness :
  exists (self' : FindAlignments float) (info : round_info float),
    find_conns_round cependant_object ["pourtant"; "cependant"] "french"
                     0%float 0%float 0 0
    = (self', Ok info)
    /\ r_merged info = [("cependant", ["trotzdem"]); ("pourtant", [])]
    /\ keys (r_result info)
       = keys (filter (fun st => negb (is_nil (snd st))) (r_merged info)).
Proof.
  do 2 eexists.
  assert (R : find_conns_round cependant_object ["pourtant"; "cependant"] "french"
                               0%float 0%float 0 0
              = (_, Ok _)) by (vm_compute; reflexivity).
  split; [exact R|]. split; [reflexivity|].
  exact (round_result_keys (P := float) _ _ _ _ _ _ _ _ _ R).
Defined.

Lemma lexicons_stay_duplicate_free_witness :
  exists (s : FindAlignments float) (log : list (round_info float)),
    find_conns 3 cependant_object [] "french" 0%float 0%float 0 0 3
    = (s, log, Returned)
    /\ NoDup (de_lex s) /\ NoDup (fr_lex s).
Proof.
  do 2 eexists.
  assert (E : find_conns 3 cependant_object [] "french" 0%float 0%float 0 0 3
              = (_, _, Returned)) by (vm_compute; reflexivity).
  split; [exact E|].
  destruct (lexicons_stay_duplicate_free (P := float)
              0%float 0%float 0 0 3 3%nat cependant_object [] "french" _ _ _
              (NoDup_nil string)
              (NoDup_cons "cependant" (fun I : In "cependant" [] => I)
                          (NoDup_nil string))
              E) as (A & B & _).
  split; [exact A | exact B].
Defined.

(* ================================================================== *)
(** ** Malformed alignment lines *)

Lemma contains_cons (sub : string) (c : ascii) (s : string) :
  Py.contains sub (String c s) = prefix sub (String c s) || Py.contains sub s.
Proof. reflexivity. Qed.

Lemma split_sep_no_hyphen (s : string) :
  Py.contains "-" s = false ->
  forall cur, exists r, Py.split_sep_aux "-" s 0 cur = [r].
Proof.
  induction s as [|c s IH]; intros C cur; cbn [Py.split_sep_aux].
  - eexists; reflexivity.
  - rewrite contains_cons in C. apply orb_false_iff in C. destruct C as [Pf C].
    rewrite Pf. apply IH, C.
Qed.

Lemma omap_raises {A B} (f : A -> outcome B) (e : exn) (xs : list A) (x : A) :
  (forall y, In y xs -> forall e', f y = Raise e' -> e' = e) ->
  In x xs -> f x = Raise e -> omap f xs = Raise e.
Proof.
  induction xs as [|y xs IH]; intros Only I Fx; [destruct I|].
  cbn [omap]. destruct (f y) as [b|e'] eqn:Fy.
  - cbn [obind]. destruct I as [->|I]; [congruence|].
    rewrite IH; [reflexivity | | exact I | exact Fx].
    intros z Iz. apply Only. right; exact Iz.
  - cbn [obind]. f_equal. apply (Only y (or_introl eq_refl) e' Fy).
Qed.

Lemma ofold_app {A B} (step : A -> B -> outcome A) (xs ys : list B) (acc : A) :
  ofold step (xs ++ ys) acc = let? mid := ofold step xs acc in ofold step ys mid.
Proof.
  revert acc. induction xs as [|x xs IH]; intros acc; cbn [app ofold]; [reflexivity|].
  destruct (step acc x); cbn [obind]; [apply IH | reflexivity].
Qed.

Lemma pair_of_token_raises (a : string) (e : exn) :
  (let? x := nth_str (Py.split_sep "-" a) 0 in
   let? y := nth_str (Py.split_sep "-" a) 1 in
   Ok (x, y)) = Raise e -> e = IndexError.
Proof.
  unfold nth_str.
  destruct (nth_error (Py.split_sep "-" a) 0); cbn [obind]; [|intros [= <-]; reflexivity].
  destruct (nth_error (Py.split_sep "-" a) 1); cbn [obind]; [discriminate|].
  intros [= <-]; reflexivity.
Qed.

Lemma pair_of_token_no_hyphen (a : string) :
  Py.contains "-" a = false ->
  (let? x := nth_str (Py.split_sep "-" a) 0 in
   let? y := nth_str (Py.split_sep "-" a) 1 in
   Ok (x, y)) = Raise IndexError.
Proof.
  intros C. unfold Py.split_sep.
  destruct (split_sep_no_hyphen a C "") as [r ->]. reflexivity.
Qed.

(** X3. A token of an alignment line that holds no hyphen makes the body of
    the loop of [parse_alignments] raise IndexError at once, whatever the two
    sentences of the line are and whatever has been collected so far; the
    line is not skipped, and [parse_alignments] raises IndexError on every
    corpus in which such a line is reached. *)
Theorem token_without_hyphen_raises_IndexError
    (st : candidates * candidates) (index de fr token : string) :
  In token (Py.split index) ->
  Py.contains "-" token = false ->
  parse_line st (index, de, fr) = Raise IndexError
  /\ forall (c : corpus) (earlier later : list (string * string * string)),
       zip3 (alignment_file c) (german_file c) (french_file c)
       = earlier ++ (index, de, fr) :: later ->
       ofold parse_line earlier ([], []) = Ok st ->
       parse_alignments c = Raise IndexError.
Proof.
  intros I C.
  assert (PL : forall st', parse_line st' (index, de, fr) = Raise IndexError).
  { intros [a b]. unfold parse_line.
    rewrite (omap_raises _ IndexError (Py.split index) token); [reflexivity | | exact I |].
    - intros y _ e'. apply pair_of_token_raises.
    - apply pair_of_token_no_hyphen, C. }
  split; [apply PL|].
  intros c earlier later Z E. unfold parse_alignments.
  rewrite Z, ofold_app, E. cbn [obind ofold]. rewrite PL. reflexivity.
Qed.

(** The theorem on a corpus whose second line holds the token "1". *)
Lemma token_without_hyphen_raises_IndexError_witness :
  parse_line ([("er", ["il"])], [("il", ["er"])]) ("0-0 1", "er geht", "il va")
  = Raise IndexError
  /\ parse_alignments (mkCorpus ["0-0"; "0-0 1"] ["er"; "er geht"] ["il"; "il va"])
     = Raise IndexError.
Proof.
  destruct (token_without_hyphen_raises_IndexError
              ([("er", ["il"])], [("il", ["er"])]) "0-0 1" "er geht" "il va" "1"
              (or_intror (or_introl eq_refl)) eq_refl) as [A B].
  split; [exact A|].
  apply (B (mkCorpus ["0-0"; "0-0 1"] ["er"; "er geht"] ["il"; "il va"])
           [("0-0", "er", "il")] []); reflexivity.
Defined.

(* ================================================================== *)
(** ** The lexicon of a discourse relation *)

Lemma filter_for_relation_from (conn_rel : dict string (list string))
    (relations : list string) (conn_lex : list string) :
  forall acc : list string,
    fold_left (fun filtered_conns conn =>
                 match dict_index conn conn_rel with
                 | Ok rels => if shares rels relations
                              then filtered_conns ++ [conn]
                              else filtered_conns
                 | Raise _ => filtered_conns
                 end) conn_lex acc
    = acc ++ filter (fun conn => match dict_get conn conn_rel with
                                 | Some rels => shares rels relations
                                 | None => false
                                 end) conn_lex.
Proof.
  induction conn_lex as [|c lex IH]; intros acc; cbn [fold_left filter].
  - rewrite app_nil_r. reflexivity.
  - rewrite IH. unfold dict_index. destruct (dict_get c conn_rel) as [rels|].
    + destruct (shares rels relations); [rewrite <- app_assoc|]; reflexivity.
    + reflexivity.
Qed.

(** X21. [filter_for_discourse_relation] raises KeyError when the relation
    is no key of the relation mapping, even on an empty lexicon; otherwise
    it returns, in their order and as often as they occur, the connectives
    of the lexicon that have, in the connective mapping, at least one of the
    relations listed for the relation; a connective that the connective
    mapping lacks is left out silently. *)
Theorem filter_for_discourse_relation_selects (conn_lex : list string)
    (conn_rel : dict string (list string)) (relation : string)
    (rel_mapping : dict string (list string)) :
  filter_for_discourse_relation conn_lex conn_rel relation rel_mapping
  = match dict_get relation rel_mapping with
    | None => Raise KeyError
    | Some relations =>
        Ok (filter (fun conn => match dict_get conn conn_rel with
                                | Some rels => shares rels relations
                                | None => false
                                end) conn_lex)
    end.
Proof.
  unfold filter_for_discourse_relation. unfold dict_index at 1.
  destruct (dict_get relation rel_mapping) as [relations|]; [|reflexivity].
  cbn [obind]. rewrite filter_for_relation_from. reflexivity.
Qed.

(* ================================================================== *)
(** ** The keys of the corpus scans *)

Lemma ofold_invariant {A B} (Inv : A -> Prop) (step : A -> B -> outcome A)
    (xs : list B) :
  (forall acc x acc', In x xs -> Inv acc -> step acc x = Ok acc' -> Inv acc') ->
  forall acc r, Inv acc -> ofold step xs acc = Ok r -> Inv r.
Proof.
  induction xs as [|x xs IH]; intros St acc r I E; cbn [ofold] in E.
  - injection E as <-. exact I.
  - destruct (step acc x) as [acc'|] eqn:S; [|discriminate]. cbn [obind] in E.
    apply (IH (fun a y a' Iy => St a y a' (or_intror Iy)) acc' r); [|exact E].
    apply (St acc x acc' (or_introl eq_refl) I S).
Qed.

Lemma asked_for_append (phrases : list string) (acc : candidates) (p x : string) :
  In p phrases -> asked_for phrases acc -> asked_for phrases (dd_append p x acc).
Proof.
  intros I Inv k obs G. destruct (string_dec k p) as [->|N].
  - rewrite dd_append_get_same in G. injection G as <-. split; [exact I|].
    destruct (dict_get p acc) as [[|y ys]|]; discriminate.
  - rewrite dd_append_get_other in G by exact N. apply Inv, G.
Qed.

Lemma phrase_line_asked (phrases : list string) (lang : Z) (acc : candidates)
    (line : string * string * string) (r : candidates) :
  asked_for phrases acc ->
  phrase_line phrases lang acc line = Ok r ->
  asked_for phrases r.
Proof.
  destruct line as [[index l1] l2]. unfold phrase_line. intros Inv E.
  destruct (int_pairs (Py.split index)) as [pairs|]; [|discriminate].
  cbn [obind] in E. revert acc r Inv E.
  apply ofold_invariant. intros acc p acc' Ip Inv Step.
  destruct (sides lang l1 l2) as [[[sentence src] tgt]|]; [|discriminate].
  cbn [obind] in Step. destruct (Py.contains p sentence).
  - revert acc acc' Inv Step. apply ofold_invariant.
    intros a pos_range a' _ Ia S.
    destruct (ofold _ pos_range []) as [np|]; [|discriminate]. cbn [obind] in S.
    destruct (target_phrase 2 lang tgt np) as [obs|]; [|discriminate].
    cbn [obind] in S. injection S as <-. apply asked_for_append; assumption.
  - injection Step as <-. exact Inv.
Qed.

Lemma discontinuous_line_asked (phrases : list string) (lang : Z) (acc : candidates)
    (line : string * string * string) (r : candidates) :
  asked_for phrases acc ->
  discontinuous_line phrases lang acc line = Ok r ->
  asked_for phrases r.
Proof.
  destruct line as [[index l1] l2]. unfold discontinuous_line. intros Inv E.
  destruct (int_pairs (Py.split index)) as [pairs|]; [|discriminate].
  cbn [obind] in E. revert acc r Inv E.
  apply ofold_invariant. intros acc p acc' Ip Inv Step.
  destruct (sides lang l1 l2) as [[[sentence src] tgt]|]; [|discriminate].
  cbn [obind] in Step.
  destruct (nth_str (Py.split_sep " ... " p) 0) as [p0|]; [|discriminate].
  cbn [obind] in Step.
  match type of Step with
  | (let? found := ?c in _) = _ => destruct c as [[|]|]
  end; cbn [obind] in Step; try discriminate.
  - destruct (ofold _ _ []) as [np|]; [|discriminate]. cbn [obind] in Step.
    destruct (target_phrase 1 lang tgt np) as [obs|]; [|discriminate].
    cbn [obind] in Step. injection Step as <-. apply asked_for_append; assumption.
  - injection Step as <-. exact Inv.
Qed.

(** X22. The mapping that [parse_phrase_alignments] or [parse_discontinuous]
    returns has no key but phrases of the list it was given, and no key
    with an empty observation list: a phrase that is never found gets no
    entry. *)
Theorem scans_answer_for_the_phrases_asked (c : corpus) (phrases : list string)
    (lang : Z) (r : candidates) :
  parse_phrase_alignments c phrases lang = Ok r
  \/ parse_discontinuous c phrases lang = Ok r ->
  forall key obs, dict_get key r = Some obs -> In key phrases /\ obs <> [].
Proof.
  intros [E|E]; revert E.
  - unfold parse_phrase_alignments.
    apply (ofold_invariant (asked_for phrases)).
    + intros acc x acc' _. apply phrase_line_asked.
    + intros k obs [=].
  - unfold parse_discontinuous.
    apply (ofold_invariant (asked_for phrases)).
    + intros acc x acc' _. apply discontinuous_line_asked.
    + intros k obs [=].
Qed.

(** The theorem on the scan of the scenario corpus for "le fait". *)
Lemma scans_answer_for_the_phrases_asked_witness :
  parse_phrase_alignments cependant_corpus ["le fait"; "bien que"] 2
  = Ok [("le fait", ["macht es"])]
  /\ In "le fait" ["le fait"; "bien que"]
  /\ ["macht es"] <> [].
Proof.
  assert (E : parse_phrase_alignments cependant_corpus ["le fait"; "bien que"] 2
              = Ok [("le fait", ["macht es"])]) by reflexivity.
  split; [exact E|].
  exact (scans_answer_for_the_phrases_asked cependant_corpus
           ["le fait"; "bien que"] 2 [("le fait", ["macht es"])]
           (or_introl E) "le fait" ["macht es"] eq_refl).
Defined.

(* ================================================================== *)
(** ** The relations added to a result table *)

Section AnnotationFacts.
Context {P : Type}.
Local Open Scope store_scope.

(** The relabelling of the targets of one source: every target of the
    source that is still to come is a key of the copy. *)
Lemma relabel_targets (f : loc) (source : string)
    (target_mapping : dict string (list string)) (ts : list string) :
  NoDup ts ->
  forall (h : heap P) (d : dict string P),
    (f < List.length h)%nat ->
    dict_get source (load f h) = Some d ->
    (forall t, In t ts -> dict_mem t d = true) ->
    exists h1,
      for_ ts (fun target =>
                 match dict_get target target_mapping with
                 | Some rels =>
                     bind (pop2 f source target)
                          (fun probability =>
                             set2 f source (with_relation target rels) probability)
                 | None => ret tt
                 end) h = (h1, Ok tt)
      /\ only_at f h h1
      /\ forall s', s' <> source -> dict_get s' (load f h1) = dict_get s' (load f h).
Proof.
  induction 1 as [|t ts NI ND IH]; intros h d L G Mem.
  - exists h. split; [reflexivity|]. split; [apply only_at_refl | reflexivity].
  - rewrite for_cons.
    destruct (dict_get t target_mapping) as [rels|].
    + pose proof (Mem t (or_introl eq_refl)) as Mt. unfold dict_mem in Mt.
      destruct (dict_get t d) as [p|] eqn:Gt; [|discriminate].
      set (t1 := dict_set source (dict_remove t d) (load f h)).
      set (h1 := store f t1 h).
      set (d2 := dict_set (with_relation t rels) p (dict_remove t d)).
      set (h2 := store f (dict_set source d2 (load f h1)) h1).
      assert (E : bind (pop2 f source t)
                    (fun probability =>
                       set2 f source (with_relation t rels) probability) h
                  = (h2, Ok tt)).
      { unfold bind, pop2, dict_index. rewrite G, Gt. fold t1. fold h1.
        unfold set2, dict_index.
        assert (G1 : dict_get source (load f h1) = Some (dict_remove t d)).
        { unfold h1. rewrite load_store_same by exact L. apply dict_get_set_same. }
        rewrite G1. reflexivity. }
      rewrite E.
      assert (L2 : (f < List.length h2)%nat).
      { unfold h2, h1. rewrite !length_store. exact L. }
      assert (G2 : dict_get source (load f h2) = Some d2).
      { unfold h2. rewrite load_store_same
          by (unfold h1; rewrite length_store; exact L).
        apply dict_get_set_same. }
      destruct (IH h2 d2 L2 G2) as (h3 & E3 & A3 & K3).
      * intros t' I'. unfold d2, dict_mem.
        destruct (string_dec t' (with_relation t rels)) as [->|N].
        -- rewrite dict_get_set_same. reflexivity.
        -- rewrite dict_get_set_other by exact N.
           rewrite dict_get_remove_other by (intros ->; contradiction).
           apply (Mem t'). right; exact I'.
      * exists h3. split; [exact E3|]. split.
        -- apply (only_at_trans f h h2 h3); [|exact A3].
           apply (only_at_trans f h h1 h2); apply only_at_store.
        -- intros s' N. rewrite K3 by exact N. unfold h2.
           rewrite load_store_same by (unfold h1; rewrite length_store; exact L).
           rewrite dict_get_set_other by exact N.
           unfold h1. rewrite load_store_same by exact L. unfold t1.
           apply dict_get_set_other, N.
    + apply (IH h d L G). intros t' I'. apply Mem. right; exact I'.
Qed.

Lemma relabel_sources (f : loc) (target_mapping : dict string (list string))
    (its : table P) :
  NoDup (keys its) ->
  (forall s d, In (s, d) its -> NoDup (keys d)) ->
  forall h : heap P,
    (f < List.length h)%nat ->
    (forall s d, In (s, d) its -> dict_get s (load f h) = Some d) ->
    exists h1,
      for_ its (fun st => let '(source, targets) := st in
        for_ (keys targets) (fun target =>
          match dict_get target target_mapping with
          | Some rels =>
              bind (pop2 f source target)
                   (fun probability =>
                      set2 f source (with_relation target rels) probability)
          | None => ret tt
          end)) h = (h1, Ok tt)
      /\ only_at f h h1.
Proof.
  induction its as [|[s d] its IH]; intros ND NDi h L G.
  - exists h. split; [reflexivity | apply only_at_refl].
  - rewrite for_cons. inversion ND as [|? ? NI ND']; subst.
    destruct (relabel_targets f s target_mapping (keys d)
                (NDi s d (or_introl eq_refl)) h d L
                (G s d (or_introl eq_refl)))
      as (h1 & E1 & A1 & O1).
    { intros t I. apply dict_mem_In, I. }
    rewrite E1.
    destruct (IH ND' (fun s' d' I => NDi s' d' (or_intror I)) h1) as (h2 & E2 & A2).
    + destruct A1 as [Len _]. lia.
    + intros s' d' I. rewrite O1; [apply G; right; exact I|].
      intros ->. apply NI. change s with (fst (s, d')). apply in_map, I.
    + exists h2. split; [exact E2 | apply (only_at_trans f h h1 h2); assumption].
Qed.

Lemma relabel_keys (f : loc) (source_mapping : dict string (list string)) :
  forall h : heap P,
    exists h1,
      for_ source_mapping (fun sr => let '(source, relation) := sr in
        try_KeyError (bind (pop1 f source)
                           (fun targets =>
                              set1 f (with_relation source relation) targets))) h
      = (h1, Ok tt)
      /\ only_at f h h1.
Proof.
  induction source_mapping as [|[s rel] sm IH]; intros h.
  - exists h. split; [reflexivity | apply only_at_refl].
  - rewrite for_cons.
    assert (Step : exists h1,
               try_KeyError (bind (pop1 f s)
                                  (fun targets =>
                                     set1 f (with_relation s rel) targets)) h
               = (h1, Ok tt) /\ only_at f h h1).
    { unfold try_KeyError, bind, pop1, set1.
      destruct (dict_get s (load f h)) as [d|].
      - eexists. split; [reflexivity|].
        eapply only_at_trans; apply only_at_store.
      - exists h. split; [reflexivity | apply only_at_refl]. }
    destruct Step as (h1 & E1 & A1). rewrite E1.
    destruct (IH h1) as (h2 & E2 & A2).
    exists h2. split; [exact E2 | apply (only_at_trans f h h1 h2); assumption].
Qed.

(** X23. On a table with unique keys [add_discourse_relation] returns
    normally, whatever the two relation mappings are: the [pop] of a target
    in its first loop, which stands outside any [try], finds the target in
    the copy every time. The table it returns is a new object, and every
    object that existed before the call, its argument included, holds what
    it held. *)
Theorem add_discourse_relation_returns_a_copy (l : loc)
    (source_mapping target_mapping : dict string (list string)) (h : heap P) :
  (l < List.length h)%nat ->
  unique_keys (load l h) ->
  exists h',
    add_discourse_relation l source_mapping target_mapping h
    = (h', Ok (List.length h))
    /\ List.length h' = S (List.length h)
    /\ forall l0, (l0 < List.length h)%nat -> load l0 h' = load l0 h.
Proof.
  intros L [ND NDi]. unfold add_discourse_relation.
  unfold bind at 1, deepcopy. unfold bind at 1, read.
  rewrite load_app_old by exact L.
  set (f := List.length h). set (t := load l h) in *.
  destruct (relabel_sources f target_mapping t ND NDi (h ++ [t])) as (h1 & E1 & A1).
  { unfold f. rewrite length_app. cbn. lia. }
  { intros s d I. unfold f. rewrite load_app_new. apply In_dict_get; assumption. }
  destruct (relabel_keys f source_mapping h1) as (h2 & E2 & A2).
  exists h2. split; [|split].
  - unfold bind at 1. rewrite E1. unfold bind at 1. rewrite E2. reflexivity.
  - destruct A1 as [L1 _], A2 as [L2 _]. rewrite L2, L1, length_app. cbn. lia.
  - intros l0 L0. destruct A1 as [_ K1], A2 as [_ K2].
    rewrite K2, K1 by (unfold f; lia). apply load_app_old, L0.
Qed.
End AnnotationFacts.

(** The theorem on a table one of whose targets and whose source have a
    relation. *)
Lemma add_discourse_relation_returns_a_copy_witness :
  exists h' : heap float,
    add_discourse_relation 0%nat [("k", ["concession"])] [("a", ["contrast"; "concession"])]
                           [[("k", [("a", 0.25%float); ("b", 0.75%float)])]]
    = (h', Ok 1%nat)
    /\ load 1%nat h'
       = [("k (concession)", [("b", 0.75%float); ("a (contrast, concession)", 0.25%float)])]
    /\ load 0%nat h' = [("k", [("a", 0.25%float); ("b", 0.75%float)])].
Proof.
  destruct (add_discourse_relation_returns_a_copy (P := float) 0%nat
              [("k", ["concession"])] [("a", ["contrast"; "concession"])]
              [[("k", [("a", 0.25%float); ("b", 0.75%float)])]])
    as (h' & E & _ & F).
  - simpl. lia.
  - split; [repeat constructor; simpl; tauto|].
    intros s d [Q|[]]. injection Q as <- <-.
    repeat constructor; simpl; intuition discriminate.
  - exists h'. split; [exact E|]. split.
    + vm_compute in E. injection E as <-. reflexivity.
    + apply (F 0%nat). simpl. lia.
Defined.

(* ================================================================== *)
(** ** What the filter chain keeps *)

Section Shrinks.
Context {P : Type} (lex : list string).

Lemma entries_from_refl (d : dict string P) : entries_from lex d d.
Proof. intros w p I. left; exact I. Qed.

Lemma entries_from_trans (d1 d2 d3 : dict string P) :
  entries_from lex d3 d2 -> entries_from lex d2 d1 -> entries_from lex d3 d1.
Proof.
  intros A B w p I. destruct (A w p I) as [I2|(Il & w' & I2)].
  - apply B, I2.
  - right. split; [exact Il|]. destruct (B w' p I2) as [I1|(_ & w'' & I1)];
      [exists w' | exists w'']; exact I1.
Qed.

Lemma table_from_refl (t : table P) : table_from lex t t.
Proof. intros s d G. exists d. split; [exact G | apply entries_from_refl]. Qed.

Lemma table_from_trans (t1 t2 t3 : table P) :
  table_from lex t3 t2 -> table_from lex t2 t1 -> table_from lex t3 t1.
Proof.
  intros A B s d3 G3. destruct (A s d3 G3) as (d2 & G2 & E32).
  destruct (B s d2 G2) as (d1 & G1 & E21).
  exists d1. split; [exact G1 | eapply entries_from_trans; eassumption].
Qed.

Lemma shrinks_refl (h : heap P) : shrinks lex h h.
Proof. split; [lia|]. intros l _. apply table_from_refl. Qed.

Lemma shrinks_trans (h1 h2 h3 : heap P) :
  shrinks lex h1 h2 -> shrinks lex h2 h3 -> shrinks lex h1 h3.
Proof.
  intros [L1 K1] [L2 K2]. split; [lia|]. intros l L.
  apply (table_from_trans _ (load l h2)); [apply K2; lia | apply K1, L].
Qed.

#[export] Instance shrinks_rel : StoreRel (shrinks lex) :=
  {| R_refl := shrinks_refl; R_trans := shrinks_trans |}.

Lemma In_dict_remove (k w : string) (p : P) (d : dict string P) :
  In (w, p) (dict_remove k d) -> In (w, p) d.
Proof.
  induction d as [|[k0 v0] d IH]; cbn [dict_remove]; [tauto|].
  destruct (keqb k k0); cbn [In]; intuition.
Qed.

Lemma In_dict_set (k w : string) (v p : P) (d : dict string P) :
  In (w, p) (dict_set k v d) -> (w = k /\ p = v) \/ In (w, p) d.
Proof.
  induction d as [|[k0 v0] d IH]; cbn [dict_set].
  - intros [[= <- <-]|[]]. left; split; reflexivity.
  - destruct (keqb k k0) eqn:E; cbn [In].
    + intros [[= <- <-]|I]; [|right; right; exact I].
      left. split; [|reflexivity]. symmetry. apply String.eqb_eq, E.
    + intros [I|I]; [right; left; exact I|].
      destruct (IH I) as [A|A]; [left; exact A | right; right; exact A].
Qed.

(** Replacing the map of a source by one that comes from it. *)
Lemma shrinks_store (l : loc) (s : string) (d d' : dict string P) (h : heap P) :
  dict_get s (load l h) = Some d ->
  entries_from lex d' d ->
  shrinks lex h (store l (dict_set s d' (load l h)) h).
Proof.
  intros G E. split; [rewrite length_store; lia|]. intros l0 L0.
  destruct (Nat.eq_dec l0 l) as [->|N].
  - rewrite load_store_same by exact L0. intros s0 d0 G0.
    destruct (string_dec s0 s) as [->|Ns].
    + rewrite dict_get_set_same in G0. injection G0 as <-.
      exists d. split; [exact G | exact E].
    + rewrite dict_get_set_other in G0 by exact Ns.
      exists d0. split; [exact G0 | apply entries_from_refl].
  - rewrite load_store_other by exact N. apply table_from_refl.
Qed.

Lemma shrinks_pop2 l s k : respects (P := P) (shrinks lex) (pop2 l s k).
Proof.
  intros h h' r E. apply pop2_cases in E.
  destruct E as [->|(d & v & G & _ & _ & ->)]; [apply shrinks_refl|].
  apply (shrinks_store l s d); [exact G|].
  intros w p I. left. apply (In_dict_remove k), I.
Qed.

Lemma shrinks_del2 l s k : respects (P := P) (shrinks lex) (del2 l s k).
Proof.
  apply respects_bind; [apply _ | apply shrinks_pop2 |].
  intros _. apply respects_ret, _.
Qed.

(** [obj[source][k2] = obj[source].pop(k)] for a connective [k2] of [lex]. *)
Lemma shrinks_move l s k k2 :
  In k2 lex ->
  respects (P := P) (shrinks lex)
           (bind (pop2 l s k) (fun probability => set2 l s k2 probability)).
Proof.
  intros Il h h' r. unfold bind, pop2, dict_index.
  destruct (dict_get s (load l h)) as [d|] eqn:G;
    [|intros [= <- _]; apply shrinks_refl].
  destruct (dict_get k d) as [v|] eqn:Gk;
    [|intros [= <- _]; apply shrinks_refl].
  assert (L : (l < List.length h)%nat).
  { destruct (Nat.lt_ge_cases l (List.length h)) as [L|L]; [exact L|].
    unfold load in G. rewrite nth_overflow in G by exact L. discriminate. }
  unfold set2, dict_index. rewrite load_store_same by exact L.
  rewrite dict_get_set_same. intros [= <- _].
  rewrite dict_set_set, store_store.
  apply (shrinks_store l s d); [exact G|].
  intros w p I. apply In_dict_set in I. destruct I as [[-> ->]|I].
  - right. split; [exact Il|]. exists k. apply dict_get_In, Gk.
  - left. apply (In_dict_remove k), I.
Qed.

Lemma shrinks_deepcopy (l : loc) : respects (P := P) (shrinks lex) (deepcopy (P := P) l).
Proof.
  intros h h' r [= <- _]. split; [rewrite length_app; simpl; lia|].
  intros l0 L. rewrite load_app_old by exact L. apply table_from_refl.
Qed.

Lemma respects_for_In (R : heap P -> heap P -> Prop) `{!StoreRel R} {B}
    (xs : list B) (body : B -> M P unit) :
  (forall x, In x xs -> respects R (body x)) -> respects R (for_ xs body).
Proof.
  induction xs as [|x xs IH]; intros Hb.
  - apply respects_ret, _.
  - intros h h' r. rewrite for_cons. destruct (body x h) as [h1 [[]|e]] eqn:E.
    + intros F. eapply R_trans; [eapply (Hb x (or_introl eq_refl)), E|].
      eapply (IH (fun y I => Hb y (or_intror I))), F.
    + intros [= <- _]. eapply (Hb x (or_introl eq_refl)), E.
Qed.

End Shrinks.

Ltac shrinks_step :=
  first [ apply shrinks_del2 | apply shrinks_pop2 | respects_step ].

Ltac shrinks_tac := repeat shrinks_step.

Section ShrinkingFilters.
Context {P : Type} `{Number P} `{Text} (lex : list string).

(** A filter that starts with [deepcopy] and only shrinks the copy. *)
Lemma copy_filter_from (l : loc) (body : loc -> M P loc)
    (h h' : heap P) (a : loc) :
  (forall fresh, respects (P := P) (shrinks lex) (body fresh)) ->
  (forall fresh, returns (eq fresh) (body fresh)) ->
  bind (deepcopy l) body h = (h', Ok a) ->
  (a < List.length h')%nat /\ table_from lex (load a h') (load l h).
Proof.
  intros Kp V E. unfold bind, deepcopy in E.
  pose proof (Kp _ _ _ _ E) as [L K]. apply V in E. subst a.
  rewrite length_app in L. simpl in L. split; [lia|].
  specialize (K (List.length h)). rewrite load_app_new in K.
  apply K. rewrite length_app. simpl. lia.
Qed.

Lemma in_place_filter_from (l : loc) (m : M P loc) (h h' : heap P) (a : loc) :
  respects (P := P) (shrinks lex) m ->
  returns (eq l) m ->
  (l < List.length h)%nat ->
  m h = (h', Ok a) ->
  (a < List.length h')%nat /\ table_from lex (load a h') (load l h).
Proof.
  intros Kp V L E. pose proof (Kp _ _ _ E) as [L' K]. apply V in E. subst a.
  split; [lia | apply K, L].
Qed.

Ltac shrinking_body :=
  match goal with
  | |- forall fresh, respects _ _ => intros ?; shrinks_tac
  | |- forall fresh, returns _ _ => intros ?; returns_tac
  end.

Lemma filter_most_common_conns_from l wt pt (h h' : heap P) a :
  filter_most_common_conns l wt pt h = (h', Ok a) ->
  (a < List.length h')%nat /\ table_from lex (load a h') (load l h).
Proof.
  intros E. unfold filter_most_common_conns in E.
  apply copy_filter_from in E; [exact E | |]; shrinking_body.
Qed.

Lemma remove_low_counts_from l c wc pc (h h' : heap P) a :
  remove_low_counts l c wc pc h = (h', Ok a) ->
  (a < List.length h')%nat /\ table_from lex (load a h') (load l h).
Proof.
  intros E. unfold remove_low_counts, low_count_target in E.
  apply copy_filter_from in E; [exact E | |]; shrinking_body.
Qed.

Lemma filter_unlikely_alignments_from l lang (h h' : heap P) a :
  (l < List.length h)%nat ->
  filter_unlikely_alignments l lang h = (h', Ok a) ->
  (a < List.length h')%nat /\ table_from lex (load a h') (load l h).
Proof.
  intros L E. apply (in_place_filter_from l _ _ _ _) in E; auto.
  - unfold filter_unlikely_alignments, unlikely_phrases, unlikely_singles,
      unlikely_subphrases. shrinks_tac.
  - unfold filter_unlikely_alignments. returns_tac.
Qed.

Lemma remove_incomplete_phrases_from l (h h' : heap P) a :
  remove_incomplete_phrases l h = (h', Ok a) ->
  (a < List.length h')%nat /\ table_from lex (load a h') (load l h).
Proof.
  intros E. unfold remove_incomplete_phrases in E.
  apply copy_filter_from in E; [exact E | |]; shrinking_body.
Qed.

Lemma filter_single_words_from l lang (h h' : heap P) a :
  (l < List.length h)%nat ->
  filter_single_words l lang h = (h', Ok a) ->
  (a < List.length h')%nat /\ table_from lex (load a h') (load l h).
Proof.
  intros L E. apply (in_place_filter_from l _ _ _ _) in E; auto.
  - unfold filter_single_words. shrinks_tac.
  - unfold filter_single_words. returns_tac.
Qed.

Lemma remove_pronouns_from l lang (h h' : heap P) a :
  remove_pronouns l lang h = (h', Ok a) ->
  (a < List.length h')%nat /\ table_from lex (load a h') (load l h).
Proof.
  intros E. unfold remove_pronouns in E.
  apply copy_filter_from in E; [exact E | |]; shrinking_body.
Qed.

Lemma complete_phrases_from l (h h' : heap P) a :
  complete_phrases l lex h = (h', Ok a) ->
  (a < List.length h')%nat /\ table_from lex (load a h') (load l h).
Proof.
  intros E. unfold complete_phrases in E.
  apply copy_filter_from in E; [exact E | | intros ?; returns_tac].
  intros f.
  apply respects_bind; [try exact _ .. | apply respects_read; exact _ | intros d].
  apply respects_bind; [try exact _ .. | | intros; apply respects_ret; exact _].
  apply respects_for; [try exact _ .. | intros [s targets]].
  apply respects_for; [try exact _ .. | intros target]. cbv zeta.
  destruct (_ && _); [|apply respects_ret; exact _].
  apply respects_for_In; [try exact _ .. | intros cmp Ic].
  apply respects_bind; [try exact _ .. | apply respects_lift_opt; exact _ | intros clean].
  destruct (completes _ _ _); [|apply respects_ret; exact _].
  apply respects_try; try exact _. apply shrinks_move, Ic.
Qed.

Lemma filter_chain_from lang other_lang wt pt wc pc count l (h h' : heap P) a :
  (l < List.length h)%nat ->
  filter_chain lang other_lang wt pt wc pc count lex l h = (h', Ok a) ->
  table_from lex (load a h') (load l h).
Proof.
  intros L E. unfold filter_chain in E.
  apply bind_Ok_inv in E. destruct E as (h1 & a1 & E1 & E).
  apply filter_most_common_conns_from in E1. destruct E1 as [L1 K1].
  apply bind_Ok_inv in E. destruct E as (h2 & a2 & E2 & E).
  apply remove_low_counts_from in E2. destruct E2 as [L2 K2].
  apply bind_Ok_inv in E. destruct E as (h3 & a3 & E3 & E).
  apply filter_unlikely_alignments_from in E3; [|exact L2]. destruct E3 as [L3 K3].
  apply bind_Ok_inv in E. destruct E as (h4 & a4 & E4 & E).
  apply remove_incomplete_phrases_from in E4. destruct E4 as [L4 K4].
  apply bind_Ok_inv in E. destruct E as (h5 & a5 & E5 & E).
  apply filter_single_words_from in E5; [|exact L4]. destruct E5 as [L5 K5].
  apply bind_Ok_inv in E. destruct E as (h6 & a6 & E6 & E).
  apply remove_pronouns_from in E6. destruct E6 as [L6 K6].
  apply complete_phrases_from in E. destruct E as [L7 K7].
  apply (table_from_trans lex _ _ _ K7).
  apply (table_from_trans lex _ _ _ K6).
  apply (table_from_trans lex _ _ _ K5).
  apply (table_from_trans lex _ _ _ K4).
  apply (table_from_trans lex _ _ _ K3).
  apply (table_from_trans lex _ _ _ K2).
  exact K1.
Qed.

(** X24. The filter chain invents nothing: every target that a source key
    has in the table the chain returns is, with the same probability, a
    target that the key had in the table the chain was given, or else it is
    a connective of the complete lexicon that carries the probability of
    such a target (the renaming of [complete_phrases]). No filter changes a
    probability, and none adds a source key. *)
Theorem filter_chain_keeps_the_probabilities
    (lang other_lang : string) (wt pt : P) (wc pc : Z)
    (count_dict : count_table) (t t' : table P) :
  run_chain lang other_lang wt pt wc pc count_dict lex t = Ok t' ->
  forall (source : string) (targets' : dict string P),
    dict_get source t' = Some targets' ->
    exists targets : dict string P,
      dict_get source t = Some targets
      /\ forall (w : string) (p : P),
           In (w, p) targets' ->
           In (w, p) targets \/ (In w lex /\ exists w', In (w', p) targets).
Proof.
  unfold run_chain. intros E.
  destruct (filter_chain _ _ _ _ _ _ _ _ _ _) as [h' [a|e]] eqn:C; [|discriminate].
  injection E as <-. apply filter_chain_from in C; [|simpl; lia].
  exact C.
Qed.

End ShrinkingFilters.

(** The theorem on a table with a target below the threshold. *)
Lemma filter_chain_keeps_the_probabilities_witness :
  run_chain "french" "german" 0.5%float 0.5%float 0 0
            [("k", [("a", 1); ("b", 3)])] []
            [("k", [("a", 0.25%float); ("b", 0.75%float)])]
  = Ok [("k", [("b", 0.75%float)])]
  /\ exists targets : dict string float,
       dict_get "k" [("k", [("a", 0.25%float); ("b", 0.75%float)])] = Some targets
       /\ forall (w : string) (p : float),
            In (w, p) [("b", 0.75%float)] ->
            In (w, p) targets \/ (In w [] /\ exists w', In (w', p) targets).
Proof.
  assert (R : run_chain "french" "german" 0.5%float 0.5%float 0 0
                [("k", [("a", 1); ("b", 3)])] []
                [("k", [("a", 0.25%float); ("b", 0.75%float)])]
              = Ok [("k", [("b", 0.75%float)])]) by (vm_compute; reflexivity).
  split; [exact R|].
  exact (filter_chain_keeps_the_probabilities (P := float) [] _ _ _ _ _ _ _ _ _ R
           "k" [("b", 0.75%float)] eq_refl).
Defined.

(* ================================================================== *)
(** ** The range of the probabilities *)

Lemma Counter_from_positive (xs : list string) :
  forall c : tally,
    (forall w n, dict_get w c = Some n -> 1 <= n) ->
    forall w n,
      dict_get w (fold_left (fun c x => dict_set x (counter_get x c + 1) c) xs c)
      = Some n -> 1 <= n.
Proof.
  induction xs as [|x xs IH]; intros c Pos w n; cbn [fold_left]; [apply Pos|].
  apply IH. intros w' n' G. destruct (string_dec w' x) as [->|N].
  - rewrite dict_get_set_same in G. injection G as <-.
    unfold counter_get. destruct (dict_get x c) as [m|] eqn:Gx; [|lia].
    specialize (Pos x m Gx). lia.
  - rewrite dict_get_set_other in G by exact N. apply (Pos w' n' G).
Qed.

Lemma count_occ_le_length (xs : list string) (w : string) :
  (count_occ string_dec xs w <= List.length xs)%nat.
Proof.
  induction xs as [|x xs IH]; cbn [count_occ List.length]; [lia|].
  destruct (string_dec x w); lia.
Qed.

Lemma Qc_of_Z_lt (a b : Z) : a < b -> (Qc_of_Z a < Qc_of_Z b)%Qc.
Proof.
  intros L. unfold Qclt, Qc_of_Z. cbn [this Q2Qc].
  rewrite !Qred_correct. rewrite <- Zlt_Qlt. exact L.
Qed.

Lemma Qc_of_Z_le (a b : Z) : a <= b -> (Qc_of_Z a <= Qc_of_Z b)%Qc.
Proof.
  intros L. unfold Qcle, Qc_of_Z. cbn [this Q2Qc].
  rewrite !Qred_correct. rewrite <- Zle_Qle. exact L.
Qed.

Lemma Qc_ratio_proper (c n : Z) :
  1 <= c -> c <= n -> (0 < Qc_of_Z c / Qc_of_Z n)%Qc /\ (Qc_of_Z c / Qc_of_Z n <= 1)%Qc.
Proof.
  intros C N.
  assert (Pn : (0 < Qc_of_Z n)%Qc) by (apply (Qc_of_Z_lt 0 n); lia).
  assert (Nz : Qc_of_Z n <> 0%Qc) by (apply Qc_of_Z_nonzero; lia).
  assert (E : (Qc_of_Z c / Qc_of_Z n * Qc_of_Z n)%Qc = Qc_of_Z c)
    by (field; exact Nz).
  split.
  - destruct (Qclt_le_dec 0 (Qc_of_Z c / Qc_of_Z n)) as [Lt|Le]; [exact Lt|].
    exfalso.
    assert (B : (Qc_of_Z c / Qc_of_Z n * Qc_of_Z n <= 0 * Qc_of_Z n)%Qc)
      by (apply Qcmult_le_compat_r; [exact Le | apply Qclt_le_weak, Pn]).
    rewrite E, Qcmult_0_l in B.
    assert (A : (0 < Qc_of_Z c)%Qc) by (apply (Qc_of_Z_lt 0 c); lia).
    apply (Qclt_not_le _ _ A B).
  - apply (Qcmult_lt_0_le_reg_r _ _ (Qc_of_Z n) Pn).
    rewrite E, Qcmult_1_l. apply Qc_of_Z_le, N.
Qed.

(** X26. Taken as exact rationals, every probability that
    [alignment_probabilities] gives is greater than 0 and at most 1: a
    target is a key of the Counter of its source only if it was observed,
    and it was observed at most as often as the source. *)
Theorem probabilities_are_proper (alignments : candidates) (key : string)
    (targets : dict string Qc) (w : string) (p : Qc) :
  dict_get key (alignment_probabilities alignments) = Some targets ->
  dict_get w targets = Some p ->
  (0 < p)%Qc /\ (p <= 1)%Qc.
Proof.
  intros G Gw. rewrite alignment_probabilities_get in G.
  destruct (dict_get key alignments) as [obs|]; [|discriminate].
  injection G as <-.
  rewrite expected_map in Gw by apply Counter_NoDup.
  rewrite Counter_total in Gw.
  rewrite (dict_get_map_values (fun c => div_count c (Z.of_nat (List.length obs)))) in Gw.
  destruct (dict_get w (Counter obs)) as [c|] eqn:Gc; [|discriminate].
  injection Gw as <-. cbn [div_count Qc_number].
  apply Qc_ratio_proper.
  - refine (Counter_from_positive obs [] _ w c Gc). intros w' n' [=].
  - assert (E : c = counter_get w (Counter obs))
      by (unfold counter_get; rewrite Gc; reflexivity).
    rewrite E, Counter_counts. apply inj_le, count_occ_le_length.
Qed.

(** The theorem on a key seen three times. *)
Lemma probabilities_are_proper_witness :
  exists (targets : dict string Qc) (p : Qc),
    dict_get "k" (alignment_probabilities [("k", ["a"; "b"; "a"])]) = Some targets
    /\ dict_get "a" targets = Some p
    /\ (0 < p)%Qc /\ (p <= 1)%Qc.
Proof.
  do 2 eexists.
  assert (G : dict_get "k" (alignment_probabilities (P := Qc) [("k", ["a"; "b"; "a"])])
              = Some _) by reflexivity.
  assert (Gw : dict_get "a" (expected (P := Qc) (Counter ["a"; "b"; "a"])) = Some _)
    by reflexivity.
  split; [exact G|]. split; [exact Gw|].
  exact (probabilities_are_proper _ _ _ _ _ G Gw).
Defined.

(* ================================================================== *)
(** ** The positions behind an observation *)

Lemma insert_sorted_comm (a b : Z) (xs : list Z) :
  insert_sorted a (insert_sorted b xs) = insert_sorted b (insert_sorted a xs).
Proof.
  induction xs as [|y ys IH]; cbn [insert_sorted].
  - destruct (Z.leb_spec a b), (Z.leb_spec b a); try reflexivity; try lia.
    replace b with a by lia. reflexivity.
  - destruct (Z.leb_spec b y), (Z.leb_spec a y); cbn [insert_sorted].
    + destruct (Z.leb_spec a b), (Z.leb_spec b a), (Z.leb_spec a y), (Z.leb_spec b y);
        try reflexivity; try lia.
      replace b with a by lia. reflexivity.
    + destruct (Z.leb_spec a b), (Z.leb_spec b y), (Z.leb_spec a y);
        try reflexivity; try lia.
    + destruct (Z.leb_spec b a), (Z.leb_spec b y), (Z.leb_spec a y);
        try reflexivity; try lia.
    + destruct (Z.leb_spec b y), (Z.leb_spec a y); try lia.
      rewrite IH. reflexivity.
Qed.

Lemma sort_Z_Permutation (xs ys : list Z) :
  Permutation xs ys -> sort_Z xs = sort_Z ys.
Proof.
  unfold sort_Z. induction 1 as [|x xs ys _ IH|x y xs|xs ys zs _ IH1 _ IH2];
    cbn [fold_right].
  - reflexivity.
  - rewrite IH. reflexivity.
  - apply insert_sorted_comm.
  - congruence.
Qed.

Lemma unique_aux_Z_In (x : Z) (xs : list Z) :
  forall seen, In x (Py.unique_aux Z.eqb xs seen) <-> In x xs /\ ~ In x seen.
Proof.
  induction xs as [|y xs IH]; intros seen; cbn [Py.unique_aux].
  - simpl. tauto.
  - destruct (existsb (Z.eqb y) seen) eqn:E.
    + rewrite IH. apply existsb_exists in E. destruct E as (z & Iz & E).
      apply Z.eqb_eq in E. subst z. simpl. split.
      * tauto.
      * intros [[->|I] N]; [contradiction | tauto].
    + assert (Ny : ~ In y seen).
      { intros I.
        assert (T : existsb (Z.eqb y) seen = true)
          by (apply existsb_exists; exists y; split; [exact I | apply Z.eqb_refl]).
        congruence. }
      simpl. rewrite IH. simpl. split.
      * intros [->|[I N]]; [tauto|]. split; [tauto|]. tauto.
      * intros [[->|I] N]; [tauto|].
        destruct (Z.eq_dec y x) as [->|D]; [tauto|]. right. split; [exact I|].
        intros [E'|I']; [congruence | contradiction].
Qed.

Lemma unique_aux_Z_NoDup (xs : list Z) :
  forall seen, NoDup (Py.unique_aux Z.eqb xs seen).
Proof.
  induction xs as [|y xs IH]; intros seen; cbn [Py.unique_aux]; [constructor|].
  destruct (existsb (Z.eqb y) seen); [apply IH|].
  constructor; [|apply IH]. rewrite unique_aux_Z_In. simpl. tauto.
Qed.

(** X25. The observation that the corpus scans record for an occurrence of
    a phrase depends only on the set of the target positions aligned to the
    words of the occurrence, not on the order in which the index pairs list
    them nor on how often: the positions are deduplicated and, when there
    are several, sorted before the gaps are marked. *)
Theorem observation_depends_on_the_set_of_positions
    (wide lang : Z) (target_tok : list string) (ps qs : list Z) :
  (forall z, In z ps <-> In z qs) ->
  target_phrase wide lang target_tok ps = target_phrase wide lang target_tok qs.
Proof.
  intros Same.
  assert (Pm : Permutation (Py.unique Z.eqb ps) (Py.unique Z.eqb qs)).
  { apply NoDup_Permutation; try apply unique_aux_Z_NoDup.
    intros z. unfold Py.unique. rewrite !unique_aux_Z_In. simpl.
    specialize (Same z). tauto. }
  assert (E : (if (1 <? List.length (Py.unique Z.eqb ps))%nat
               then gap_while wide target_tok (map Pos (sort_Z (Py.unique Z.eqb ps)))
               else Ok (map Pos (Py.unique Z.eqb ps)))
              = (if (1 <? List.length (Py.unique Z.eqb qs))%nat
                 then gap_while wide target_tok (map Pos (sort_Z (Py.unique Z.eqb qs)))
                 else Ok (map Pos (Py.unique Z.eqb qs)))).
  { rewrite (Permutation_length Pm).
    destruct (1 <? List.length (Py.unique Z.eqb qs))%nat eqn:L.
    - rewrite (sort_Z_Permutation _ _ Pm). reflexivity.
    - apply Nat.ltb_ge in L. pose proof (Permutation_length Pm) as Len.
      destruct (Py.unique Z.eqb qs) as [|q [|q' qs']]; cbn [List.length] in L; try lia.
      + apply Permutation_sym, Permutation_nil in Pm. rewrite Pm. reflexivity.
      + apply Permutation_sym, Permutation_length_1_inv in Pm. rewrite Pm. reflexivity. }
  unfold target_phrase. rewrite E. reflexivity.
Qed.

(** The theorem on the positions of "le fait" in the scenario, listed in two
    ways. *)
Lemma observation_depends_on_the_set_of_positions_witness :
  target_phrase 2 2 ["er"; "macht"; "es"; "trotzdem"; "."] [2; 1; 2]
  = target_phrase 2 2 ["er"; "macht"; "es"; "trotzdem"; "."] [1; 2].
Proof.
  apply observation_depends_on_the_set_of_positions.
  intros z. simpl. intuition.
Defined.

(* ================================================================== *)
(** ** What [filter_unlikely_alignments] removes *)

Section Narrows.
Context {P : Type} (l : loc) (s : string).

Lemma narrows_refl (h : heap P) : narrows l s h h.
Proof. intros d G. exists d. auto. Qed.

Lemma narrows_trans (h1 h2 h3 : heap P) :
  narrows l s h1 h2 -> narrows l s h2 h3 -> narrows l s h1 h3.
Proof.
  intros A B d3 G3. destruct (B d3 G3) as (d2 & G2 & K32 & N32).
  destruct (A d2 G2) as (d1 & G1 & K21 & N21).
  exists d1. split; [exact G1|]. split; auto.
Qed.

#[export] Instance narrows_rel : StoreRel (narrows l s) :=
  {| R_refl := narrows_refl; R_trans := narrows_trans |}.

Lemma narrows_pop2 l0 s0 k : respects (P := P) (narrows l s) (pop2 l0 s0 k).
Proof.
  intros h h' r E. apply pop2_cases in E.
  destruct E as [->|(d & v & G & _ & _ & ->)]; [apply narrows_refl|].
  intros d' G'. destruct (Nat.eq_dec l l0) as [->|N].
  - destruct (Nat.lt_ge_cases l0 (List.length h)) as [L|L].
    + rewrite load_store_same in G' by exact L.
      destruct (string_dec s s0) as [->|Ns].
      * rewrite dict_get_set_same in G'. injection G' as <-.
        exists d. split; [exact G|]. split.
        -- intros k0. apply In_keys_remove.
        -- apply NoDup_keys_remove.
      * rewrite dict_get_set_other in G' by exact Ns. exists d'. auto.
    + rewrite store_out_of_range in G' by exact L. exists d'. auto.
  - rewrite load_store_other in G' by exact N. exists d'. auto.
Qed.

Lemma narrows_del2 l0 s0 k : respects (P := P) (narrows l s) (del2 l0 s0 k).
Proof.
  apply respects_bind; [apply _ | apply narrows_pop2 |].
  intros _. apply respects_ret, _.
Qed.

Lemma unique_at_narrows (h h' : heap P) :
  unique_at l s h -> narrows l s h h' -> unique_at l s h'.
Proof.
  intros U N d' G'. destruct (N d' G') as (d & G & _ & ND). apply ND, (U d G).
Qed.

Lemma absent_at_narrows (t : string) (h h' : heap P) :
  absent_at l s t h -> narrows l s h h' -> absent_at l s t h'.
Proof.
  intros A N d' G' I. destruct (N d' G') as (d & G & K & _).
  apply (A d G), K, I.
Qed.

(** A [del] that succeeds leaves the target absent. *)
Lemma del2_absent (t : string) (h h' : heap P) (r : unit) :
  unique_at l s h -> del2 l s t h = (h', Ok r) -> absent_at l s t h'.
Proof.
  intros U E. unfold del2, bind, pop2, dict_index in E.
  destruct (dict_get s (load l h)) as [d|] eqn:G; [|discriminate].
  destruct (dict_get t d) as [v|] eqn:Gt; [|discriminate].
  injection E as <-. intros d' G'.
  destruct (Nat.lt_ge_cases l (List.length h)) as [L|L].
  - rewrite load_store_same in G' by exact L.
    rewrite dict_get_set_same in G'. injection G' as <-.
    apply dict_get_None, dict_get_remove_same, (U d G).
  - unfold load in G. rewrite nth_overflow in G by exact L. discriminate.
Qed.

(** A loop each of whose rounds narrows the targets of [s]: what the round
    of [x] establishes holds when the loop has completed. *)
Lemma foldM_establishes {A B} (Post : heap P -> Prop) (step : A -> B -> M P A)
    (x : B) :
  (forall acc y, respects (narrows l s) (step acc y)) ->
  (forall h h', Post h -> narrows l s h h' -> Post h') ->
  (forall acc h h' a, unique_at l s h -> step acc x h = (h', Ok a) -> Post h') ->
  forall (xs : list B) (acc : A) (h h' : heap P) (a : A),
    In x xs -> unique_at l s h ->
    foldM step xs acc h = (h', Ok a) -> Post h'.
Proof.
  intros Rs Keep Est. induction xs as [|y xs IH]; intros acc h h' a I U E;
    [destruct I|].
  cbn [foldM] in E. unfold bind in E.
  destruct (step acc y h) as [h1 [a1|e]] eqn:S1; [|discriminate].
  destruct I as [->|I].
  - apply (Keep h1); [eapply Est; eassumption|].
    eapply (respects_foldM (narrows l s)); [exact Rs | exact E].
  - eapply IH; [exact I | | exact E].
    eapply unique_at_narrows; [exact U | eapply Rs; exact S1].
Qed.

End Narrows.

Ltac narrows_step :=
  first [ apply narrows_del2 | apply narrows_pop2 | respects_step ].

Ltac narrows_tac := repeat narrows_step.

Section Unlikely.
Context {P : Type} `{Number P} `{Text}.
Local Open Scope store_scope.

Lemma unlikely_phrases_narrows l s l0 dw s0 phrases :
  respects (P := P) (narrows l s) (unlikely_phrases l0 dw s0 phrases).
Proof. unfold unlikely_phrases. narrows_tac. Qed.

Lemma unlikely_singles_narrows l s l0 dw s0 singles fp :
  respects (P := P) (narrows l s) (unlikely_singles l0 dw s0 singles fp).
Proof. unfold unlikely_singles. narrows_tac. Qed.

Lemma unlikely_subphrases_narrows l s l0 s0 fp :
  respects (P := P) (narrows l s) (unlikely_subphrases l0 s0 fp).
Proof. unfold unlikely_subphrases. narrows_tac. Qed.

(** The first loop deletes every phrase that ends in a deletion word. *)
Lemma unlikely_phrases_removes l s dw phrases (h h' : heap P) fp t w :
  unique_at l s h ->
  unlikely_phrases l (Some dw) s phrases h = (h', Ok fp) ->
  In t phrases ->
  Py.last_opt (Py.split t) = Some w -> Py.in_list w dw = true ->
  absent_at l s t h'.
Proof.
  intros U E I Lt Dw. unfold unlikely_phrases in E.
  eapply (foldM_establishes l s (absent_at l s t)) with (x := t);
    [ | | | exact I | exact U | exact E].
  - intros acc y. narrows_tac.
  - intros h1 h2. apply absent_at_narrows.
  - intros acc h1 h2 a U1. cbv beta. rewrite Lt. cbn [lift_opt]. unfold use_var.
    cbn [lift_opt]. unfold bind at 1 2. cbn [ret]. rewrite Dw.
    unfold bind. destruct (del2 l s t h1) as [h3 [[]|e]] eqn:D; [|discriminate].
    intros E1. assert (h2 = h3) as ->.
    { destruct (Py.list_remove t acc); unfold lift_opt, ret, raise in E1;
        congruence. }
    eapply del2_absent; eassumption.
Qed.

(** The second loop deletes every single word that is a deletion word. *)
Lemma unlikely_singles_removes l s dw singles fp (h h' : heap P) t :
  unique_at l s h ->
  unlikely_singles l (Some dw) s singles fp h = (h', Ok tt) ->
  In t singles -> Py.in_list t dw = true ->
  absent_at l s t h'.
Proof.
  intros U E I Dw. unfold unlikely_singles, for_ in E.
  eapply (foldM_establishes l s (absent_at l s t)) with (x := t);
    [ | | | exact I | exact U | exact E].
  - intros acc y. narrows_tac.
  - intros h1 h2. apply absent_at_narrows.
  - intros [] h1 h2 [] U1. cbv beta. unfold andM at 1, use_var. cbn [lift_opt].
    unfold bind at 1 2 3. cbn [ret]. rewrite Dw. unfold mem2 at 1.
    destruct (dict_index s (load l h1)) as [d|e] eqn:G; cbn; [|discriminate].
    unfold dict_index in G. destruct (dict_get s (load l h1)) as [d0|] eqn:G0;
      [injection G as ->|discriminate].
    destruct (dict_mem t d) eqn:Mt.
    + unfold bind at 1. destruct (del2 l s t h1) as [h3 [[]|e]] eqn:D; [|discriminate].
      intros E1. apply (absent_at_narrows l s t h3).
      * eapply del2_absent; eassumption.
      * revert E1. apply (respects_for (narrows l s)). intros ph. narrows_tac.
    + unfold bind at 1. cbn [ret]. intros E1. apply (absent_at_narrows l s t h1).
      * intros d1 G1. rewrite G0 in G1. injection G1 as <-.
        apply dict_get_None. unfold dict_mem in Mt.
        destruct (dict_get t d); [discriminate | reflexivity].
      * revert E1. apply (respects_for (narrows l s)). intros ph. narrows_tac.
Qed.

(** X27. For the languages "french" and "german", and on a table with
    unique keys, a call of [filter_unlikely_alignments] that returns leaves
    no target that ends in a deletion word of the language: every phrase of
    several tokens whose last token is one, and every single token that is
    one, is gone from every source key. *)
Theorem unlikely_targets_are_removed (l : loc) (lang : string)
    (del_words : list string) (h h' : heap P) (a : loc) :
  unlikely_del_words lang = Some del_words ->
  (l < List.length h)%nat ->
  unique_keys (load l h) ->
  filter_unlikely_alignments l lang h = (h', Ok a) ->
  forall (source : string) (targets : dict string P) (target : string),
    dict_get source (load l h') = Some targets ->
    In target (keys targets) ->
    unlikely_target del_words target = false.
Proof.
  intros Dw L [_ U] E s d t G I.
  assert (Ks : In s (keys (load l h))).
  { destruct (keys_kept_filter_unlikely_alignments l lang _ _ _ E) as [_ K].
    rewrite <- (K l L). apply dict_mem_In. unfold dict_mem. rewrite G. reflexivity. }
  unfold filter_unlikely_alignments in E. rewrite Dw in E.
  unfold bind at 1 in E. unfold read at 1 in E. unfold bind at 1 in E.
  destruct (for_ (keys (load l h)) _ h) as [h1 [[]|e]] eqn:F; [|discriminate].
  cbn [ret] in E. injection E as <- <-.
  cut (forall d, dict_get s (load l h1) = Some d ->
       forall t, In t (keys d) -> unlikely_target del_words t = false);
    [intros Q; exact (Q d G t I)|].
  clear d t G I.
  unfold for_ in F.
  eapply (foldM_establishes l s
            (fun h => forall d, dict_get s (load l h) = Some d ->
                      forall t, In t (keys d) -> unlikely_target del_words t = false))
    with (x := s); [ | | | exact Ks | | exact F].
  - intros acc y. unfold unlikely_phrases, unlikely_singles, unlikely_subphrases.
    narrows_tac.
  - intros h2 h3 Q N d3 G3 t I3. destruct (N d3 G3) as (d2 & G2 & K & _).
    apply (Q d2 G2), K, I3.
  - intros [] h2 h3 [] U2 B d3 G3 t I3. cbv beta in B.
    unfold bind at 1 in B. unfold inner at 1 in B. unfold dict_index in B.
    destruct (dict_get s (load l h2)) as [d2|] eqn:G2; [|discriminate].
    unfold bind at 1 in B.
    destruct (unlikely_phrases _ _ _ _ h2) as [ha [fp|e]] eqn:Ea; [|discriminate].
    unfold bind at 1 in B.
    destruct (unlikely_singles _ _ _ _ _ ha) as [hb [[]|e]] eqn:Eb; [|discriminate].
    unfold bind at 1 in B.
    destruct (unlikely_subphrases _ _ _ hb) as [hc [fp'|e]] eqn:Ec; [|discriminate].
    cbn [ret] in B. injection B as <-.
    pose proof (unlikely_phrases_narrows l s _ _ _ _ _ _ _ Ea) as Na.
    pose proof (unlikely_singles_narrows l s _ _ _ _ _ _ _ _ Eb) as Nb.
    pose proof (unlikely_subphrases_narrows l s _ _ _ _ _ _ Ec) as Nc.
    assert (I2 : In t (keys d2)).
    { destruct (narrows_trans l s _ _ _ Na (narrows_trans l s _ _ _ Nb Nc) d3 G3)
        as (d2' & G2' & K & _).
      rewrite G2 in G2'. injection G2' as <-. apply K, I3. }
    destruct (unlikely_target del_words t) eqn:Ut; [exfalso | reflexivity].
    unfold unlikely_target in Ut.
    destruct (1 <? n_tokens t)%nat eqn:Nt.
    + destruct (Py.last_opt (Py.split t)) as [w|] eqn:Lt; [|discriminate].
      assert (A : absent_at l s t ha).
      { eapply unlikely_phrases_removes; [exact U2 | exact Ea | | exact Lt | exact Ut].
        apply filter_In. split; [exact I2 | exact Nt]. }
      apply (absent_at_narrows l s t ha hc A (narrows_trans l s _ _ _ Nb Nc) d3 G3 I3).
    + apply andb_true_iff in Ut. destruct Ut as [N1 Dt].
      assert (A : absent_at l s t hb).
      { eapply unlikely_singles_removes;
          [eapply unique_at_narrows; [exact U2 | exact Na] | exact Eb | | exact Dt].
        apply filter_In. split; [exact I2 | exact N1]. }
      apply (absent_at_narrows l s t hb hc A Nc d3 G3 I3).
  - intros d0 G0. apply (U s), dict_get_In, G0.
Qed.

End Unlikely.

Lemma unlikely_targets_are_removed_witness :
  filter_unlikely_alignments 0%nat "french"
    [[("k", [("es", 0.5%float); ("das ist", 0.25%float); ("aber", 0.25%float)])]]
  = ([[("k", [("aber", 0.25%float)])]], Ok 0%nat)
  /\ unlikely_target
       ["ich"; "du"; "er"; "sie"; "es"; "wir"; "ihr"; "sie";
        "das"; "des"; "die"; "der"; "einer"; "eines"; "eine";
        "ist"; "dem"; "sich"; "unseres"; "ein"] "aber" = false.
Proof.
  assert (R : filter_unlikely_alignments 0%nat "french"
                [[("k", [("es", 0.5%float); ("das ist", 0.25%float);
                         ("aber", 0.25%float)])]]
              = ([[("k", [("aber", 0.25%float)])]], Ok 0%nat))
    by (vm_compute; reflexivity).
  split; [exact R|].
  apply (unlikely_targets_are_removed (P := float) 0%nat "french" _ _ _ _
           eq_refl) with (source := "k") (targets := [("aber", 0.25%float)])
                         (3 := R).
  - simpl. lia.
  - split; [repeat constructor; simpl; tauto|].
    intros s d [E|[]]. injection E as <- <-.
    repeat constructor; simpl; intuition discriminate.
  - reflexivity.
  - left. reflexivity.
Defined.

(* ================================================================== *)
(** ** Targets of fewer than three tokens *)

Section KeepsTarget.
Context {P : Type} (t : string).

Lemma keeps_target_refl (h : heap P) : keeps_target t h h.
Proof. split; [lia|]. intros l _ s d G. exists d. auto. Qed.

Lemma keeps_target_trans (h1 h2 h3 : heap P) :
  keeps_target t h1 h2 -> keeps_target t h2 h3 -> keeps_target t h1 h3.
Proof.
  intros [L1 K1] [L2 K2]. split; [lia|]. intros l L s d3 G3.
  destruct (K2 l ltac:(lia) s d3 G3) as (d2 & G2 & E32).
  destruct (K1 l L s d2 G2) as (d1 & G1 & E21).
  exists d1. split; [exact G1 | congruence].
Qed.

#[export] Instance keeps_target_rel : StoreRel (keeps_target t) :=
  {| R_refl := keeps_target_refl; R_trans := keeps_target_trans |}.

(** Replacing the map of a source by one that agrees with it on [t]. *)
Lemma keeps_target_store (l : loc) (s : string) (d d' : dict string P) (h : heap P) :
  dict_get s (load l h) = Some d ->
  dict_get t d' = dict_get t d ->
  keeps_target t h (store l (dict_set s d' (load l h)) h).
Proof.
  intros G E. split; [rewrite length_store; lia|]. intros l0 L0 s0 d0 G0.
  destruct (Nat.eq_dec l0 l) as [->|N].
  - rewrite load_store_same in G0 by exact L0.
    destruct (string_dec s0 s) as [->|Ns].
    + rewrite dict_get_set_same in G0. injection G0 as <-. exists d. auto.
    + rewrite dict_get_set_other in G0 by exact Ns. exists d0. auto.
  - rewrite load_store_other in G0 by exact N. exists d0. auto.
Qed.

Lemma keeps_target_pop2 l s k :
  k <> t -> respects (P := P) (keeps_target t) (pop2 l s k).
Proof.
  intros N h h' r E. apply pop2_cases in E.
  destruct E as [->|(d & v & G & _ & _ & ->)]; [apply keeps_target_refl|].
  apply (keeps_target_store l s d); [exact G|].
  apply dict_get_remove_other. congruence.
Qed.

Lemma keeps_target_del2 l s k :
  k <> t -> respects (P := P) (keeps_target t) (del2 l s k).
Proof.
  intros N. apply respects_bind; [apply _ | apply keeps_target_pop2, N |].
  intros _. apply respects_ret, _.
Qed.

Lemma keeps_target_set2 l s k v :
  k <> t -> respects (P := P) (keeps_target t) (set2 l s k v).
Proof.
  intros N h h' r E. apply set2_cases in E.
  destruct E as [->|(d & G & ->)]; [apply keeps_target_refl|].
  apply (keeps_target_store l s d); [exact G|].
  apply dict_get_set_other. congruence.
Qed.

(** A filter that starts with [deepcopy] and leaves [t] alone in the copy. *)
Lemma copy_filter_keeps_target (l : loc) (body : loc -> M P loc)
    (h h' : heap P) (a : loc) :
  (forall fresh, respects (P := P) (keeps_target t) (body fresh)) ->
  (forall fresh, returns (eq fresh) (body fresh)) ->
  bind (deepcopy l) body h = (h', Ok a) ->
  forall s d', dict_get s (load a h') = Some d' ->
    exists d, dict_get s (load l h) = Some d /\ dict_get t d' = dict_get t d.
Proof.
  intros Kp V E. unfold bind, deepcopy in E.
  pose proof (Kp _ _ _ _ E) as [L K]. apply V in E. subst a.
  specialize (K (List.length h)). rewrite load_app_new in K.
  apply K. rewrite length_app. simpl. lia.
Qed.

End KeepsTarget.

Ltac keeps_target_step :=
  first
    [ apply keeps_target_del2 | apply keeps_target_pop2 | apply keeps_target_set2
    | match goal with
      | |- respects _ (if ?b then _ else _) => destruct b eqn:?
      end
    | respects_step ].

Section ShortTargets.
Context {P : Type} `{Number P} `{Text}.

Lemma gapped_is_long (t : string) (rest : bool) :
  (n_tokens t < 3)%nat ->
  (3 <=? List.length (Py.split t))%nat && rest = true -> False.
Proof.
  unfold n_tokens. intros S C. apply andb_true_iff in C. destruct C as [C _].
  apply Nat.leb_le in C. lia.
Qed.

Lemma completes_is_long (t : string) (target_tokens clean_target : list string) :
  (n_tokens t < 3)%nat -> completes target_tokens clean_target t = true -> False.
Proof.
  unfold completes. intros S C. repeat rewrite <- andb_assoc in C.
  eapply gapped_is_long; eassumption.
Qed.

(** X28. [remove_incomplete_phrases] and [complete_phrases] leave the
    targets of fewer than three tokens alone: in the table either of them
    returns, such a target has under every source key the probability it had
    in the argument, and it is absent where it was absent. *)
Theorem short_targets_are_left_alone (l : loc) (lex : list string)
    (h h' : heap P) (a : loc) (t : string) :
  (n_tokens t < 3)%nat ->
  remove_incomplete_phrases l h = (h', Ok a)
  \/ complete_phrases l lex h = (h', Ok a) ->
  forall (source : string) (targets' : dict string P),
    dict_get source (load a h') = Some targets' ->
    exists targets : dict string P,
      dict_get source (load l h) = Some targets
      /\ dict_get t targets' = dict_get t targets.
Proof.
  intros S [E|E].
  - unfold remove_incomplete_phrases in E.
    refine (copy_filter_keeps_target t l _ h h' a _ _ E).
    + intros fresh. repeat keeps_target_step.
      intros ->. eapply gapped_is_long; eassumption.
    + intros fresh. returns_tac.
  - unfold complete_phrases in E.
    refine (copy_filter_keeps_target t l _ h h' a _ _ E).
    + intros fresh. repeat keeps_target_step.
      * intros ->. eapply gapped_is_long; eassumption.
      * intros ->. eapply completes_is_long; eassumption.
    + intros fresh. returns_tac.
Qed.

End ShortTargets.

Lemma short_targets_are_left_alone_witness :
  complete_phrases 0%nat ["so wie auch"]
    [[("k", [("so ... auch", 0.5%float); ("doch", 0.5%float)])]]
  = ([[("k", [("so ... auch", 0.5%float); ("doch", 0.5%float)])];
      [("k", [("doch", 0.5%float); ("so wie auch", 0.5%float)])]], Ok 1%nat)
  /\ exists targets : dict string float,
       dict_get "k" (load 0%nat
                       [[("k", [("so ... auch", 0.5%float); ("doch", 0.5%float)])]])
       = Some targets
       /\ dict_get "doch" [("doch", 0.5%float); ("so wie auch", 0.5%float)]
          = dict_get "doch" targets.
Proof.
  assert (R : complete_phrases 0%nat ["so wie auch"]
                [[("k", [("so ... auch", 0.5%float); ("doch", 0.5%float)])]]
              = ([[("k", [("so ... auch", 0.5%float); ("doch", 0.5%float)])];
                  [("k", [("doch", 0.5%float); ("so wie auch", 0.5%float)])]],
                 Ok 1%nat)) by (vm_compute; reflexivity).
  split; [exact R|].
  refine (short_targets_are_left_alone (P := float) 0%nat ["so wie auch"] _ _ 1%nat
            "doch" _ (or_intror R) "k" _ eq_refl).
  vm_compute. lia.
Defined.
